(** * VEO Studio: the long-running-operation orchestrator of [Home.tsx]

    A shallow embedding of the event handlers of the [Home] component
    ([parseError], [handleClear], [handleImageUpload], [handleSubmit],
    [handleDownload], the settings inputs and buttons, the submit button and
    the main panel) together with the properties of the generation run:
    validation, bounded polling, all-or-nothing download, error
    classification and the lifetime of the object URLs.

    The first part is the model: JavaScript strings and numbers, the state
    of the component, handlers as trees of commands, the machine that runs
    them against a service, and the page on which handlers suspended at an
    [await] interleave with the inputs of the user.  The second part holds
    the properties; the third one holds further properties: what
    [parseError] extracts, the exact traces of the runs, what a run and
    Clear leave alone, the image upload and the download links. *)

From Stdlib Require Import List Bool Arith NArith ZArith QArith Lia.
From Stdlib Require Import Strings.String Strings.Ascii Numbers.DecimalString.
From Stdlib Require Import Numbers.DecimalNat.
Import ListNotations.

Close Scope Q_scope.
Open Scope nat_scope.
Open Scope bool_scope.

(** ** JavaScript strings

    A JavaScript string is a sequence of UTF-16 code units.  String literals
    of the source are ASCII and are written [js "..."]. *)

Definition jsstring := list N.

Definition js (s : string) : jsstring :=
  map N_of_ascii (list_ascii_of_string s).

(** [!s] on a string: only the empty string is falsy. *)
Definition truthy (s : jsstring) : bool :=
  match s with [] => false | _ :: _ => true end.

(** [a || b] on strings. *)
Definition orElse (a b : jsstring) : jsstring :=
  if truthy a then a else b.

(** A value interpolated in a template literal; [undefined] prints as such. *)
Definition interpolate (v : option jsstring) : jsstring :=
  match v with Some s => s | None => js "undefined" end.

(** A non-negative integer interpolated in a template literal. *)
Definition decimal (n : nat) : jsstring :=
  js (NilEmpty.string_of_uint (Nat.to_uint n)).

Fixpoint startsWith (s pre : jsstring) : bool :=
  match pre, s with
  | [], _ => true
  | p :: pre', c :: s' => (p =? c)%N && startsWith s' pre'
  | _ :: _, [] => false
  end.

(** [String.prototype.includes]: [sub] occurs in [s] at some position. *)
Fixpoint includes (s sub : jsstring) : bool :=
  startsWith s sub ||
  match s with
  | [] => false
  | _ :: s' => includes s' sub
  end.

(** ** The regular expression of [parseError]

    The pattern is: the literal key [message] in double quotes, a colon,
    [\s*], a double quote, the lazy capture [(.*?)], a double quote; flag
    [g].  It is matched by [exec] from [lastIndex]. *)

Definition dquote : N := 34.

(** Line terminators: the characters [.] does not match. *)
Definition isLineTerminator (c : N) : bool :=
  ((c =? 10) || (c =? 13) || (c =? 8232) || (c =? 8233))%N.

(** The class [\s]: white space and line terminators. *)
Definition isWhiteSpace (c : N) : bool :=
  (isLineTerminator c
   || (c =? 9) || (c =? 11) || (c =? 12) || (c =? 32) || (c =? 160)
   || (c =? 5760) || ((8192 <=? c) && (c <=? 8202))
   || (c =? 8239) || (c =? 8287) || (c =? 12288) || (c =? 65279))%N.

(** The literal prefix of the pattern: the quoted key and the colon. *)
Definition messageKey : jsstring := dquote :: js "message" ++ [dquote; 58%N].

(** Consumes the literal [pre] at the head of [s]. *)
Fixpoint eatLiteral (s pre : jsstring) : option jsstring :=
  match pre, s with
  | [], _ => Some s
  | p :: pre', c :: s' => if (p =? c)%N then eatLiteral s' pre' else None
  | _ :: _, [] => None
  end.

(** [\s*]: greedy; what follows it in the pattern is a quote, which is not
    white space, so giving characters back never helps. *)
Fixpoint eatWhiteSpace (s : jsstring) : nat * jsstring :=
  match s with
  | c :: s' =>
      if isWhiteSpace c
      then let '(n, r) := eatWhiteSpace s' in (S n, r)
      else (0, s)
  | [] => (0, [])
  end.

(** [(.*?)] and the closing quote: the shortest run of characters other
    than line terminators that is followed by a quote. *)
Fixpoint lazyUntilQuote (s : jsstring) : option jsstring :=
  match s with
  | [] => None
  | c :: s' =>
      if (c =? dquote)%N then Some []
      else if isLineTerminator c then None
      else option_map (cons c) (lazyUntilQuote s')
  end.

(** The pattern anchored at the head of [s]: capture group 1 and the length
    of the whole match. *)
Definition matchHere (s : jsstring) : option (jsstring * nat) :=
  match eatLiteral s messageKey with
  | None => None
  | Some r =>
      let '(ws, r') := eatWhiteSpace r in
      match r' with
      | c :: r'' =>
          if (c =? dquote)%N then
            match lazyUntilQuote r'' with
            | Some cap =>
                Some (cap, List.length messageKey + ws + 1 + List.length cap + 1)
            | None => None
            end
          else None
      | [] => None
      end
  end.

(** Leftmost match in [s]; [pos] is the index of the head of [s]. *)
Fixpoint search (s : jsstring) (pos : nat) : option (jsstring * nat) :=
  match matchHere s with
  | Some (cap, len) => Some (cap, pos + len)
  | None =>
      match s with
      | [] => None
      | _ :: s' => search s' (S pos)
      end
  end.

(** A regular expression object carries [lastIndex]; with the [g] flag
    [exec] starts there and stores the end of the match (0 on failure). *)
Record RegExp := { lastIndex : nat }.

Definition newRegExp : RegExp := {| lastIndex := 0 |}.

Definition RegExp_exec (re : RegExp) (s : jsstring)
  : option jsstring * RegExp :=
  if List.length s <? lastIndex re then (None, {| lastIndex := 0 |})
  else
    match search (skipn (lastIndex re) s) (lastIndex re) with
    | Some (cap, e) => (Some cap, {| lastIndex := e |})
    | None => (None, {| lastIndex := 0 |})
    end.

(** ** React nodes shown in the error dialog *)

#[warnings="-register-all"]
Inductive ReactNode : Type :=
| NText (s : jsstring)
| NBr
| NAnchor (href target rel className : jsstring) (children : list ReactNode)
| NFragment (children : list ReactNode).

(** The fragment returned for a quota error. *)
Definition rateLimitNotice : ReactNode :=
  NFragment
    [ NText (js "You've exceeded your current API quota (Rate Limit). This is a usage limit on Google's servers.");
      NBr; NBr;
      NText (js "Please check your plan and billing details, or try again after some time. For more information, visit the");
      NText (js " ");
      NAnchor (js "https://ai.google.dev/gemini-api/docs/rate-limits")
              (js "_blank") (js "noopener noreferrer")
              (js "text-blue-600 underline hover:text-blue-800")
              [NText (js "Gemini API rate limits documentation")];
      NText (js ".") ].

(** [parseError]: the regular expression literal is evaluated at each call,
    so every call works on a fresh object whose [lastIndex] is 0. *)
Definition parseError (error : jsstring) : ReactNode :=
  if includes error (js "429") && includes error (js "RESOURCE_EXHAUSTED")
  then rateLimitNotice
  else
    let regex := newRegExp in
    let '(match_, _) := RegExp_exec regex error in
    match match_ with
    | Some group1 => if truthy group1 then NText group1 else NText error
    | None => NText error
    end.

(** ** JavaScript numbers

    A number is [NaN], an infinity or a finite value.  Finite values are
    modelled by the rational they denote; the code only compares and selects
    numbers ([Math.min], [Math.max]), so rounding plays no role in it. *)

Inductive JSNumber : Type :=
| NaN
| Infinity (negative : bool)
| Fin (q : Q).

Definition num_leb (a b : JSNumber) : bool :=
  match a, b with
  | NaN, _ | _, NaN => false
  | Infinity true, _ => true
  | _, Infinity false => true
  | Infinity false, _ => false
  | _, Infinity true => false
  | Fin x, Fin y => Qle_bool x y
  end.

Definition isNaN (a : JSNumber) : bool :=
  match a with NaN => true | _ => false end.

(** [Math.min] and [Math.max] of two arguments: [NaN] if either is. *)
Definition Math_min (a b : JSNumber) : JSNumber :=
  if isNaN a || isNaN b then NaN else if num_leb a b then a else b.

Definition Math_max (a b : JSNumber) : JSNumber :=
  if isNaN a || isNaN b then NaN else if num_leb a b then b else a.

Definition ofNat (n : nat) : JSNumber := Fin (inject_Z (Z.of_nat n)).

(** [Number.isInteger]. *)
Definition isInteger (a : JSNumber) : bool :=
  match a with
  | Fin q => (Z.modulo (Qnum q) (Zpos (Qden q)) =? 0)%Z
  | _ => false
  end.

(** *** [Number(string)]: the StringToNumber conversion *)

Definition isDigit (c : N) : bool := ((48 <=? c) && (c <=? 57))%N.

(** Value of a digit in the given radix, if it is one. *)
Definition digitValue (radix c : N) : option N :=
  let v :=
    if isDigit c then Some (c - 48)%N
    else if ((97 <=? c) && (c <=? 102))%N then Some (c - 87)%N
    else if ((65 <=? c) && (c <=? 70))%N then Some (c - 55)%N
    else None in
  match v with
  | Some d => if (d <? radix)%N then Some d else None
  | None => None
  end.

(** Reads the longest run of digits: value, number of digits, rest. *)
Fixpoint eatDigits (radix : N) (s : jsstring) (acc : N) (count : nat)
  : N * nat * jsstring :=
  match s with
  | c :: s' =>
      match digitValue radix c with
      | Some d => eatDigits radix s' (acc * radix + d)%N (S count)
      | None => (acc, count, s)
      end
  | [] => (acc, count, [])
  end.

Fixpoint trimStart (s : jsstring) : jsstring :=
  match s with
  | c :: s' => if isWhiteSpace c then trimStart s' else s
  | [] => []
  end.

Definition trim (s : jsstring) : jsstring :=
  rev (trimStart (rev (trimStart s))).

(** A radix-prefixed integer: all of [s] must be digits, at least one. *)
Definition nonDecimalInteger (radix : N) (s : jsstring) : JSNumber :=
  match eatDigits radix s 0%N 0 with
  | (v, S _, []) => Fin (inject_Z (Z.of_N v))
  | _ => NaN
  end.

(** The exponent part: [e] or [E], an optional sign, digits. *)
Definition exponentPart (s : jsstring) : option Z :=
  match s with
  | [] => Some 0%Z
  | c :: s' =>
      if ((c =? 101) || (c =? 69))%N then
        let '(negative, s'') :=
          match s' with
          | d :: t => if (d =? 45)%N then (true, t)
                      else if (d =? 43)%N then (false, t) else (false, s')
          | [] => (false, s')
          end in
        match eatDigits 10 s'' 0%N 0 with
        | (v, S _, []) => Some (if negative then - Z.of_N v else Z.of_N v)%Z
        | _ => None
        end
      else None
  end.

(** An unsigned decimal literal: digits, an optional fraction, an optional
    exponent, with at least one digit in the mantissa. *)
Definition unsignedDecimal (s : jsstring) : option Q :=
  let '(ip, n1, r1) := eatDigits 10 s 0%N 0 in
  let '(fp, n2, r2) :=
    match r1 with
    | c :: t => if (c =? 46)%N then eatDigits 10 t 0%N 0 else (0%N, 0, r1)
    | [] => (0%N, 0, r1)
    end in
  match n1 + n2, exponentPart r2 with
  | S _, Some e =>
      let mantissa := (Z.of_N ip * 10 ^ Z.of_nat n2 + Z.of_N fp)%Z in
      Some (Qred (inject_Z mantissa * Qpower (10 # 1) (e - Z.of_nat n2)))
  | _, _ => None
  end.

Definition strDecimalLiteral (s : jsstring) : JSNumber :=
  let '(negative, body) :=
    match s with
    | c :: t => if (c =? 45)%N then (true, t)
                else if (c =? 43)%N then (false, t) else (false, s)
    | [] => (false, s)
    end in
  if startsWith body (js "Infinity") && (List.length body =? 8)
  then Infinity negative
  else
    match unsignedDecimal body with
    | Some q => Fin (if negative then Qred (- q) else q)
    | None => NaN
    end.

Definition Number (s : jsstring) : JSNumber :=
  match trim s with
  | [] => Fin 0
  | c :: d :: t =>
      if (c =? 48)%N && ((d =? 120) || (d =? 88))%N then nonDecimalInteger 16 t
      else if (c =? 48)%N && ((d =? 111) || (d =? 79))%N then nonDecimalInteger 8 t
      else if (c =? 48)%N && ((d =? 98) || (d =? 66))%N then nonDecimalInteger 2 t
      else strDecimalLiteral (c :: d :: t)
  | t => strDecimalLiteral t
  end.

(** ** Component state and the values exchanged with the service *)

(** An object URL is identified by the unique part [URL.createObjectURL]
    puts in it. *)
Definition ObjectURL := nat.

Definition Blob := list N.

Record UploadedImage := {
  data : jsstring;
  mimeType : jsstring;
  name : jsstring }.

(** The [useState] cells of [Home]. *)
Record State := {
  prompt : jsstring;
  generatedVideos : list ObjectURL;
  isLoading : bool;
  loadingMessage : jsstring;
  showErrorModal : bool;
  errorMessage : ReactNode;
  showSettings : bool;
  uploadedImage : option UploadedImage;
  numberOfVideos : JSNumber;
  aspectRatio : jsstring }.

Definition initialState : State := {|
  prompt := [];
  generatedVideos := [];
  isLoading := false;
  loadingMessage := [];
  showErrorModal := false;
  errorMessage := NText [];
  showSettings := false;
  uploadedImage := None;
  numberOfVideos := ofNat 1;
  aspectRatio := js "16:9" |}.

Record Config := {
  cfg_numberOfVideos : JSNumber;
  cfg_aspectRatio : jsstring }.

Record Image := {
  imageBytes : jsstring;
  img_mimeType : jsstring }.

Record Payload := {
  model : jsstring;
  pl_prompt : jsstring;
  config : Config;
  image : option Image }.

(** The operation object of the SDK; optional members are options. *)
Record Video := { uri : option jsstring }.

Record GeneratedVideo := { video : option Video }.

Record GenerateVideosResponse := {
  resp_generatedVideos : option (list GeneratedVideo) }.

Record Operation := {
  opName : jsstring;
  done : option bool;
  response : option GenerateVideosResponse }.

(** An object is truthy, [null] and [undefined] are not. *)
Definition present {A} (o : option A) : bool :=
  match o with Some _ => true | None => false end.

(** [!operation.done] is [negb (isDone operation)]. *)
Definition isDone (operation : Operation) : bool :=
  match done operation with Some true => true | _ => false end.

(** [operation.response?.generatedVideos], when it is a non-empty array. *)
Definition producedVideos (operation : Operation) : option (list GeneratedVideo) :=
  match response operation with
  | Some r =>
      match resp_generatedVideos r with
      | Some (v :: vs) => Some (v :: vs)
      | _ => None
      end
  | None => None
  end.

Record FetchResponse := {
  ok : bool;
  statusText : jsstring }.

(** A thrown value, seen through its [message]; a value without a message
    has the empty one (both are falsy). *)
Record JSError := { message : jsstring }.

Inductive Settled (T : Type) : Type :=
| Resolved (v : T)
| Rejected (e : JSError).

Arguments Resolved {T} v.
Arguments Rejected {T} e.

(** ** Effects

    What a handler does besides computing: calls of state setters, of
    browser functions and of the service.  The last five are awaited. *)

Inductive Cmd : Type :=
| PreventDefault
| SetPrompt (v : jsstring)
| SetGeneratedVideos (v : list ObjectURL)
| SetIsLoading (v : bool)
| SetLoadingMessage (v : jsstring)
| SetShowErrorModal (v : bool)
| SetErrorMessage (v : ReactNode)
| SetShowSettings (v : bool)
| SetUploadedImage (v : option UploadedImage)
| SetNumberOfVideos (v : JSNumber)
| SetAspectRatio (v : jsstring)
| RevokeObjectURL (u : ObjectURL)
| CreateObjectURL (b : Blob)
| ConsoleError (label : jsstring) (e : JSError)
| GenerateVideos (p : Payload)
| SetTimeout (ms : N)
| GetVideosOperation (operation : Operation)
| Fetch (url : jsstring)
| ResponseBlob (r : FetchResponse).

Definition Resp (c : Cmd) : Type :=
  match c with
  | CreateObjectURL _ => ObjectURL
  | GenerateVideos _ => Settled Operation
  | GetVideosOperation _ => Settled Operation
  | Fetch _ => Settled FetchResponse
  | ResponseBlob _ => Settled Blob
  | _ => unit
  end.

(** The commands whose result is awaited: the handler is suspended there. *)
Definition isAwaited (c : Cmd) : bool :=
  match c with
  | GenerateVideos _ | SetTimeout _ | GetVideosOperation _
  | Fetch _ | ResponseBlob _ => true
  | _ => false
  end.

(** The commands that send a request to the network. *)
Definition isNetworkCall (c : Cmd) : bool :=
  match c with
  | GenerateVideos _ | GetVideosOperation _ | Fetch _ => true
  | _ => false
  end.

(** Programs: trees of commands, ending in a value or a thrown error.
    [OutOfFuel] marks a loop whose bound on iterations was too small. *)
Inductive Prog (A : Type) : Type :=
| Ret (a : A)
| Throw (e : JSError)
| OutOfFuel
| Vis (c : Cmd) (k : Resp c -> Prog A).

Arguments Ret {A} a.
Arguments Throw {A} e.
Arguments OutOfFuel {A}.
Arguments Vis {A} c k.

Fixpoint bind {A B} (p : Prog A) (f : A -> Prog B) : Prog B :=
  match p with
  | Ret a => f a
  | Throw e => Throw e
  | OutOfFuel => OutOfFuel
  | Vis c k => Vis c (fun r => bind (k r) f)
  end.

Declare Scope prog_scope.
Delimit Scope prog_scope with prog.
Bind Scope prog_scope with Prog.

Notation "x <- p ;; q" := (bind p (fun x => q))
  (at level 61, p at next level, right associativity) : prog_scope.
Notation "p ;; q" := (bind p (fun _ => q))
  (at level 61, right associativity) : prog_scope.

Open Scope prog_scope.

Definition perform (c : Cmd) : Prog (Resp c) := Vis c (fun r => Ret r).

(** [await] of a promise: its value, or its rejection thrown. *)
Definition settle {T} (r : Settled T) : Prog T :=
  match r with
  | Resolved v => Ret v
  | Rejected e => Throw e
  end.

(** [try p catch (e) h]. *)
Fixpoint tryCatch {A} (p : Prog A) (h : JSError -> Prog A) : Prog A :=
  match p with
  | Ret a => Ret a
  | Throw e => h e
  | OutOfFuel => OutOfFuel
  | Vis c k => Vis c (fun r => tryCatch (k r) h)
  end.

(** [try p finally f]. *)
Fixpoint tryFinally {A} (p : Prog A) (f : Prog unit) : Prog A :=
  match p with
  | Ret a => f ;; Ret a
  | Throw e => f ;; Throw e
  | OutOfFuel => OutOfFuel
  | Vis c k => Vis c (fun r => tryFinally (k r) f)
  end.

Fixpoint forEach {A} (l : list A) (f : A -> Prog unit) : Prog unit :=
  match l with
  | [] => Ret tt
  | x :: l' => f x ;; forEach l' f
  end.

Definition newError (msg : jsstring) : JSError := {| message := msg |}.

(** ** The handlers of [Home] *)

Definition handleClear (st : State) : Prog unit :=
  forEach (generatedVideos st) (fun u => perform (RevokeObjectURL u)) ;;
  perform (SetGeneratedVideos []) ;;
  perform (SetPrompt []) ;;
  perform (SetUploadedImage None) ;;
  perform (SetNumberOfVideos (ofNat 1)) ;;
  perform (SetAspectRatio (js "16:9")).

Definition handleRemoveImage : Prog unit :=
  perform (SetUploadedImage None).

Definition closeErrorModal : Prog unit :=
  perform (SetShowErrorModal false).

(** [onChange] of the number input of the settings dialog. *)
Definition onChangeNumberOfVideos (value : jsstring) : Prog unit :=
  let val := Math_max (ofNat 1) (Math_min (ofNat 4) (Number value)) in
  perform (SetNumberOfVideos val).

Definition aspectRatios : list jsstring :=
  [js "16:9"; js "9:16"; js "1:1"; js "4:3"; js "3:4"].

Definition maxPolls : nat := 60.

(** The [while] loop of [handleSubmit]; it returns [operation] and
    [pollCount] as they are when the loop is left. *)
Fixpoint pollLoop (fuel : nat) (operation : Operation) (pollCount : nat)
  : Prog (Operation * nat) :=
  if negb (isDone operation) && (pollCount <? maxPolls) then
    match fuel with
    | 0 => OutOfFuel
    | S fuel' =>
        perform (SetTimeout 10000) ;;
        operation <- (r <- perform (GetVideosOperation operation) ;; settle r) ;;
        let pollCount := S pollCount in
        perform (SetLoadingMessage
                   (js "Polling for status (" ++ decimal pollCount ++ js "/"
                    ++ decimal maxPolls ++ js ")... Please wait.")) ;;
        pollLoop fuel' operation pollCount
    end
  else Ret (operation, pollCount).

(** The message of the error raised by reading [uri] of a missing [video]. *)
Definition uriOfUndefined : jsstring :=
  js "Cannot read properties of undefined (reading 'uri')".

(** The [for ... of] loop of [handleSubmit] over the generated videos. *)
Fixpoint fetchVideos (API_KEY : option jsstring) (videos : list GeneratedVideo)
    (videoUrls : list ObjectURL) : Prog (list ObjectURL) :=
  match videos with
  | [] => Ret videoUrls
  | videoData :: rest =>
      uri <- match video videoData with
             | Some v => Ret (uri v)
             | None => Throw (newError uriOfUndefined)
             end ;;
      videoResponse <-
        (r <- perform (Fetch (interpolate uri ++ js "&key=" ++ interpolate API_KEY)) ;;
         settle r) ;;
      if negb (ok videoResponse) then
        Throw (newError (js "Failed to download video: " ++ statusText videoResponse))
      else
        blob <- (r <- perform (ResponseBlob videoResponse) ;; settle r) ;;
        url <- perform (CreateObjectURL blob) ;;
        fetchVideos API_KEY rest (videoUrls ++ [url])
  end.

(** The object assigned to [payload]; [Number] of a number is that number. *)
Definition buildPayload (st : State) : Payload := {|
  model := js "veo-2.0-generate-001";
  pl_prompt := prompt st;
  config := {| cfg_numberOfVideos := numberOfVideos st;
               cfg_aspectRatio := aspectRatio st |};
  image := match uploadedImage st with
           | Some img => Some {| imageBytes := data img;
                                 img_mimeType := mimeType img |}
           | None => None
           end |}.

(** The part of the [try] block that follows the polling loop. *)
Definition deliver (API_KEY : option jsstring) (operation : Operation) : Prog unit :=
  if negb (isDone operation) then
    Throw (newError (js "Video generation timed out. Please try again."))
  else
    match producedVideos operation with
    | None =>
        Throw (newError (js "Video generation failed to produce a result. Please check your prompt and settings."))
    | Some videos =>
        perform (SetLoadingMessage (js "Fetching video data...")) ;;
        videoUrls <- fetchVideos API_KEY videos [] ;;
        perform (SetGeneratedVideos videoUrls)
    end.

(** The [try] block of [handleSubmit], from the call of the service on. *)
Definition generate (API_KEY : option jsstring) (payload : Payload) : Prog unit :=
  operation <- (r <- perform (GenerateVideos payload) ;; settle r) ;;
  perform (SetLoadingMessage (js "Generating video... This can take a few minutes.")) ;;
  res <- pollLoop maxPolls operation 0 ;;
  deliver API_KEY (fst res).

(** The [catch] block of [handleSubmit]. *)
Definition classify (payload : option Payload) (rawMessage : jsstring) : ReactNode :=
  let modelInUse :=
    orElse (match payload with Some p => model p | None => [] end)
           (js "the model") in
  if includes rawMessage (js "Requested entity was not found") then
    NText (js "Error: The model '" ++ modelInUse
           ++ js "' was not found. Please check the model name.")
  else parseError rawMessage.

Definition onError (payload : option Payload) (error : JSError) : Prog unit :=
  perform (ConsoleError (js "Error generating video:") error) ;;
  let rawMessage := orElse (message error) (js "An unexpected error occurred.") in
  perform (SetErrorMessage (classify payload rawMessage)) ;;
  perform (SetShowErrorModal true).

(** The [finally] block of [handleSubmit]. *)
Definition onFinally : Prog unit :=
  perform (SetIsLoading false) ;;
  perform (SetLoadingMessage []).

(** [handleSubmit], closed over the state [st] of the render it belongs to.
    [payload] is assigned in the [try] block before anything there can
    throw, so the [catch] block always sees it assigned. *)
Definition handleSubmit (API_KEY : option jsstring) (st : State) : Prog unit :=
  perform PreventDefault ;;
  if negb (truthy (prompt st)) && negb (present (uploadedImage st)) then
    perform (SetErrorMessage
               (NText (js "Please enter a prompt or upload an image to generate a video."))) ;;
    perform (SetShowErrorModal true)
  else
    perform (SetIsLoading true) ;;
    forEach (generatedVideos st) (fun u => perform (RevokeObjectURL u)) ;;
    perform (SetGeneratedVideos []) ;;
    perform (SetLoadingMessage (js "Initializing video generation...")) ;;
    let payload := buildPayload st in
    tryFinally
      (tryCatch (generate API_KEY payload) (onError (Some payload)))
      onFinally.

(** ** Running the handlers

    The machine holds the committed state of the component, the counter of
    the blob URL store and the trace of the commands performed, oldest
    first, each with its result. *)

Inductive Event : Type :=
| Ev (c : Cmd) (r : Resp c).

Definition ev_cmd (e : Event) : Cmd :=
  match e with Ev c _ => c end.

Record Machine := {
  state : State;
  nextURL : ObjectURL;
  trace : list Event }.

(** The service and the network: what each awaited call settles to, given
    everything that happened before it. *)
Record Remote := {
  generateVideos : list Event -> Payload -> Settled Operation;
  getVideosOperation : list Event -> Operation -> Settled Operation;
  fetch : list Event -> jsstring -> Settled FetchResponse;
  blob : list Event -> FetchResponse -> Settled Blob }.

(** The effect of a state setter on the state. *)
Definition applyCmd (c : Cmd) (st : State) : State :=
  match c with
  | SetPrompt v =>
      {| prompt := v; generatedVideos := generatedVideos st;
         isLoading := isLoading st; loadingMessage := loadingMessage st;
         showErrorModal := showErrorModal st; errorMessage := errorMessage st;
         showSettings := showSettings st; uploadedImage := uploadedImage st;
         numberOfVideos := numberOfVideos st; aspectRatio := aspectRatio st |}
  | SetGeneratedVideos v =>
      {| prompt := prompt st; generatedVideos := v;
         isLoading := isLoading st; loadingMessage := loadingMessage st;
         showErrorModal := showErrorModal st; errorMessage := errorMessage st;
         showSettings := showSettings st; uploadedImage := uploadedImage st;
         numberOfVideos := numberOfVideos st; aspectRatio := aspectRatio st |}
  | SetIsLoading v =>
      {| prompt := prompt st; generatedVideos := generatedVideos st;
         isLoading := v; loadingMessage := loadingMessage st;
         showErrorModal := showErrorModal st; errorMessage := errorMessage st;
         showSettings := showSettings st; uploadedImage := uploadedImage st;
         numberOfVideos := numberOfVideos st; aspectRatio := aspectRatio st |}
  | SetLoadingMessage v =>
      {| prompt := prompt st; generatedVideos := generatedVideos st;
         isLoading := isLoading st; loadingMessage := v;
         showErrorModal := showErrorModal st; errorMessage := errorMessage st;
         showSettings := showSettings st; uploadedImage := uploadedImage st;
         numberOfVideos := numberOfVideos st; aspectRatio := aspectRatio st |}
  | SetShowErrorModal v =>
      {| prompt := prompt st; generatedVideos := generatedVideos st;
         isLoading := isLoading st; loadingMessage := loadingMessage st;
         showErrorModal := v; errorMessage := errorMessage st;
         showSettings := showSettings st; uploadedImage := uploadedImage st;
         numberOfVideos := numberOfVideos st; aspectRatio := aspectRatio st |}
  | SetErrorMessage v =>
      {| prompt := prompt st; generatedVideos := generatedVideos st;
         isLoading := isLoading st; loadingMessage := loadingMessage st;
         showErrorModal := showErrorModal st; errorMessage := v;
         showSettings := showSettings st; uploadedImage := uploadedImage st;
         numberOfVideos := numberOfVideos st; aspectRatio := aspectRatio st |}
  | SetShowSettings v =>
      {| prompt := prompt st; generatedVideos := generatedVideos st;
         isLoading := isLoading st; loadingMessage := loadingMessage st;
         showErrorModal := showErrorModal st; errorMessage := errorMessage st;
         showSettings := v; uploadedImage := uploadedImage st;
         numberOfVideos := numberOfVideos st; aspectRatio := aspectRatio st |}
  | SetUploadedImage v =>
      {| prompt := prompt st; generatedVideos := generatedVideos st;
         isLoading := isLoading st; loadingMessage := loadingMessage st;
         showErrorModal := showErrorModal st; errorMessage := errorMessage st;
         showSettings := showSettings st; uploadedImage := v;
         numberOfVideos := numberOfVideos st; aspectRatio := aspectRatio st |}
  | SetNumberOfVideos v =>
      {| prompt := prompt st; generatedVideos := generatedVideos st;
         isLoading := isLoading st; loadingMessage := loadingMessage st;
         showErrorModal := showErrorModal st; errorMessage := errorMessage st;
         showSettings := showSettings st; uploadedImage := uploadedImage st;
         numberOfVideos := v; aspectRatio := aspectRatio st |}
  | SetAspectRatio v =>
      {| prompt := prompt st; generatedVideos := generatedVideos st;
         isLoading := isLoading st; loadingMessage := loadingMessage st;
         showErrorModal := showErrorModal st; errorMessage := errorMessage st;
         showSettings := showSettings st; uploadedImage := uploadedImage st;
         numberOfVideos := numberOfVideos st; aspectRatio := v |}
  | _ => st
  end.

(** The result of a command: the next URL of the store (the store never
    hands out the same URL twice), the answer of the service to an awaited
    call, nothing otherwise. *)
Definition respond (R : Remote) (m : Machine) (c : Cmd) : Resp c :=
  match c return Resp c with
  | CreateObjectURL _ => nextURL m
  | GenerateVideos p => generateVideos R (trace m) p
  | GetVideosOperation operation => getVideosOperation R (trace m) operation
  | Fetch url => fetch R (trace m) url
  | ResponseBlob r => blob R (trace m) r
  | _ => tt
  end.

(** The machine after command [c] returned [r]; an awaited command enters
    the trace when it settles. *)
Definition record (m : Machine) (c : Cmd) (r : Resp c) : Machine := {|
  state := applyCmd c (state m);
  nextURL := match c with
             | CreateObjectURL _ => S (nextURL m)
             | _ => nextURL m
             end;
  trace := trace m ++ [Ev c r] |}.

Inductive Outcome (A : Type) : Type :=
| Returned (a : A)
| Thrown (e : JSError)
| Exhausted.

Arguments Returned {A} a.
Arguments Thrown {A} e.
Arguments Exhausted {A}.

(** A program run to its end, every awaited call answered by [R]. *)
Fixpoint exec {A} (R : Remote) (p : Prog A) (m : Machine) : Outcome A * Machine :=
  match p with
  | Ret a => (Returned a, m)
  | Throw e => (Thrown e, m)
  | OutOfFuel => (Exhausted, m)
  | Vis c k => let r := respond R m c in exec R (k r) (record m c r)
  end.

(** A handler suspended at an awaited command. *)
Inductive Suspended : Type :=
| Awaiting (c : Cmd) (k : Resp c -> Prog unit).

(** A program run up to its next awaited command, or to its end. *)
Fixpoint advance (R : Remote) (p : Prog unit) (m : Machine)
  : Machine * option Suspended :=
  match p with
  | Vis c k =>
      if isAwaited c then (m, Some (Awaiting c k))
      else let r := respond R m c in advance R (k r) (record m c r)
  | _ => (m, None)
  end.

(** ** The page: what the user and the network can make happen

    [Submit] is the submit event of the form (a click on the submit button
    or the Enter key in the text field); [ImageLoaded] is the [onload] of the
    reader started by [handleImageUpload], with the image it stores;
    [ClickAspectRatio i] is a click on the [i]-th ratio button; [Settles i]
    is the awaited call of the [i]-th suspended handler settling.  The
    download button writes no state and is left out. *)

Inductive Input : Type :=
| Submit
| ClickClear
| ChangePrompt (value : jsstring)
| ImageLoaded (img : UploadedImage)
| ClickRemoveImage
| ClickToggleSettings
| ClickCloseSettings
| ChangeNumberOfVideos (value : jsstring)
| ClickAspectRatio (i : nat)
| ClickCloseError
| Settles (i : nat).

Record Page := {
  machine : Machine;
  inflight : list Suspended }.

Definition initialPage : Page := {|
  machine := {| state := initialState; nextURL := 0; trace := [] |};
  inflight := [] |}.

(** The [disabled] attribute of the submit button, the only submit control
    of the form: while it holds the form cannot be submitted. *)
Definition submitDisabled (st : State) : bool := isLoading st.

(** An event handler is started on the committed state, which it keeps
    reading whatever it sets meanwhile, and runs up to its first [await]. *)
Definition dispatch (R : Remote) (handler : State -> Prog unit) (pg : Page) : Page :=
  let '(m, s) := advance R (handler (state (machine pg))) (machine pg) in
  {| machine := m;
     inflight := match s with
                 | Some s => inflight pg ++ [s]
                 | None => inflight pg
                 end |}.

(** The [i]-th suspended handler resumes: its awaited call settles. *)
Definition resume (R : Remote) (i : nat) (pg : Page) : Page :=
  match nth_error (inflight pg) i with
  | Some (Awaiting c k) =>
      let r := respond R (machine pg) c in
      let '(m, s) := advance R (k r) (record (machine pg) c r) in
      {| machine := m;
         inflight := firstn i (inflight pg)
                     ++ match s with Some s => [s] | None => [] end
                     ++ skipn (S i) (inflight pg) |}
  | None => pg
  end.

Definition step (API_KEY : option jsstring) (R : Remote) (pg : Page) (i : Input) : Page :=
  match i with
  | Submit =>
      if submitDisabled (state (machine pg)) then pg
      else dispatch R (handleSubmit API_KEY) pg
  | ClickClear => dispatch R handleClear pg
  | ChangePrompt value => dispatch R (fun _ => perform (SetPrompt value)) pg
  | ImageLoaded img => dispatch R (fun _ => perform (SetUploadedImage (Some img))) pg
  | ClickRemoveImage => dispatch R (fun _ => handleRemoveImage) pg
  | ClickToggleSettings =>
      dispatch R (fun st => perform (SetShowSettings (negb (showSettings st)))) pg
  | ClickCloseSettings => dispatch R (fun _ => perform (SetShowSettings false)) pg
  | ChangeNumberOfVideos value => dispatch R (fun _ => onChangeNumberOfVideos value) pg
  | ClickAspectRatio n =>
      match nth_error aspectRatios n with
      | Some ratio => dispatch R (fun _ => perform (SetAspectRatio ratio)) pg
      | None => pg
      end
  | ClickCloseError => dispatch R (fun _ => closeErrorModal) pg
  | Settles n => resume R n pg
  end.

Definition run (API_KEY : option jsstring) (R : Remote) (inputs : list Input) (pg : Page) : Page :=
  fold_left (step API_KEY R) inputs pg.

(** ** What a trace tells *)

(** The events a program adds to the trace when run to its end. *)
Fixpoint events {A} (R : Remote) (p : Prog A) (m : Machine) : list Event :=
  match p with
  | Vis c k => let r := respond R m c in Ev c r :: events R (k r) (record m c r)
  | _ => []
  end.

Definition networkCalls (tr : list Event) : list Event :=
  filter (fun e => isNetworkCall (ev_cmd e)) tr.

(** The URLs released, in order, one entry per call of [revokeObjectURL]. *)
Definition revoked (tr : list Event) : list ObjectURL :=
  flat_map (fun e => match ev_cmd e with RevokeObjectURL u => [u] | _ => [] end) tr.

(** The URLs installed as the current batch, one entry per installation. *)
Definition installed (tr : list Event) : list ObjectURL :=
  flat_map (fun e => match ev_cmd e with SetGeneratedVideos v => v | _ => [] end) tr.

(** The URLs handed out by [createObjectURL]. *)
Definition created (tr : list Event) : list ObjectURL :=
  flat_map (fun e => match e with
                     | Ev (CreateObjectURL _) u => [u]
                     | _ => []
                     end) tr.

(** Total time spent in [setTimeout] waits, in milliseconds. *)
Definition waited (tr : list Event) : N :=
  fold_right (fun e acc => match ev_cmd e with
                           | SetTimeout ms => (ms + acc)%N
                           | _ => acc
                           end) 0%N tr.

(** What a call of the service answered, when the event is such a call. *)
Definition submitted (e : Event) : option (Settled Operation) :=
  match e with Ev (GenerateVideos _) r => Some r | _ => None end.

Definition polled (e : Event) : option (Settled Operation) :=
  match e with Ev (GetVideosOperation _) r => Some r | _ => None end.

Definition fetched (e : Event) : option (Settled FetchResponse) :=
  match e with Ev (Fetch _) r => Some r | _ => None end.

(** ** The messages of [handleSubmit] *)

Definition validationMessage : jsstring :=
  js "Please enter a prompt or upload an image to generate a video.".

Definition timeoutMessage : jsstring :=
  js "Video generation timed out. Please try again.".

Definition noResultMessage : jsstring :=
  js "Video generation failed to produce a result. Please check your prompt and settings.".

Definition downloadMessage (r : FetchResponse) : jsstring :=
  js "Failed to download video: " ++ statusText r.

Definition notFoundMessage (modelInUse : jsstring) : jsstring :=
  js "Error: The model '" ++ modelInUse
  ++ js "' was not found. Please check the model name.".

Definition pollingMessage (pollCount : nat) : jsstring :=
  js "Polling for status (" ++ decimal pollCount ++ js "/"
  ++ decimal maxPolls ++ js ")... Please wait.".

Arguments js : simpl never.
Arguments decimal : simpl never.

(** A message that carries the two quota markers and the not-found one. *)
Definition quotaAndNotFound : jsstring :=
  js "429 RESOURCE_EXHAUSTED: Requested entity was not found".

Definition emptyMachine : Machine :=
  {| state := initialState; nextURL := 0; trace := [] |}.

(** A service on which every call fails with the given message. *)
Definition rejecting (msg : jsstring) : Remote := {|
  generateVideos := fun _ _ => Rejected (newError msg);
  getVideosOperation := fun _ _ => Rejected (newError msg);
  fetch := fun _ _ => Rejected (newError msg);
  blob := fun _ _ => Rejected (newError msg) |}.

Definition withPrompt (text : jsstring) : State :=
  applyCmd (SetPrompt text) initialState.

(** ** The number of videos *)

(** The payloads sent to the service, in order. *)
Definition requests (tr : list Event) : list Payload :=
  flat_map (fun e => match ev_cmd e with GenerateVideos p => [p] | _ => [] end) tr.

(** What [onChangeNumberOfVideos] stores for the text [value]. *)
Definition clamp (value : jsstring) : JSNumber :=
  Math_max (ofNat 1) (Math_min (ofNat 4) (Number value)).

(** A number of videos within the range of the input, or [NaN]. *)
Definition InRange (n : JSNumber) : Prop :=
  n = NaN \/ exists q, n = Fin q /\ (1 <= q)%Q /\ (q <= 4)%Q.

(** ** A run of [handleSubmit] that passes validation *)

(** The machine after the given events, in order. *)
Definition replay (evs : list Event) (m : Machine) : Machine :=
  fold_left (fun m e => match e with Ev c r => record m c r end) evs m.

(** The answers of the service to the submission and to the polls. *)
Definition reports (tr : list Event) : list (Settled Operation) :=
  flat_map (fun e => match submitted e, polled e with
                     | Some r, _ => [r]
                     | None, Some r => [r]
                     | None, None => []
                     end) tr.

(** The answers of the network to the retrievals. *)
Definition downloads (tr : list Event) : list (Settled FetchResponse) :=
  flat_map (fun e => match fetched e with Some r => [r] | None => [] end) tr.

Definition canSubmit (st : State) : bool :=
  truthy (prompt st) || present (uploadedImage st).

Definition releases (batch : list ObjectURL) : list Event :=
  map (fun u => Ev (RevokeObjectURL u) tt) batch.

(** What [handleSubmit] does before it calls the service. *)
Definition startEvents (st : State) : list Event :=
  [Ev PreventDefault tt; Ev (SetIsLoading true) tt]
  ++ releases (generatedVideos st)
  ++ [Ev (SetGeneratedVideos []) tt;
      Ev (SetLoadingMessage (js "Initializing video generation...")) tt].

(** What the [catch] block does. *)
Definition errorEvents (payload : option Payload) (e : JSError) : list Event :=
  [Ev (ConsoleError (js "Error generating video:") e) tt;
   Ev (SetErrorMessage
         (classify payload (orElse (message e) (js "An unexpected error occurred."))))
      tt;
   Ev (SetShowErrorModal true) tt].

(** What the [finally] block does. *)
Definition finallyEvents : list Event :=
  [Ev (SetIsLoading false) tt; Ev (SetLoadingMessage []) tt].

(** What follows the [try] block, by its outcome. *)
Definition closing (payload : Payload) (o : Outcome unit) : list Event :=
  match o with
  | Returned _ => finallyEvents
  | Thrown e => errorEvents (Some payload) e ++ finallyEvents
  | Exhausted => []
  end.

(** The [try] block with its [catch] and [finally]. *)
Definition guarded (API_KEY : option jsstring) (payload : Payload) : Prog unit :=
  tryFinally (tryCatch (generate API_KEY payload) (onError (Some payload))) onFinally.

(** Programs that perform only commands of a given class. *)
Fixpoint Only {A} (P : Cmd -> bool) (p : Prog A) : Prop :=
  match p with
  | Vis c k => P c = true /\ forall r, Only P (k r)
  | _ => True
  end.

(** Programs in which no loop runs out of its bound. *)
Fixpoint Total {A} (p : Prog A) : Prop :=
  match p with
  | OutOfFuel => False
  | Vis c k => forall r, Total (k r)
  | _ => True
  end.

Definition pollingCmd (c : Cmd) : bool :=
  match c with
  | SetTimeout _ | GetVideosOperation _ | SetLoadingMessage _ => true
  | _ => false
  end.

(** One round of the loop that got an answer: the wait, the poll with the
    handle held, the progress message with the incremented counter. *)
Definition round (pollCount : nat) (operation operation' : Operation) : list Event :=
  [Ev (SetTimeout 10000) tt;
   Ev (GetVideosOperation operation) (Resolved operation');
   Ev (SetLoadingMessage (pollingMessage (S pollCount))) tt].

(** Successive rounds: each poll is made with the handle the previous one
    returned. *)
Fixpoint rounds (pollCount : nat) (operation : Operation) (answers : list Operation)
  : list Event :=
  match answers with
  | [] => []
  | operation' :: rest =>
      round pollCount operation operation' ++ rounds (S pollCount) operation' rest
  end.

Definition undone (r : Settled Operation) : Prop :=
  exists o, r = Resolved o /\ isDone o = false.

(** *** The download loop *)

Definition fetchingCmd (c : Cmd) : bool :=
  match c with
  | Fetch _ | ResponseBlob _ | CreateObjectURL _ => true
  | _ => false
  end.

(** The address a video is retrieved from. *)
Definition videoAddress (API_KEY : option jsstring) (vd : Video) : jsstring :=
  interpolate (uri vd) ++ js "&key=" ++ interpolate API_KEY.

(** *** The [try] block as a whole *)

(** Commands that leave every state cell but [loadingMessage] as it is. *)
Definition quietCmd (c : Cmd) : bool :=
  match c with
  | GenerateVideos _ | SetLoadingMessage _ | SetTimeout _
  | GetVideosOperation _ | Fetch _ | ResponseBlob _ | CreateObjectURL _ => true
  | _ => false
  end.

Definition quiet (evs : list Event) : Prop :=
  Forall (fun e => quietCmd (ev_cmd e) = true) evs.

Definition generatingMessage : jsstring :=
  js "Generating video... This can take a few minutes.".

Definition fetchingMessage : jsstring := js "Fetching video data...".

Definition notDone (o : Operation) : Prop := isDone o = false.

Definition succeeded (r : FetchResponse) : Prop := ok r = true.

(** The ways the [try] block can end, with what its events tell: [next] is
    the next URL of the store when the block starts. *)
Inductive TryResult (payload : Payload) (next : ObjectURL) (evs : list Event)
  : Outcome unit -> Prop :=
| Rejects e statuses :
    reports evs = map Resolved statuses ++ [Rejected e] ->
    Forall notDone statuses ->
    downloads evs = [] -> created evs = [] -> quiet evs ->
    TryResult payload next evs (Thrown e)
| TimesOut op0 answers :
    evs = [Ev (GenerateVideos payload) (Resolved op0);
           Ev (SetLoadingMessage generatingMessage) tt]
          ++ rounds 0 op0 answers ->
    List.length answers = maxPolls ->
    Forall notDone (op0 :: answers) ->
    TryResult payload next evs (Thrown (newError timeoutMessage))
| NoResult statuses final :
    reports evs = map Resolved (statuses ++ [final]) ->
    Forall notDone statuses ->
    isDone final = true -> producedVideos final = None ->
    downloads evs = [] -> created evs = [] -> quiet evs ->
    TryResult payload next evs (Thrown (newError noResultMessage))
| DownloadFails e statuses final videos answers k :
    reports evs = map Resolved (statuses ++ [final]) ->
    Forall notDone statuses ->
    isDone final = true -> producedVideos final = Some videos ->
    Forall succeeded answers ->
    k < List.length videos -> created evs = seq next k -> quiet evs ->
    (downloads evs = map Resolved answers
     \/ downloads evs = map Resolved answers ++ [Rejected e]
     \/ exists r, downloads evs = map Resolved answers ++ [Resolved r]
                  /\ ok r = false /\ e = newError (downloadMessage r)) ->
    TryResult payload next evs (Thrown e)
| Succeeds statuses final videos answers evs0 :
    reports evs = map Resolved (statuses ++ [final]) ->
    Forall notDone statuses ->
    isDone final = true -> producedVideos final = Some videos ->
    downloads evs = map Resolved answers ->
    Forall succeeded answers ->
    List.length answers = List.length videos ->
    created evs = seq next (List.length videos) ->
    evs = evs0 ++ [Ev (SetGeneratedVideos (seq next (List.length videos))) tt] ->
    quiet evs0 ->
    TryResult payload next evs (Returned tt).

(** *** The run as a whole *)

(** The state after a failed run started in state [st]. *)
Definition afterFailure (st : State) (shown : ReactNode) : State := {|
  prompt := prompt st; generatedVideos := [];
  isLoading := false; loadingMessage := [];
  showErrorModal := true; errorMessage := shown;
  showSettings := showSettings st; uploadedImage := uploadedImage st;
  numberOfVideos := numberOfVideos st; aspectRatio := aspectRatio st |}.

(** The state after a successful run started in state [st]. *)
Definition afterSuccess (st : State) (urls : list ObjectURL) : State := {|
  prompt := prompt st; generatedVideos := urls;
  isLoading := false; loadingMessage := [];
  showErrorModal := showErrorModal st; errorMessage := errorMessage st;
  showSettings := showSettings st; uploadedImage := uploadedImage st;
  numberOfVideos := numberOfVideos st; aspectRatio := aspectRatio st |}.

(** What the user is shown for a thrown error. *)
Definition shownFor (payload : Payload) (e : JSError) : ReactNode :=
  classify (Some payload) (orElse (message e) (js "An unexpected error occurred.")).

(** ** The page: at most one run in flight, and the ledger of URLs *)

(** A body of the [try] block under its [catch] and [finally]. *)
Definition guard (payload : Payload) (body : Prog unit) : Prog unit :=
  tryFinally (tryCatch body (onError (Some payload))) onFinally.

(** Commands of the [try] block that touch neither the batch nor the store. *)
Definition calmCmd (c : Cmd) : bool :=
  match c with
  | GenerateVideos _ | SetLoadingMessage _ | SetTimeout _
  | GetVideosOperation _ | Fetch _ | ResponseBlob _ => true
  | _ => false
  end.

(** What is left of the [try] block of a run that has created the URLs
    [acc] so far: it releases nothing, it may create more URLs, and the only
    batch it may install is the list of the URLs it created, as its last
    command. *)
Inductive Pending : list ObjectURL -> Prog unit -> Prop :=
| pending_ret acc : Pending acc (Ret tt)
| pending_throw acc e : Pending acc (Throw e)
| pending_calm acc c k :
    calmCmd c = true -> (forall r, Pending acc (k r)) -> Pending acc (Vis c k)
| pending_create acc b k :
    (forall u : ObjectURL, Pending (acc ++ [u]) (k u)) ->
    Pending acc (Vis (CreateObjectURL b) k)
| pending_install acc (k : unit -> Prog unit) :
    k tt = Ret tt -> Pending acc (Vis (SetGeneratedVideos acc) k).

(** The [try] block is suspended at once on the call of the service; what
    follows the answer is pending with no URL created. *)
Definition afterSubmission (API_KEY : option jsstring) (r : Settled Operation)
  : Prog unit :=
  operation <- settle r ;;
  perform (SetLoadingMessage (js "Generating video... This can take a few minutes.")) ;;
  res <- pollLoop maxPolls operation 0 ;;
  deliver API_KEY (fst res).

(** The ledger of a machine: what its trace and state say about URLs. *)
Record Ledger (m : Machine) : Prop := {
  released_once : NoDup (revoked (trace m));
  released_were_installed : incl (revoked (trace m)) (installed (trace m));
  installed_once : NoDup (installed (trace m));
  installed_were_created : forall u, In u (installed (trace m)) -> u < nextURL m;
  current_batch : forall u, In u (generatedVideos (state m)) <->
                            In u (installed (trace m)) /\ ~ In u (revoked (trace m));
  current_distinct : NoDup (generatedVideos (state m)) }.

(** The URLs a run in flight has created and not yet installed. *)
Definition Owned (acc : list ObjectURL) (m : Machine) : Prop :=
  NoDup acc /\ forall u, In u acc -> u < nextURL m /\ ~ In u (installed (trace m)).

(** A suspended handler that is a run of [handleSubmit] in flight. *)
Definition Running (s : Suspended) (acc : list ObjectURL) : Prop :=
  match s with
  | Awaiting c k =>
      isAwaited c = true
      /\ exists payload body,
           k = (fun r => guard payload (body r)) /\ forall r, Pending acc (body r)
  end.

Definition PageInv (pg : Page) : Prop :=
  Ledger (machine pg)
  /\ match inflight pg with
     | [] => isLoading (state (machine pg)) = false
     | [s] =>
         isLoading (state (machine pg)) = true
         /\ generatedVideos (state (machine pg)) = []
         /\ exists acc, Running s acc /\ Owned acc (machine pg)
     | _ => False
     end.

(** Commands that change neither the ledger nor the loading flag. *)
Definition neutralCmd (c : Cmd) : bool :=
  match c with
  | RevokeObjectURL _ | SetGeneratedVideos _ | CreateObjectURL _ | SetIsLoading _ => false
  | _ => true
  end.

(** Commands of the handlers that only write cells other than the batch and
    the loading flag. *)
Definition plainCmd (c : Cmd) : bool := neutralCmd c && negb (isAwaited c).

(** What [handleClear] does. *)
Definition clearEvents (st : State) : list Event :=
  releases (generatedVideos st)
  ++ [Ev (SetGeneratedVideos []) tt; Ev (SetPrompt []) tt;
      Ev (SetUploadedImage None) tt; Ev (SetNumberOfVideos (ofNat 1)) tt;
      Ev (SetAspectRatio (js "16:9")) tt].

(** ** Concrete runs *)

Definition catMachine : Machine :=
  {| state := withPrompt (js "a cat"); nextURL := 0; trace := [] |}.

Definition pendingOperation : Operation :=
  {| opName := js "operations/1"; done := None; response := None |}.

Definition finishedOperation (videos : list GeneratedVideo) : Operation :=
  {| opName := js "operations/1"; done := Some true;
     response := Some {| resp_generatedVideos := Some videos |} |}.

Definition videoAt (address : jsstring) : GeneratedVideo :=
  {| video := Some {| uri := Some address |} |}.

Definition twoVideos : list GeneratedVideo :=
  [videoAt (js "https://videos.example/1?alt=media");
   videoAt (js "https://videos.example/2?alt=media")].

Definition okResponse : FetchResponse := {| ok := true; statusText := js "OK" |}.

Definition forbidden : FetchResponse := {| ok := false; statusText := js "Forbidden" |}.

(** A service whose job never completes. *)
Definition neverDone : Remote := {|
  generateVideos := fun _ _ => Resolved pendingOperation;
  getVideosOperation := fun _ _ => Resolved pendingOperation;
  fetch := fun _ _ => Rejected (newError []);
  blob := fun _ _ => Rejected (newError []) |}.

(** A service whose job completes at once without any video. *)
Definition emptyResult : Remote := {|
  generateVideos := fun _ _ => Resolved (finishedOperation []);
  getVideosOperation := fun _ _ => Resolved (finishedOperation []);
  fetch := fun _ _ => Rejected (newError []);
  blob := fun _ _ => Rejected (newError []) |}.

(** A service with two videos, both retrievable. *)
Definition serving : Remote := {|
  generateVideos := fun _ _ => Resolved (finishedOperation twoVideos);
  getVideosOperation := fun _ _ => Resolved (finishedOperation twoVideos);
  fetch := fun _ _ => Resolved okResponse;
  blob := fun _ _ => Resolved [1%N; 2%N; 3%N] |}.

(** A service with two videos, the second of which cannot be retrieved. *)
Definition secondFails : Remote := {|
  generateVideos := fun _ _ => Resolved (finishedOperation twoVideos);
  getVideosOperation := fun _ _ => Resolved (finishedOperation twoVideos);
  fetch := fun h _ => match downloads h with
                      | [] => Resolved okResponse
                      | _ :: _ => Resolved forbidden
                      end;
  blob := fun _ _ => Resolved [1%N; 2%N; 3%N] |}.

Definition busyPage : Page :=
  run None neverDone [ChangePrompt (js "a cat"); Submit] initialPage.

(** The page after a run that installed two URLs. *)
Definition servedInputs : list Input :=
  [ChangePrompt (js "a cat"); Submit;
   Settles 0; Settles 0; Settles 0; Settles 0; Settles 0].

(** ** The image upload, the download links and the views *)

Definition comma : N := 44.

(** [String.prototype.split] with a separator of one code unit: the pieces
    between the occurrences of the separator, at least one piece. *)
Fixpoint split (sep : N) (s : jsstring) : list jsstring :=
  match s with
  | [] => [[]]
  | c :: s' =>
      if (c =? sep)%N then [] :: split sep s'
      else match split sep s' with
           | piece :: pieces => (c :: piece) :: pieces
           | [] => [[c]]
           end
  end.

(** [dataUrl.split(',')[1]]; [None] is [undefined]. *)
Definition base64Data (dataUrl : jsstring) : option jsstring :=
  nth_error (split comma dataUrl) 1.

(** The file chosen in the file input, as [handleImageUpload] reads it. *)
Record File := {
  file_type : jsstring;
  file_name : jsstring }.

(** [reader.onload] of [handleImageUpload]: the image it stores for the data
    URL the reader produced.  Without a comma in the URL the field [data]
    is [undefined], which [UploadedImage] does not hold: [None]. *)
Definition onload (file : File) (dataUrl : jsstring) : option UploadedImage :=
  match base64Data dataUrl with
  | Some base64 => Some {| data := base64; mimeType := file_type file;
                           name := file_name file |}
  | None => None
  end.

(** [handleImageUpload], as the inputs of the page it leads to: none
    without a file; else the reader is started on the first file and its
    [onload], called with the data URL it produced, is the input
    [ImageLoaded].  [None] where the image stored has no [data]. *)
Definition handleImageUpload (files : list File) (dataUrl : jsstring)
  : option (list Input) :=
  match files with
  | [] => Some []
  | file :: _ =>
      match onload file dataUrl with
      | Some img => Some [ImageLoaded img]
      | None => None
      end
  end.

(** The [src] of the preview of the uploaded image. *)
Definition previewSrc (img : UploadedImage) : jsstring :=
  js "data:" ++ mimeType img ++ js ";base64," ++ data img.

(** The link [handleDownload] makes and clicks. *)
Record Anchor := {
  href : ObjectURL;
  download : jsstring }.

Definition handleDownload (src : ObjectURL) (index : nat) : Anchor := {|
  href := src;
  download := js "veo-studio-" ++ decimal (index + 1) ++ js ".mp4" |}.

(** [array.map((src, index) => ...)]. *)
Fixpoint mapIndexed {A B} (f : A -> nat -> B) (l : list A) (index : nat) : list B :=
  match l with
  | [] => []
  | x :: l' => f x index :: mapIndexed f l' (S index)
  end.

(** The links behind the download buttons of the grid of videos. *)
Definition downloadLinks (st : State) : list Anchor :=
  mapIndexed handleDownload (generatedVideos st) 0.

(** The main panel: the spinner while loading, else the grid of videos when
    there are some, else the placeholder. *)
Inductive Panel : Type :=
| Spinner (message : jsstring)
| Grid (videos : list ObjectURL) (links : list Anchor)
| Placeholder.

Definition mainPanel (st : State) : Panel :=
  if isLoading st then Spinner (loadingMessage st)
  else if 0 <? List.length (generatedVideos st)
       then Grid (generatedVideos st) (downloadLinks st)
       else Placeholder.

(** [current === value] on strings. *)
Fixpoint strictEquals (a b : jsstring) : bool :=
  match a, b with
  | [], [] => true
  | x :: a', y :: b' => (x =? y)%N && strictEquals a' b'
  | _, _ => false
  end.

(** A [SettingButton]: its value and whether it is drawn as the current
    one. *)
Record Button := {
  value : jsstring;
  isCurrent : bool }.

Definition SettingButton (current value : jsstring) : Button := {|
  value := value;
  isCurrent := strictEquals current value |}.

(** The buttons of the aspect ratio in the settings dialog. *)
Definition ratioButtons (st : State) : list Button :=
  map (fun ratio => SettingButton (aspectRatio st) ratio) aspectRatios.

(** A text without a comma. *)
Definition commaFree (s : jsstring) : Prop :=
  Forall (fun c => (c =? comma)%N = false) s.

(** A PNG file and the data URL of its content. *)
Definition pngFile : File :=
  {| file_type := js "image/png"; file_name := js "cat.png" |}.

Definition pngDataUrl : jsstring := js "data:image/png;base64,iVBORw0KGgo=".

(** ** Observations and exact traces of the runs *)

(** The characters of the class [\s], all of them. *)
Definition allWhiteSpace (s : jsstring) : Prop :=
  Forall (fun c => isWhiteSpace c = true) s.

(** A text the capture [(.*?)] can hold: no quote, no line terminator. *)
Definition quoteFree (s : jsstring) : Prop :=
  Forall (fun c => (c =? dquote)%N = false /\ isLineTerminator c = false) s.

(** The commands of the [try] block that follow the call of the service. *)
Definition followUpCmd (c : Cmd) : bool :=
  match c with
  | SetLoadingMessage _ | SetTimeout _ | GetVideosOperation _
  | Fetch _ | ResponseBlob _ | CreateObjectURL _ | SetGeneratedVideos _ => true
  | _ => false
  end.

(** The commands of the [try] block that follow the polling loop. *)
Definition deliveryCmd (c : Cmd) : bool :=
  match c with
  | SetLoadingMessage _ | Fetch _ | ResponseBlob _ | CreateObjectURL _
  | SetGeneratedVideos _ => true
  | _ => false
  end.

(** The handles the status was asked for, one entry per poll, in order. *)
Definition polls (tr : list Event) : list Operation :=
  flat_map (fun e => match ev_cmd e with GetVideosOperation o => [o] | _ => [] end) tr.

(** The errors logged on the console. *)
Definition logged (tr : list Event) : list JSError :=
  flat_map (fun e => match ev_cmd e with ConsoleError _ err => [err] | _ => [] end) tr.

(** What the dialog shows for an error raised in a run of [handleSubmit]. *)
Definition dialogFor (e : JSError) : ReactNode :=
  if includes (message e) (js "Requested entity was not found")
  then NText (notFoundMessage (js "veo-2.0-generate-001"))
  else if truthy (message e) then parseError (message e)
       else NText (js "An unexpected error occurred.").

(** A round of the loop whose poll was rejected: the wait and the poll. *)
Definition brokenRound (operation : Operation) (e : JSError) : list Event :=
  [Ev (SetTimeout 10000) tt; Ev (GetVideosOperation operation) (Rejected e)].

(** A video retrieved: its entry in the result, the response to the request
    and the body read from it. *)
Record Retrieved := {
  got_video : Video;
  got_response : FetchResponse;
  got_bytes : Blob }.

(** One turn of the download loop that went through: the request, the body,
    the URL made for it. *)
Definition retrieval (API_KEY : option jsstring) (url : ObjectURL) (x : Retrieved)
  : list Event :=
  [Ev (Fetch (videoAddress API_KEY (got_video x))) (Resolved (got_response x));
   Ev (ResponseBlob (got_response x)) (Resolved (got_bytes x));
   Ev (CreateObjectURL (got_bytes x)) url].

(** Successive turns: the store hands out consecutive URLs from [next] on. *)
Fixpoint retrievals (API_KEY : option jsstring) (next : ObjectURL)
    (xs : list Retrieved) : list Event :=
  match xs with
  | [] => []
  | x :: xs' => retrieval API_KEY next x ++ retrievals API_KEY (S next) xs'
  end.

(** The turn of the download loop that fails on [videoData]: what it adds to
    the trace and the error it throws. *)
Inductive FailedRetrieval (API_KEY : option jsstring) (videoData : GeneratedVideo)
  : list Event -> JSError -> Prop :=
| no_video :
    video videoData = None ->
    FailedRetrieval API_KEY videoData [] (newError uriOfUndefined)
| fetch_rejected vd e :
    video videoData = Some vd ->
    FailedRetrieval API_KEY videoData
      [Ev (Fetch (videoAddress API_KEY vd)) (Rejected e)] e
| fetch_not_ok vd r :
    video videoData = Some vd -> ok r = false ->
    FailedRetrieval API_KEY videoData
      [Ev (Fetch (videoAddress API_KEY vd)) (Resolved r)]
      (newError (downloadMessage r))
| body_rejected vd r e :
    video videoData = Some vd -> ok r = true ->
    FailedRetrieval API_KEY videoData
      [Ev (Fetch (videoAddress API_KEY vd)) (Resolved r);
       Ev (ResponseBlob r) (Rejected e)] e.

(** The [try] block up to the end of the polling loop, when the submission
    was accepted with the handle [op0] and the polls were answered by
    [answers]. *)
Definition pollingPhase (payload : Payload) (op0 : Operation)
    (answers : list Operation) : list Event :=
  [Ev (GenerateVideos payload) (Resolved op0);
   Ev (SetLoadingMessage generatingMessage) tt]
  ++ rounds 0 op0 answers.

(** The exact trace of the [try] block, by the way it ends; [next] is the
    next URL of the store when the block starts. *)
Inductive TryTrace (API_KEY : option jsstring) (payload : Payload) (next : ObjectURL)
  : list Event -> Outcome unit -> Prop :=
| submission_rejected e :
    TryTrace API_KEY payload next
      [Ev (GenerateVideos payload) (Rejected e)] (Thrown e)
| poll_rejected op0 answers e :
    Forall notDone (op0 :: answers) ->
    List.length answers < maxPolls ->
    TryTrace API_KEY payload next
      (pollingPhase payload op0 answers ++ brokenRound (last answers op0) e)
      (Thrown e)
| timed_out op0 answers :
    Forall notDone (op0 :: answers) ->
    List.length answers = maxPolls ->
    TryTrace API_KEY payload next
      (pollingPhase payload op0 answers) (Thrown (newError timeoutMessage))
| no_result op0 answers :
    Forall notDone (removelast (op0 :: answers)) ->
    List.length answers <= maxPolls ->
    isDone (last answers op0) = true ->
    producedVideos (last answers op0) = None ->
    TryTrace API_KEY payload next
      (pollingPhase payload op0 answers) (Thrown (newError noResultMessage))
| download_failed op0 answers videos xs videoData tail e :
    Forall notDone (removelast (op0 :: answers)) ->
    List.length answers <= maxPolls ->
    isDone (last answers op0) = true ->
    producedVideos (last answers op0) = Some videos ->
    Forall (fun x => ok (got_response x) = true) xs ->
    firstn (List.length xs) (map video videos)
    = map (fun x => Some (got_video x)) xs ->
    nth_error videos (List.length xs) = Some videoData ->
    FailedRetrieval API_KEY videoData tail e ->
    TryTrace API_KEY payload next
      (pollingPhase payload op0 answers
       ++ [Ev (SetLoadingMessage fetchingMessage) tt]
       ++ retrievals API_KEY next xs ++ tail)
      (Thrown e)
| delivered op0 answers videos xs :
    Forall notDone (removelast (op0 :: answers)) ->
    List.length answers <= maxPolls ->
    isDone (last answers op0) = true ->
    producedVideos (last answers op0) = Some videos ->
    Forall (fun x => ok (got_response x) = true) xs ->
    map video videos = map (fun x => Some (got_video x)) xs ->
    TryTrace API_KEY payload next
      (pollingPhase payload op0 answers
       ++ [Ev (SetLoadingMessage fetchingMessage) tt]
       ++ retrievals API_KEY next xs
       ++ [Ev (SetGeneratedVideos (seq next (List.length xs))) tt])
      (Returned tt).

(** A service with two videos whose job completes at the second poll. *)
Definition doneAtSecondPoll : Remote := {|
  generateVideos := fun _ _ => Resolved pendingOperation;
  getVideosOperation := fun h _ => match reports h with
                                   | [_] => Resolved pendingOperation
                                   | _ => Resolved (finishedOperation twoVideos)
                                   end;
  fetch := fun _ _ => Resolved okResponse;
  blob := fun _ _ => Resolved [1%N; 2%N; 3%N] |}.

(** A service that accepts the submission and rejects the second poll. *)
Definition secondPollFails : Remote := {|
  generateVideos := fun _ _ => Resolved pendingOperation;
  getVideosOperation := fun h _ => match reports h with
                                   | [_] => Resolved pendingOperation
                                   | _ => Rejected (newError (js "503 Service Unavailable"))
                                   end;
  fetch := fun _ _ => Resolved okResponse;
  blob := fun _ _ => Resolved [1%N; 2%N; 3%N] |}.

(** The cells the user edits: the prompt, the image, the two settings and
    the flag of the settings dialog. *)
Record Form := {
  form_prompt : jsstring;
  form_image : option UploadedImage;
  form_numberOfVideos : JSNumber;
  form_aspectRatio : jsstring;
  form_showSettings : bool }.

Definition formOf (st : State) : Form := {|
  form_prompt := prompt st;
  form_image := uploadedImage st;
  form_numberOfVideos := numberOfVideos st;
  form_aspectRatio := aspectRatio st;
  form_showSettings := showSettings st |}.

(** The state [handleClear] leaves. *)
Definition cleared (st : State) : State := {|
  prompt := []; generatedVideos := [];
  isLoading := isLoading st; loadingMessage := loadingMessage st;
  showErrorModal := showErrorModal st; errorMessage := errorMessage st;
  showSettings := showSettings st; uploadedImage := None;
  numberOfVideos := ofNat 1; aspectRatio := js "16:9" |}.



(** Inputs that edit the form, open or close a dialog or clear the page,
    but neither submit nor settle a call. *)
Definition editing (i : Input) : bool :=
  match i with
  | Submit | Settles _ => false
  | _ => true
  end.

(** * Properties *)

(** ** General facts on runs *)

Lemma exec_bind {A B} R (p : Prog A) (f : A -> Prog B) m :
  exec R (bind p f) m =
  match exec R p m with
  | (Returned a, m') => exec R (f a) m'
  | (Thrown e, m') => (Thrown e, m')
  | (Exhausted, m') => (Exhausted, m')
  end.
Proof.
  revert m; induction p as [a | e | | c k IH]; intros m; simpl; auto.
Qed.

Lemma exec_tryCatch {A} R (p : Prog A) h m :
  exec R (tryCatch p h) m =
  match exec R p m with
  | (Thrown e, m') => exec R (h e) m'
  | other => other
  end.
Proof.
  revert m; induction p as [a | e | | c k IH]; intros m; simpl; auto.
Qed.

Lemma exec_tryFinally {A} R (p : Prog A) f m :
  exec R (tryFinally p f) m =
  match exec R p m with
  | (Returned a, m') => exec R (f ;; Ret a) m'
  | (Thrown e, m') => exec R (f ;; Throw e) m'
  | (Exhausted, m') => (Exhausted, m')
  end.
Proof.
  revert m; induction p as [a | e | | c k IH]; intros m; simpl; auto.
Qed.

Lemma exec_trace {A} R (p : Prog A) m :
  trace (snd (exec R p m)) = trace m ++ events R p m.
Proof.
  revert m; induction p as [a | e | | c k IH]; intros m; simpl;
    try (now rewrite app_nil_r).
  rewrite IH. simpl. now rewrite <- app_assoc.
Qed.

Lemma events_bind {A B} R (p : Prog A) (f : A -> Prog B) m :
  events R (bind p f) m =
  events R p m ++
  match exec R p m with
  | (Returned a, m') => events R (f a) m'
  | _ => []
  end.
Proof.
  revert m; induction p as [a | e | | c k IH]; intros m; simpl; auto.
  now rewrite IH.
Qed.

Lemma events_tryCatch {A} R (p : Prog A) h m :
  events R (tryCatch p h) m =
  events R p m ++
  match exec R p m with
  | (Thrown e, m') => events R (h e) m'
  | _ => []
  end.
Proof.
  revert m; induction p as [a | e | | c k IH]; intros m; simpl; auto.
  now rewrite IH.
Qed.

Lemma events_tryFinally {A} R (p : Prog A) f m :
  events R (tryFinally p f) m =
  events R p m ++
  match exec R p m with
  | (Returned a, m') => events R f m'
  | (Thrown e, m') => events R f m'
  | (Exhausted, _) => []
  end.
Proof.
  revert m; induction p as [a | e | | c k IH]; intros m; simpl.
  - rewrite events_bind. destruct (exec R f m) as [[u | e | ] m']; simpl;
      now rewrite app_nil_r.
  - rewrite events_bind. destruct (exec R f m) as [[u | e' | ] m']; simpl;
      now rewrite app_nil_r.
  - reflexivity.
  - now rewrite IH.
Qed.

(** ** Submitting without a prompt and without an image *)

Lemma handleSubmit_invalid API_KEY st :
  prompt st = [] -> uploadedImage st = None ->
  handleSubmit API_KEY st =
  (perform PreventDefault ;;
   perform (SetErrorMessage (NText validationMessage)) ;;
   perform (SetShowErrorModal true)).
Proof.
  intros Hp Hi. unfold handleSubmit. rewrite Hp, Hi. reflexivity.
Qed.

(** C7: a submission with an empty prompt and no image ends in the
    validation error: the handler shows the validation message and returns,
    it performs exactly three commands, none of them a network call, and it
    is never suspended on an awaited call. *)
Theorem C7_validation_before_network :
  forall API_KEY R st m,
    prompt st = [] -> uploadedImage st = None ->
    let p := handleSubmit API_KEY st in
    fst (exec R p m) = Returned tt
    /\ events R p m =
       [Ev PreventDefault tt;
        Ev (SetErrorMessage (NText validationMessage)) tt;
        Ev (SetShowErrorModal true) tt]
    /\ networkCalls (events R p m) = []
    /\ snd (advance R p m) = None
    /\ errorMessage (state (snd (exec R p m))) = NText validationMessage
    /\ showErrorModal (state (snd (exec R p m))) = true.
Proof.
  intros K R st m Hp Hi p. subst p.
  rewrite (handleSubmit_invalid K st Hp Hi).
  repeat split; reflexivity.
Qed.

Lemma C7_validation_witness :
  let p := handleSubmit None initialState in
  fst (exec neverDone p emptyMachine) = Returned tt
  /\ events neverDone p emptyMachine =
     [Ev PreventDefault tt;
      Ev (SetErrorMessage (NText validationMessage)) tt;
      Ev (SetShowErrorModal true) tt]
  /\ networkCalls (events neverDone p emptyMachine) = []
  /\ snd (advance neverDone p emptyMachine) = None
  /\ errorMessage (state (snd (exec neverDone p emptyMachine))) = NText validationMessage
  /\ showErrorModal (state (snd (exec neverDone p emptyMachine))) = true.
Proof.
  apply (C7_validation_before_network None neverDone initialState emptyMachine);
    reflexivity.
Defined.

(** C10: when validation fails, the state after the handler is the state
    before it with only the error message and the error dialog flag
    changed; no URL is released or created, the current batch is not
    replaced and the loading flag is not written. *)
Theorem C10_validation_failure_frame :
  forall API_KEY R m,
    prompt (state m) = [] -> uploadedImage (state m) = None ->
    let st := state m in
    let p := handleSubmit API_KEY st in
    let m' := snd (exec R p m) in
    state m' =
      {| prompt := prompt st; generatedVideos := generatedVideos st;
         isLoading := isLoading st; loadingMessage := loadingMessage st;
         showErrorModal := true; errorMessage := NText validationMessage;
         showSettings := showSettings st; uploadedImage := uploadedImage st;
         numberOfVideos := numberOfVideos st; aspectRatio := aspectRatio st |}
    /\ nextURL m' = nextURL m
    /\ revoked (events R p m) = []
    /\ installed (events R p m) = []
    /\ created (events R p m) = []
    /\ (forall e v, In e (events R p m) -> ev_cmd e <> SetIsLoading v)
    /\ (forall e v, In e (events R p m) -> ev_cmd e <> SetGeneratedVideos v).
Proof.
  intros K R m Hp Hi st p m'. subst st p m'.
  rewrite (handleSubmit_invalid K (state m) Hp Hi).
  repeat split; try reflexivity;
    intros e v [<- | [<- | [<- | []]]]; discriminate.
Qed.

Lemma C10_frame_witness :
  let st := state emptyMachine in
  let p := handleSubmit None st in
  let m' := snd (exec neverDone p emptyMachine) in
  state m' =
    {| prompt := prompt st; generatedVideos := generatedVideos st;
       isLoading := isLoading st; loadingMessage := loadingMessage st;
       showErrorModal := true; errorMessage := NText validationMessage;
       showSettings := showSettings st; uploadedImage := uploadedImage st;
       numberOfVideos := numberOfVideos st; aspectRatio := aspectRatio st |}
  /\ nextURL m' = nextURL emptyMachine
  /\ revoked (events neverDone p emptyMachine) = []
  /\ installed (events neverDone p emptyMachine) = []
  /\ created (events neverDone p emptyMachine) = []
  /\ (forall e v, In e (events neverDone p emptyMachine) -> ev_cmd e <> SetIsLoading v)
  /\ (forall e v, In e (events neverDone p emptyMachine) -> ev_cmd e <> SetGeneratedVideos v).
Proof.
  apply (C10_validation_failure_frame None neverDone emptyMachine); reflexivity.
Defined.

(** ** Classification of errors *)

(** [parseError] on a serialized error with an embedded message, on one
    whose embedded message is empty, and on plain text. *)
Example parseError_embedded_message :
  parseError (js "{" ++ messageKey ++ js " " ++ dquote :: js "Bad request"
              ++ dquote :: js ", code: 400}")
  = NText (js "Bad request").
Proof. reflexivity. Qed.

Example parseError_empty_message :
  let raw := js "{" ++ messageKey ++ dquote :: dquote :: js "} then "
             ++ messageKey ++ dquote :: js "late" ++ [dquote] in
  parseError raw = NText raw.
Proof. reflexivity. Qed.

Example parseError_plain_text :
  parseError (js "fetch failed") = NText (js "fetch failed").
Proof. reflexivity. Qed.

Lemma parseError_rate_limit raw :
  includes raw (js "429") = true ->
  includes raw (js "RESOURCE_EXHAUSTED") = true ->
  parseError raw = rateLimitNotice.
Proof.
  intros H1 H2. unfold parseError. now rewrite H1, H2.
Qed.

Lemma includes_truthy raw sub :
  truthy sub = true -> includes raw sub = true -> truthy raw = true.
Proof.
  destruct sub as [| c sub]; [discriminate |].
  destruct raw; [discriminate | reflexivity].
Qed.

Lemma exec_onError R payload e m :
  exec R (onError payload e) m =
  (Returned tt,
   record
     (record
        (record m (ConsoleError (js "Error generating video:") e) tt)
        (SetErrorMessage
           (classify payload (orElse (message e) (js "An unexpected error occurred."))))
        tt)
     (SetShowErrorModal true) tt).
Proof. reflexivity. Qed.

(** C2, as stated, fails: when the service rejects the request with a
    message that carries both quota markers and the not-found marker, the
    run ends showing the not-found message, not the quota notice. *)
Lemma C2_not_found_wins :
  includes quotaAndNotFound (js "429") = true
  /\ includes quotaAndNotFound (js "RESOURCE_EXHAUSTED") = true
  /\ errorMessage
       (state (snd (exec (rejecting quotaAndNotFound)
                         (handleSubmit None (withPrompt (js "a cat")))
                         emptyMachine)))
     = NText (notFoundMessage (js "veo-2.0-generate-001"))
  /\ errorMessage
       (state (snd (exec (rejecting quotaAndNotFound)
                         (handleSubmit None (withPrompt (js "a cat")))
                         emptyMachine)))
     <> rateLimitNotice.
Proof.
  split; [reflexivity | split; [reflexivity |]].
  split; [reflexivity | discriminate].
Qed.

(** C2, amended: a raw message with both quota markers and without the
    not-found marker makes the [catch] block show the quota notice,
    whatever else the message contains; [parseError] itself returns the
    quota notice for both markers regardless of any other substring. *)
Theorem C2_rate_limit_unless_not_found :
  forall R payload e m,
    includes (message e) (js "429") = true ->
    includes (message e) (js "RESOURCE_EXHAUSTED") = true ->
    parseError (message e) = rateLimitNotice
    /\ (includes (message e) (js "Requested entity was not found") = false ->
        let m' := snd (exec R (onError payload e) m) in
        errorMessage (state m') = rateLimitNotice
        /\ showErrorModal (state m') = true).
Proof.
  intros R payload e m H1 H2.
  split; [now apply parseError_rate_limit |].
  intros H3 m'. subst m'. rewrite exec_onError. simpl.
  split; [| reflexivity].
  unfold classify, orElse.
  rewrite (includes_truthy (message e) (js "429") eq_refl H1).
  rewrite H3. now apply parseError_rate_limit.
Qed.

Lemma C2_rate_limit_witness :
  parseError (js "got 429 RESOURCE_EXHAUSTED") = rateLimitNotice
  /\ (includes (js "got 429 RESOURCE_EXHAUSTED")
        (js "Requested entity was not found") = false ->
      let m' := snd (exec (rejecting [])
                       (onError None (newError (js "got 429 RESOURCE_EXHAUSTED")))
                       emptyMachine) in
      errorMessage (state m') = rateLimitNotice
      /\ showErrorModal (state m') = true).
Proof.
  apply (C2_rate_limit_unless_not_found (rejecting [])
           None (newError (js "got 429 RESOURCE_EXHAUSTED")) emptyMachine);
    reflexivity.
Defined.

(** C9: classification is a function of the raw message: equal raw
    messages give equal results of [parseError], and the message shown by
    the [catch] block does not depend on the machine it runs on nor on the
    service. *)
Theorem C9_classification_deterministic :
  forall raw1 raw2,
    raw1 = raw2 ->
    parseError raw1 = parseError raw2
    /\ fst (RegExp_exec newRegExp raw1) = fst (RegExp_exec newRegExp raw2)
    /\ forall payload R1 R2 m1 m2,
         errorMessage (state (snd (exec R1 (onError payload (newError raw1)) m1)))
         = errorMessage (state (snd (exec R2 (onError payload (newError raw2)) m2))).
Proof.
  intros raw1 raw2 <-. repeat split.
Qed.

Lemma C9_classification_witness :
  parseError (js "quota") = parseError (js "quota")
  /\ fst (RegExp_exec newRegExp (js "quota")) = fst (RegExp_exec newRegExp (js "quota"))
  /\ forall payload R1 R2 m1 m2,
       errorMessage (state (snd (exec R1 (onError payload (newError (js "quota"))) m1)))
       = errorMessage (state (snd (exec R2 (onError payload (newError (js "quota"))) m2))).
Proof.
  apply (C9_classification_deterministic (js "quota") (js "quota")). reflexivity.
Defined.

(** ** The number of videos *)

(** The value stored by the number input is [NaN] (only when the text is
    not a number) or lies between 1 and 4. *)
Example Number_examples :
  Number (js "3") = Fin 3
  /\ Number (js "2.5") = Fin (5 # 2)
  /\ Number (js "") = Fin 0
  /\ Number (js " 1e1 ") = Fin 10
  /\ Number (js "-.5") = Fin (- (1 # 2))
  /\ Number (js "0x1f") = Fin 31
  /\ Number (js "abc") = NaN
  /\ Number (js "1e") = NaN.
Proof. repeat split; reflexivity. Qed.

Example clamp_examples :
  clamp (js "0") = Fin 1 /\ clamp (js "3") = Fin 3 /\ clamp (js "9") = Fin 4
  /\ clamp (js "") = Fin 1 /\ clamp (js "-7") = Fin 1.
Proof. repeat split; reflexivity. Qed.

Lemma clamp_fin q :
  Math_max (ofNat 1) (Math_min (ofNat 4) (Fin q)) =
  if Qle_bool 4 q then Fin 4 else if Qle_bool 1 q then Fin q else Fin 1.
Proof.
  unfold Math_min, Math_max, ofNat, isNaN, orb, num_leb.
  change (inject_Z (Z.of_nat 4)) with 4%Q.
  change (inject_Z (Z.of_nat 1)) with 1%Q.
  destruct (Qle_bool 4 q); [reflexivity |].
  destruct (Qle_bool 1 q); reflexivity.
Qed.

Lemma clamp_range value :
  (clamp value = NaN /\ Number value = NaN)
  \/ exists q, clamp value = Fin q /\ (1 <= q)%Q /\ (q <= 4)%Q.
Proof.
  assert (H14 : (1 <= 4)%Q) by discriminate.
  unfold clamp. destruct (Number value) as [| [|] | q].
  - left. split; reflexivity.
  - right. exists 1%Q. split; [reflexivity | split; [apply Qle_refl | exact H14]].
  - right. exists 4%Q. split; [reflexivity | split; [exact H14 | apply Qle_refl]].
  - right. rewrite clamp_fin.
    destruct (Qle_bool 4 q) eqn:H4.
    + exists 4%Q. split; [reflexivity | split; [exact H14 | apply Qle_refl]].
    + destruct (Qle_bool 1 q) eqn:H1.
      * exists q. split; [reflexivity |]. split.
        -- now apply Qle_bool_iff in H1.
        -- apply Qlt_le_weak. apply Qnot_le_lt. intros H.
           apply Qle_bool_iff in H. congruence.
      * exists 1%Q. split; [reflexivity | split; [apply Qle_refl | exact H14]].
Qed.

(** ** Runs that pass validation *)

Lemma replay_app evs1 evs2 m :
  replay (evs1 ++ evs2) m = replay evs2 (replay evs1 m).
Proof. apply fold_left_app. Qed.

Lemma trace_replay evs m : trace (replay evs m) = trace m ++ evs.
Proof.
  revert m; induction evs as [| [c r] evs IH]; intros m; simpl.
  - now rewrite app_nil_r.
  - rewrite IH. simpl. now rewrite <- app_assoc.
Qed.

Lemma exec_releases R batch m :
  exec R (forEach batch (fun u => perform (RevokeObjectURL u))) m
  = (Returned tt, replay (releases batch) m).
Proof.
  revert m; induction batch as [| u batch IH]; intros m; simpl; [reflexivity |].
  apply IH.
Qed.

Lemma events_releases R batch m :
  events R (forEach batch (fun u => perform (RevokeObjectURL u))) m
  = releases batch.
Proof.
  revert m; induction batch as [| u batch IH]; intros m; simpl; [reflexivity |].
  now rewrite IH.
Qed.

Lemma exec_guarded R API_KEY payload m :
  exec R (guarded API_KEY payload) m =
  match exec R (generate API_KEY payload) m with
  | (Exhausted, m') => (Exhausted, m')
  | (o, m') => (Returned tt, replay (closing payload o) m')
  end.
Proof.
  unfold guarded. rewrite exec_tryFinally, exec_tryCatch.
  destruct (exec R (generate API_KEY payload) m) as [[[] | e |] m']; reflexivity.
Qed.

Lemma events_guarded R API_KEY payload m :
  events R (guarded API_KEY payload) m =
  events R (generate API_KEY payload) m
  ++ closing payload (fst (exec R (generate API_KEY payload) m)).
Proof.
  unfold guarded. rewrite events_tryFinally, events_tryCatch, exec_tryCatch.
  destruct (exec R (generate API_KEY payload) m) as [[[] | e |] m']; simpl;
    now rewrite <- ?app_assoc, ?app_nil_r.
Qed.

Lemma handleSubmit_valid API_KEY st :
  canSubmit st = true ->
  handleSubmit API_KEY st =
  (perform PreventDefault ;;
   perform (SetIsLoading true) ;;
   forEach (generatedVideos st) (fun u => perform (RevokeObjectURL u)) ;;
   perform (SetGeneratedVideos []) ;;
   perform (SetLoadingMessage (js "Initializing video generation...")) ;;
   guarded API_KEY (buildPayload st)).
Proof.
  unfold canSubmit, handleSubmit. intros H.
  destruct (truthy (prompt st)), (present (uploadedImage st));
    try discriminate; reflexivity.
Qed.

Lemma exec_perform {A} R c (k : Prog A) m :
  exec R (perform c ;; k) m = exec R k (record m c (respond R m c)).
Proof. reflexivity. Qed.

Lemma events_perform {A} R c (k : Prog A) m :
  events R (perform c ;; k) m
  = Ev c (respond R m c) :: events R k (record m c (respond R m c)).
Proof. reflexivity. Qed.

Lemma exec_handleSubmit_valid R API_KEY st m :
  canSubmit st = true ->
  exec R (handleSubmit API_KEY st) m
  = exec R (guarded API_KEY (buildPayload st)) (replay (startEvents st) m).
Proof.
  intros H. rewrite (handleSubmit_valid API_KEY st H).
  do 2 rewrite exec_perform. rewrite exec_bind, exec_releases.
  do 2 rewrite exec_perform.
  unfold startEvents. rewrite (replay_app [_; _]), replay_app. reflexivity.
Qed.

Lemma events_handleSubmit_valid R API_KEY st m :
  canSubmit st = true ->
  events R (handleSubmit API_KEY st) m
  = startEvents st
    ++ events R (guarded API_KEY (buildPayload st)) (replay (startEvents st) m).
Proof.
  intros H. rewrite (handleSubmit_valid API_KEY st H).
  do 2 rewrite events_perform.
  rewrite events_bind, events_releases, exec_releases.
  do 2 rewrite events_perform.
  unfold startEvents. rewrite (replay_app [_; _]), replay_app.
  cbn [respond app]. rewrite <- app_assoc. reflexivity.
Qed.

(** The machine after a run is the machine before it with the events of the
    run replayed. *)
Lemma exec_replay {A} R (p : Prog A) m :
  snd (exec R p m) = replay (events R p m) m.
Proof.
  revert m; induction p as [a | e | | c k IH]; intros m; simpl; auto.
Qed.

Lemma Only_bind {A B} P (p : Prog A) (f : A -> Prog B) :
  Only P p -> (forall a, Only P (f a)) -> Only P (bind p f).
Proof.
  induction p as [a | e | | c k IH]; simpl; intros Hp Hf; auto.
  destruct Hp as [Hc Hk]. split; auto.
Qed.

Lemma Only_events {A} P R (p : Prog A) m :
  Only P p -> Forall (fun e => P (ev_cmd e) = true) (events R p m).
Proof.
  revert m; induction p as [a | e | | c k IH]; simpl; intros m Hp;
    try constructor.
  - apply Hp.
  - apply IH, Hp.
Qed.

Lemma Total_bind {A B} (p : Prog A) (f : A -> Prog B) :
  Total p -> (forall a, Total (f a)) -> Total (bind p f).
Proof.
  induction p as [a | e | | c k IH]; simpl; intros Hp Hf; auto.
Qed.

Lemma Total_tryCatch {A} (p : Prog A) h :
  Total p -> (forall e, Total (h e)) -> Total (tryCatch p h).
Proof.
  induction p as [a | e | | c k IH]; simpl; intros Hp Hh; auto.
Qed.

Lemma Total_tryFinally {A} (p : Prog A) f :
  Total p -> Total f -> Total (tryFinally p f).
Proof.
  induction p as [a | e | | c k IH]; simpl; intros Hp Hf; auto;
    apply Total_bind; simpl; auto.
Qed.

Lemma Total_exec {A} R (p : Prog A) m :
  Total p -> fst (exec R p m) <> Exhausted.
Proof.
  revert m; induction p as [a | e | | c k IH]; simpl; intros m Hp;
    try discriminate; auto.
Qed.

(** *** The polling loop *)

Lemma pollLoop_unfold fuel operation pollCount :
  pollLoop fuel operation pollCount =
  if negb (isDone operation) && (pollCount <? maxPolls) then
    match fuel with
    | 0 => OutOfFuel
    | S fuel' =>
        perform (SetTimeout 10000) ;;
        operation' <- (r <- perform (GetVideosOperation operation) ;; settle r) ;;
        perform (SetLoadingMessage (pollingMessage (S pollCount))) ;;
        pollLoop fuel' operation' (S pollCount)
    end
  else Ret (operation, pollCount).
Proof. destruct fuel; reflexivity. Qed.

Lemma pollLoop_Total fuel operation pollCount :
  maxPolls <= fuel + pollCount -> Total (pollLoop fuel operation pollCount).
Proof.
  revert operation pollCount.
  induction fuel as [| fuel IH]; intros op n Hf; rewrite pollLoop_unfold.
  - destruct (n <? maxPolls) eqn:Hn; [apply Nat.ltb_lt in Hn; lia |].
    now rewrite andb_false_r.
  - destruct (negb (isDone op) && (n <? maxPolls)); simpl; auto.
    intros _ [op' | e]; simpl; auto. intros _. apply IH. lia.
Qed.

Lemma pollLoop_Only fuel operation pollCount :
  Only pollingCmd (pollLoop fuel operation pollCount).
Proof.
  revert operation pollCount.
  induction fuel as [| fuel IH]; intros op n; rewrite pollLoop_unfold;
    destruct (negb (isDone op) && (n <? maxPolls)); simpl; auto.
  split; [reflexivity |]. intros _. split; [reflexivity |].
  intros [op' | e]; simpl; auto.
Qed.

Lemma exec_pollLoop_step R fuel op n m :
  isDone op = false -> n < maxPolls ->
  let m1 := record m (SetTimeout 10000) tt in
  let r := getVideosOperation R (trace m1) op in
  exec R (pollLoop (S fuel) op n) m =
  match r with
  | Resolved op' =>
      exec R (pollLoop fuel op' (S n))
           (record (record m1 (GetVideosOperation op) r)
                   (SetLoadingMessage (pollingMessage (S n))) tt)
  | Rejected e => (Thrown e, record m1 (GetVideosOperation op) r)
  end
  /\ events R (pollLoop (S fuel) op n) m =
     Ev (SetTimeout 10000) tt :: Ev (GetVideosOperation op) r ::
     match r with
     | Resolved op' =>
         Ev (SetLoadingMessage (pollingMessage (S n))) tt ::
         events R (pollLoop fuel op' (S n))
           (record (record m1 (GetVideosOperation op) r)
                   (SetLoadingMessage (pollingMessage (S n))) tt)
     | Rejected e => []
     end.
Proof.
  intros Hd Hn m1 r. rewrite pollLoop_unfold, Hd.
  apply Nat.ltb_lt in Hn. rewrite Hn. cbn [negb andb].
  subst m1 r. cbn [perform bind exec events respond].
  destruct (getVideosOperation R _ op) as [op' | e]; split; reflexivity.
Qed.

Lemma exec_pollLoop_exit R fuel op n m :
  negb (isDone op) && (n <? maxPolls) = false ->
  exec R (pollLoop fuel op n) m = (Returned (op, n), m)
  /\ events R (pollLoop fuel op n) m = [].
Proof.
  intros H. rewrite pollLoop_unfold, H. split; reflexivity.
Qed.

Lemma reports_app tr1 tr2 : reports (tr1 ++ tr2) = reports tr1 ++ reports tr2.
Proof. apply flat_map_app. Qed.

Lemma downloads_app tr1 tr2 : downloads (tr1 ++ tr2) = downloads tr1 ++ downloads tr2.
Proof. apply flat_map_app. Qed.

Lemma waited_app tr1 tr2 : waited (tr1 ++ tr2) = (waited tr1 + waited tr2)%N.
Proof.
  induction tr1 as [| [c r] tr1 IH]; simpl; [reflexivity |].
  rewrite IH. destruct c; simpl; lia.
Qed.

Lemma rounds_length_waited n op ops :
  waited (rounds n op ops) = (10000 * N.of_nat (List.length ops))%N.
Proof.
  revert n op; induction ops as [| op' ops IH]; intros n op; [reflexivity |].
  cbn [rounds]. rewrite waited_app, IH. cbn [round waited fold_right ev_cmd List.length].
  lia.
Qed.

Lemma rounds_reports n op ops :
  reports (rounds n op ops) = map Resolved ops.
Proof.
  revert n op; induction ops as [| op' ops IH]; intros n op; [reflexivity |].
  cbn [rounds]. rewrite reports_app, IH. reflexivity.
Qed.

Lemma last_default {A} (l : list A) a d d' :
  last (a :: l) d = last (a :: l) d'.
Proof.
  revert a; induction l as [| b l IH]; intros a; [reflexivity |].
  change (last (b :: l) d = last (b :: l) d'). apply IH.
Qed.

Lemma last_cons_self {A} (l : list A) a d :
  last (a :: l) d = last l a.
Proof.
  destruct l as [| b l]; [reflexivity |].
  change (last (b :: l) d = last (b :: l) a). apply last_default.
Qed.

(** While every poll answers with a status that is not done, the loop makes
    all the rounds left up to [maxPolls] and leaves with the last status. *)
Lemma pollLoop_never_done R fuel op n m :
  maxPolls <= fuel + n -> n <= maxPolls -> isDone op = false ->
  Forall undone (reports (events R (pollLoop fuel op n) m)) ->
  exists answers,
    List.length answers = maxPolls - n
    /\ Forall (fun o => isDone o = false) answers
    /\ events R (pollLoop fuel op n) m = rounds n op answers
    /\ fst (exec R (pollLoop fuel op n) m) = Returned (last answers op, maxPolls).
Proof.
  revert op n m.
  induction fuel as [| fuel IH]; intros op n m Hf Hn Hd Hr.
  - assert (n = maxPolls) by lia. subst n.
    destruct (exec_pollLoop_exit R 0 op maxPolls m) as [He Hv].
    { now rewrite Nat.ltb_irrefl, andb_false_r. }
    exists []. rewrite He, Hv, Nat.sub_diag. repeat split; constructor.
  - destruct (Nat.eq_dec n maxPolls) as [-> | Hne].
    + destruct (exec_pollLoop_exit R (S fuel) op maxPolls m) as [He Hv].
      { now rewrite Nat.ltb_irrefl, andb_false_r. }
      exists []. rewrite He, Hv, Nat.sub_diag. repeat split; constructor.
    + assert (Hlt : n < maxPolls) by lia.
      destruct (exec_pollLoop_step R fuel op n m Hd Hlt) as [He Hv].
      cbv zeta in He, Hv.
      set (r := getVideosOperation R _ op) in *. clearbody r.
      rewrite He, Hv. rewrite Hv in Hr.
      cbn [reports flat_map submitted polled app] in Hr.
      change (flat_map _ ?l) with (reports l) in Hr.
      inversion Hr as [| r0 rest [op' [Hop' Hd']] Hrest]; subst r0 rest r.
      cbn [reports flat_map submitted polled app] in Hrest.
      change (flat_map _ ?l) with (reports l) in Hrest.
      destruct (IH op' (S n) _ ltac:(lia) ltac:(lia) Hd' Hrest)
        as [answers [Hlen [Hall [Hevs Hout]]]].
      exists (op' :: answers). split; [cbn [List.length]; lia |].
      split; [now constructor |]. split.
      * cbn [rounds round app]. now rewrite Hevs.
      * rewrite Hout. now rewrite last_cons_self.
Qed.

(** In every run of the loop the answers seen are statuses that are not
    done, except the last one, which is the status the loop leaves with, or
    the rejection it throws. *)
Lemma pollLoop_reports R fuel op n m :
  maxPolls <= fuel + n ->
  exists answers,
    match fst (exec R (pollLoop fuel op n) m) with
    | Returned (op', n') =>
        reports (events R (pollLoop fuel op n) m) = map Resolved answers
        /\ op' = last answers op
        /\ Forall (fun o => isDone o = false) (removelast (op :: answers))
        /\ (isDone op' = true \/ maxPolls <= n')
    | Thrown err =>
        reports (events R (pollLoop fuel op n) m)
        = map Resolved answers ++ [Rejected err]
        /\ Forall (fun o => isDone o = false) (op :: answers)
    | Exhausted => False
    end.
Proof.
  revert op n m.
  induction fuel as [| fuel IH]; intros op n m Hf.
  - destruct (exec_pollLoop_exit R 0 op n m) as [He Hv].
    { destruct (n <? maxPolls) eqn:E; [apply Nat.ltb_lt in E; lia |].
      apply andb_false_r. }
    exists []. rewrite He, Hv. simpl. repeat split; auto; try (right; lia).
  - destruct (negb (isDone op) && (n <? maxPolls)) eqn:Hc.
    + apply andb_prop in Hc. destruct Hc as [Hd Hn].
      apply negb_true_iff in Hd. apply Nat.ltb_lt in Hn.
      destruct (exec_pollLoop_step R fuel op n m Hd Hn) as [He Hv].
      cbv zeta in He, Hv.
      set (r := getVideosOperation R _ op) in *. clearbody r.
      rewrite He, Hv.
      destruct r as [op' | e].
      * destruct (IH op' (S n)
                    (record (record (record m (SetTimeout 10000) tt)
                                    (GetVideosOperation op) (Resolved op'))
                            (SetLoadingMessage (pollingMessage (S n))) tt)
                    ltac:(lia)) as [answers HI].
        exists (op' :: answers).
        destruct (fst (exec R (pollLoop fuel op' (S n)) _)) as [[op'' n''] | err |];
          [| | exact HI].
        -- destruct HI as [Hr [Hl [Hu Hx]]].
           cbn [reports flat_map submitted polled app].
           change (flat_map _ ?l) with (reports l). rewrite Hr.
           split; [reflexivity |]. split; [now rewrite last_cons_self |].
           split; [| exact Hx].
           change (removelast (op :: op' :: answers))
             with (op :: removelast (op' :: answers)).
           now constructor.
        -- destruct HI as [Hr Hu].
           cbn [reports flat_map submitted polled app].
           change (flat_map _ ?l) with (reports l). rewrite Hr.
           split; [reflexivity | now constructor].
      * exists []. simpl. split; [reflexivity | now repeat constructor].
    + destruct (exec_pollLoop_exit R (S fuel) op n m Hc) as [He Hv].
      exists []. rewrite He, Hv. simpl. repeat split; auto.
      apply andb_false_iff in Hc. destruct Hc as [Hc | Hc].
      * left. now apply negb_false_iff in Hc.
      * right. apply Nat.ltb_ge in Hc. exact Hc.
Qed.

(** The loop never waits longer than the rounds left allow. *)
Lemma pollLoop_waited R fuel op n m :
  (waited (events R (pollLoop fuel op n) m)
   <= 10000 * N.of_nat (maxPolls - n))%N.
Proof.
  revert op n m.
  induction fuel as [| fuel IH]; intros op n m.
  - rewrite pollLoop_unfold.
    destruct (negb (isDone op) && (n <? maxPolls)); simpl; lia.
  - destruct (negb (isDone op) && (n <? maxPolls)) eqn:Hc.
    + apply andb_prop in Hc. destruct Hc as [Hd Hn].
      apply negb_true_iff in Hd. apply Nat.ltb_lt in Hn.
      destruct (exec_pollLoop_step R fuel op n m Hd Hn) as [_ Hv].
      cbv zeta in Hv.
      set (r := getVideosOperation R _ op) in *. clearbody r.
      rewrite Hv.
      destruct r as [op' | e].
      * cbn [waited fold_right ev_cmd].
        change (fold_right _ 0%N ?l) with (waited l).
        specialize (IH op' (S n)
                      (record (record (record m (SetTimeout 10000) tt)
                                      (GetVideosOperation op) (Resolved op'))
                              (SetLoadingMessage (pollingMessage (S n))) tt)).
        lia.
      * cbn [waited fold_right ev_cmd]. lia.
    + destruct (exec_pollLoop_exit R (S fuel) op n m Hc) as [_ Hv].
      rewrite Hv. simpl. lia.
Qed.

(** *** The download loop *)

Lemma fetchVideos_Only API_KEY videos videoUrls :
  Only fetchingCmd (fetchVideos API_KEY videos videoUrls).
Proof.
  revert videoUrls; induction videos as [| v videos IH]; intros acc; simpl; auto.
  destruct (video v) as [vd |]; simpl; auto.
  split; [reflexivity |]. intros [resp | e]; simpl; auto.
  destruct (ok resp); simpl; auto.
  split; [reflexivity |]. intros [b | e]; simpl; auto.
Qed.

Lemma fetchVideos_Total API_KEY videos videoUrls :
  Total (fetchVideos API_KEY videos videoUrls).
Proof.
  revert videoUrls; induction videos as [| v videos IH]; intros acc; simpl; auto.
  destruct (video v) as [vd |]; simpl; auto.
  intros [resp | e]; simpl; auto.
  destruct (ok resp); simpl; auto.
  intros [b | e]; simpl; auto.
Qed.

Lemma created_app tr1 tr2 : created (tr1 ++ tr2) = created tr1 ++ created tr2.
Proof. apply flat_map_app. Qed.

Lemma fetchVideos_step R API_KEY v videos acc m :
  let p := fetchVideos API_KEY (v :: videos) acc in
  match video v with
  | None =>
      exec R p m = (Thrown (newError uriOfUndefined), m) /\ events R p m = []
  | Some vd =>
      let url := videoAddress API_KEY vd in
      let r := fetch R (trace m) url in
      let m1 := record m (Fetch url) r in
      match r with
      | Rejected e => exec R p m = (Thrown e, m1) /\ events R p m = [Ev (Fetch url) r]
      | Resolved resp =>
          if ok resp then
            let b := blob R (trace m1) resp in
            let m2 := record m1 (ResponseBlob resp) b in
            match b with
            | Rejected e =>
                exec R p m = (Thrown e, m2)
                /\ events R p m = [Ev (Fetch url) r; Ev (ResponseBlob resp) b]
            | Resolved bytes =>
                let m3 := record m2 (CreateObjectURL bytes) (nextURL m) in
                exec R p m = exec R (fetchVideos API_KEY videos (acc ++ [nextURL m])) m3
                /\ events R p m =
                   [Ev (Fetch url) r; Ev (ResponseBlob resp) b;
                    Ev (CreateObjectURL bytes) (nextURL m)]
                   ++ events R (fetchVideos API_KEY videos (acc ++ [nextURL m])) m3
            end
          else
            exec R p m = (Thrown (newError (downloadMessage resp)), m1)
            /\ events R p m = [Ev (Fetch url) r]
      end
  end.
Proof.
  cbn [fetchVideos]. destruct (video v) as [vd |]; [| split; reflexivity].
  cbn [bind perform exec events respond]. unfold videoAddress.
  destruct (fetch R (trace m) _) as [resp | e]; [| split; reflexivity].
  cbn [settle bind]. destruct (ok resp); [| split; reflexivity].
  cbn [negb bind perform exec events respond].
  destruct (blob R _ resp) as [bytes | e]; split; reflexivity.
Qed.

(** Every run of the download loop: the retrievals answered so far were all
    successful; the loop returns one fresh URL per video, or stops at the
    first video that cannot be retrieved. *)
Lemma fetchVideos_spec R API_KEY videos acc m :
  let p := fetchVideos API_KEY videos acc in
  exists answers,
    Forall (fun r => ok r = true) answers /\
    match fst (exec R p m) with
    | Returned urls =>
        downloads (events R p m) = map Resolved answers
        /\ List.length answers = List.length videos
        /\ urls = acc ++ created (events R p m)
        /\ created (events R p m) = seq (nextURL m) (List.length videos)
    | Thrown err =>
        (exists k, k < List.length videos
                   /\ created (events R p m) = seq (nextURL m) k)
        /\ (downloads (events R p m) = map Resolved answers
            \/ downloads (events R p m) = map Resolved answers ++ [Rejected err]
            \/ exists r,
                 downloads (events R p m) = map Resolved answers ++ [Resolved r]
                 /\ ok r = false /\ err = newError (downloadMessage r))
    | Exhausted => False
    end.
Proof.
  revert acc m; induction videos as [| v videos IH]; intros acc m p.
  - exists []. split; [constructor |]. subst p. simpl.
    now rewrite app_nil_r.
  - pose proof (fetchVideos_step R API_KEY v videos acc m) as Hs.
    cbv zeta in Hs. fold p in Hs.
    assert (H0 : exists k, k < List.length (v :: videos)
                           /\ @nil ObjectURL = seq (nextURL m) k).
    { exists 0. split; [simpl; lia | reflexivity]. }
    destruct (video v) as [vd |].
    2:{ destruct Hs as [He Hv]. exists []. rewrite He, Hv.
        split; [constructor |]. split; [exact H0 |]. left. reflexivity. }
    set (r := fetch R (trace m) _) in *. clearbody r.
    destruct r as [resp | e].
    2:{ destruct Hs as [He Hv]. exists []. rewrite He, Hv.
        split; [constructor |]. split; [exact H0 |]. right. left. reflexivity. }
    destruct (ok resp) eqn:Hok.
    2:{ destruct Hs as [He Hv]. exists []. rewrite He, Hv.
        split; [constructor |]. split; [exact H0 |].
        right. right. exists resp. auto. }
    set (b := blob R _ resp) in *. clearbody b.
    destruct b as [bytes | e].
    2:{ destruct Hs as [He Hv]. exists [resp]. rewrite He, Hv.
        split; [now repeat constructor |]. split; [exact H0 |].
        left. reflexivity. }
    clear H0. destruct Hs as [He Hv]. rewrite He, Hv.
    match type of He with
    | _ = exec R ?q ?m3 => destruct (IH (acc ++ [nextURL m]) m3) as [answers [Hall HI]]
    end.
    cbv zeta in HI.
    exists (resp :: answers). split; [now constructor |].
    rewrite downloads_app, created_app.
    cbn [downloads created flat_map fetched ev_cmd app map List.length seq nextURL record].
    change (flat_map (fun e => match fetched e with Some r => [r] | None => [] end) ?l)
      with (downloads l) in *.
    match goal with
    | |- context [fst ?x] => destruct (fst x) as [urls | err |]
    end; [| | exact HI].
    + destruct HI as [Hd [Hl [Hu Hc]]].
      rewrite Hd. split; [reflexivity |]. split; [lia |].
      cbn [nextURL record] in Hc. rewrite Hc.
      split; [| reflexivity].
      rewrite Hu, Hc, <- app_assoc. reflexivity.
    + destruct HI as [[k [Hk Hc]] Hd].
      split.
      * exists (S k). split; [lia |].
        cbn [nextURL record] in Hc. rewrite Hc. reflexivity.
      * destruct Hd as [Hd | [Hd | [r [Hd [Hr He']]]]]; rewrite Hd.
        -- left. reflexivity.
        -- right. left. reflexivity.
        -- right. right. exists r. auto.
Qed.

(** *** The [try] block as a whole *)

Lemma class_weaken (P Q : Cmd -> bool) evs :
  (forall c, P c = true -> Q c = true) ->
  Forall (fun e => P (ev_cmd e) = true) evs ->
  Forall (fun e => Q (ev_cmd e) = true) evs.
Proof.
  intros H. apply Forall_impl. intros e. apply H.
Qed.

Lemma polling_quiet c : pollingCmd c = true -> quietCmd c = true.
Proof. destruct c; simpl; auto. Qed.

Lemma fetching_quiet c : fetchingCmd c = true -> quietCmd c = true.
Proof. destruct c; simpl; auto. Qed.

Lemma flat_map_nil {A B} (f : A -> list B) l :
  Forall (fun x => f x = []) l -> flat_map f l = [].
Proof.
  induction 1 as [| x l Hx _ IH]; simpl; [reflexivity |]. now rewrite Hx, IH.
Qed.

Lemma polling_no_downloads evs :
  Forall (fun e => pollingCmd (ev_cmd e) = true) evs ->
  downloads evs = [] /\ created evs = [].
Proof.
  intros H; split; apply flat_map_nil; revert H; apply Forall_impl;
    intros [c r]; destruct c; simpl; congruence.
Qed.

Lemma fetching_no_reports evs :
  Forall (fun e => fetchingCmd (ev_cmd e) = true) evs -> reports evs = [].
Proof.
  intros H; apply flat_map_nil; revert H; apply Forall_impl;
    intros [c r]; destruct c; simpl; congruence.
Qed.

Lemma nextURL_replay evs m :
  nextURL (replay evs m) = nextURL m + List.length (created evs).
Proof.
  revert m; induction evs as [| [c r] evs IH]; intros m; simpl; [lia |].
  rewrite IH. destruct c; simpl; lia.
Qed.

Lemma generate_step R API_KEY payload m :
  let p := generate API_KEY payload in
  let r := generateVideos R (trace m) payload in
  match r with
  | Rejected e =>
      exec R p m = (Thrown e, record m (GenerateVideos payload) r)
      /\ events R p m = [Ev (GenerateVideos payload) r]
  | Resolved op0 =>
      let m1 := record (record m (GenerateVideos payload) r)
                       (SetLoadingMessage generatingMessage) tt in
      exec R p m =
        match exec R (pollLoop maxPolls op0 0) m1 with
        | (Returned res, m2) => exec R (deliver API_KEY (fst res)) m2
        | (Thrown e, m2) => (Thrown e, m2)
        | (Exhausted, m2) => (Exhausted, m2)
        end
      /\ events R p m =
         Ev (GenerateVideos payload) r ::
         Ev (SetLoadingMessage generatingMessage) tt ::
         events R (pollLoop maxPolls op0 0) m1
         ++ match exec R (pollLoop maxPolls op0 0) m1 with
            | (Returned res, m2) => events R (deliver API_KEY (fst res)) m2
            | _ => []
            end
  end.
Proof.
  unfold generate. cbn [bind perform exec events respond].
  destruct (generateVideos R (trace m) payload) as [op0 | e];
    [| split; reflexivity].
  cbn [settle bind exec events respond].
  rewrite exec_bind, events_bind. split; reflexivity.
Qed.

Lemma deliver_step R API_KEY op m :
  let p := deliver API_KEY op in
  if isDone op then
    match producedVideos op with
    | None => exec R p m = (Thrown (newError noResultMessage), m)
              /\ events R p m = []
    | Some videos =>
        let m1 := record m (SetLoadingMessage fetchingMessage) tt in
        let q := fetchVideos API_KEY videos [] in
        exec R p m =
          match exec R q m1 with
          | (Returned urls, m2) =>
              (Returned tt, record m2 (SetGeneratedVideos urls) tt)
          | (Thrown e, m2) => (Thrown e, m2)
          | (Exhausted, m2) => (Exhausted, m2)
          end
        /\ events R p m =
           Ev (SetLoadingMessage fetchingMessage) tt ::
           events R q m1
           ++ match exec R q m1 with
              | (Returned urls, m2) => [Ev (SetGeneratedVideos urls) tt]
              | _ => []
              end
    end
  else exec R p m = (Thrown (newError timeoutMessage), m) /\ events R p m = [].
Proof.
  unfold deliver. destruct (isDone op); cbn [negb]; [| split; reflexivity].
  destruct (producedVideos op) as [videos |]; [| split; reflexivity].
  cbn [bind perform exec events respond].
  rewrite exec_bind, events_bind.
  destruct (exec R (fetchVideos API_KEY videos []) _) as [[urls | e |] m2];
    split; reflexivity.
Qed.

Lemma removelast_last_cons {A} (a : A) l :
  a :: l = removelast (a :: l) ++ [last l a].
Proof.
  rewrite <- (last_cons_self l a a). apply app_removelast_last. discriminate.
Qed.

Lemma rounds_polling n op answers :
  Forall (fun e => pollingCmd (ev_cmd e) = true) (rounds n op answers).
Proof.
  revert n op; induction answers as [| o answers IH]; intros n op; simpl;
    repeat constructor. apply IH.
Qed.

Lemma quiet_app evs1 evs2 : quiet evs1 -> quiet evs2 -> quiet (evs1 ++ evs2).
Proof. intros H1 H2. apply Forall_app. now split. Qed.

(** Every run of the [try] block ends in one of these ways. *)
Lemma generate_result R API_KEY payload m :
  TryResult payload (nextURL m)
    (events R (generate API_KEY payload) m)
    (fst (exec R (generate API_KEY payload) m)).
Proof.
  pose proof (generate_step R API_KEY payload m) as Hs. cbv zeta in Hs.
  set (r := generateVideos R (trace m) payload) in *. clearbody r.
  destruct r as [op0 | e].
  2:{ destruct Hs as [He Hv]. rewrite He, Hv.
      apply Rejects with (statuses := []); try reflexivity; repeat constructor. }
  destruct Hs as [He Hv].
  set (m1 := record (record m (GenerateVideos payload) (Resolved op0))
                    (SetLoadingMessage generatingMessage) tt) in *.
  assert (Hn1 : nextURL m1 = nextURL m) by reflexivity.
  pose proof (pollLoop_reports R maxPolls op0 0 m1 ltac:(lia)) as [answers Hp].
  pose proof (Only_events pollingCmd R _ m1 (pollLoop_Only maxPolls op0 0)) as Hclass.
  pose proof (polling_no_downloads _ Hclass) as [Hnd Hnc].
  pose proof (class_weaken _ _ _ polling_quiet Hclass) as Hq.
  pose proof (exec_replay R (pollLoop maxPolls op0 0) m1) as Hm2.
  set (loopEvs := events R (pollLoop maxPolls op0 0) m1) in *.
  destruct (exec R (pollLoop maxPolls op0 0) m1) as [[[op' n'] | err |] m2];
    cbn [fst snd] in *; [| | contradiction].
  - (* the loop was left with a status *)
    destruct Hp as [Hr [Hl [Hu Hx]]].
    assert (Hn2 : nextURL m2 = nextURL m).
    { rewrite Hm2, nextURL_replay, Hnc, Hn1. simpl. lia. }
    pose proof (deliver_step R API_KEY op' m2) as Hd. cbv zeta in Hd.
    rewrite He, Hv.
    destruct (isDone op') eqn:Hdone.
    + destruct (producedVideos op') as [videos |] eqn:Hvideos.
      * (* download *)
        destruct Hd as [He' Hv']. rewrite He', Hv'.
        set (m3 := record m2 (SetLoadingMessage fetchingMessage) tt) in *.
        pose proof (fetchVideos_spec R API_KEY videos [] m3) as [fanswers [Hok Hf]].
        cbv zeta in Hf.
        pose proof (Only_events fetchingCmd R _ m3 (fetchVideos_Only API_KEY videos []))
          as Hfclass.
        pose proof (fetching_no_reports _ Hfclass) as Hfr.
        pose proof (class_weaken _ _ _ fetching_quiet Hfclass) as Hfq.
        set (fetchEvs := events R (fetchVideos API_KEY videos []) m3) in *.
        assert (Hn3 : nextURL m3 = nextURL m) by exact Hn2.
        destruct (exec R (fetchVideos API_KEY videos []) m3) as [[urls | err |] m4];
          cbn [fst snd] in *; [| | contradiction].
        -- destruct Hf as [Hfd [Hfl [Hfu Hfc]]]. cbn [app] in Hfu. subst urls.
           rewrite Hn3 in Hfc.
           apply Succeeds with (statuses := removelast (op0 :: answers))
                               (final := op') (videos := videos)
                               (answers := fanswers)
                               (evs0 := Ev (GenerateVideos payload) (Resolved op0)
                                        :: Ev (SetLoadingMessage generatingMessage) tt
                                        :: loopEvs
                                        ++ Ev (SetLoadingMessage fetchingMessage) tt
                                        :: fetchEvs); auto.
           ++ cbn [reports flat_map submitted polled app].
              change (flat_map _ ?l) with (reports l).
              rewrite reports_app. cbn [reports flat_map submitted polled app].
              change (flat_map _ ?l) with (reports l).
              rewrite reports_app, Hr, Hfr. cbn [reports flat_map app].
              rewrite !app_nil_r, Hl, <- removelast_last_cons. reflexivity.
           ++ cbn [downloads flat_map fetched app].
              change (flat_map _ ?l) with (downloads l).
              rewrite downloads_app, Hnd. cbn [downloads flat_map fetched app].
              change (flat_map _ ?l) with (downloads l).
              rewrite downloads_app, Hfd. cbn [downloads flat_map fetched app].
              now rewrite app_nil_r.
           ++ cbn [created flat_map app].
              change (flat_map _ ?l) with (created l).
              rewrite created_app, Hnc. cbn [created flat_map app].
              change (flat_map _ ?l) with (created l).
              rewrite created_app, Hfc. cbn [created flat_map app].
              now rewrite app_nil_r.
           ++ rewrite Hfc. cbn [app]. rewrite <- !app_assoc. reflexivity.
           ++ repeat constructor. apply quiet_app; [exact Hq |].
              constructor; [reflexivity | exact Hfq].
        -- destruct Hf as [[k [Hk Hfc]] Hfd]. rewrite Hn3 in Hfc.
           rewrite app_nil_r.
           apply DownloadFails with (statuses := removelast (op0 :: answers))
                                    (final := op') (videos := videos)
                                    (answers := fanswers) (k := k); auto.
           ++ cbn [reports flat_map submitted polled app].
              change (flat_map _ ?l) with (reports l).
              rewrite reports_app. cbn [reports flat_map submitted polled app].
              change (flat_map _ ?l) with (reports l).
              rewrite Hr, Hfr.
              rewrite !app_nil_r, Hl, <- removelast_last_cons. reflexivity.
           ++ cbn [created flat_map app].
              change (flat_map _ ?l) with (created l).
              rewrite created_app, Hnc. cbn [created flat_map app].
              change (flat_map _ ?l) with (created l).
              exact Hfc.
           ++ repeat constructor. apply quiet_app; [exact Hq |].
              constructor; [reflexivity | exact Hfq].
           ++ cbn [downloads flat_map fetched app].
              change (flat_map _ ?l) with (downloads l).
              rewrite downloads_app, Hnd. cbn [downloads flat_map fetched app].
              change (flat_map _ ?l) with (downloads l).
              exact Hfd.
      * (* done without videos *)
        destruct Hd as [He' Hv']. rewrite He', Hv', app_nil_r.
        apply NoResult with (statuses := removelast (op0 :: answers)) (final := op');
          auto.
        -- cbn [reports flat_map submitted polled app].
           change (flat_map _ ?l) with (reports l).
           rewrite Hr, Hl, <- removelast_last_cons. reflexivity.
        -- repeat constructor. exact Hq.
    + (* not done: the bound was reached *)
      destruct Hd as [He' Hv']. rewrite He', Hv', app_nil_r.
      assert (Hall : Forall notDone (op0 :: answers)).
      { rewrite (removelast_last_cons op0 answers). apply Forall_app. split; auto.
        constructor; [| constructor]. unfold notDone. now rewrite <- Hl. }
      inversion Hall as [| ? ? Hd0 Hans]; subst.
      destruct (pollLoop_never_done R maxPolls op0 0 m1 ltac:(lia) ltac:(lia) Hd0)
        as [answers' [Hlen [Hall' [Hevs _]]]].
      { fold loopEvs. rewrite Hr. apply Forall_map. revert Hans.
        apply Forall_impl. intros o Ho. exists o. auto. }
      fold loopEvs in Hevs. rewrite Hevs.
      apply TimesOut with (op0 := op0) (answers := answers'); auto.
  - (* a poll was rejected *)
    destruct Hp as [Hr Hu]. rewrite He, Hv, app_nil_r.
    apply Rejects with (statuses := op0 :: answers); auto.
    + cbn [reports flat_map submitted polled app].
      change (flat_map _ ?l) with (reports l). rewrite Hr. reflexivity.
    + repeat constructor. exact Hq.
Qed.

(** *** The run as a whole *)

Lemma state_replay_quiet evs m msg :
  quiet evs ->
  applyCmd (SetLoadingMessage msg) (state (replay evs m))
  = applyCmd (SetLoadingMessage msg) (state m).
Proof.
  intros H; revert m; induction H as [| [c r] evs Hc _ IH]; intros m;
    [reflexivity |].
  cbn [replay fold_left]. change (fold_left _ evs ?x) with (replay evs x).
  rewrite IH. destruct c; try discriminate; reflexivity.
Qed.

Lemma state_replay_releases batch m :
  state (replay (releases batch) m) = state m.
Proof.
  revert m; induction batch as [| u batch IH]; intros m; [reflexivity |].
  cbn [releases map replay fold_left].
  change (fold_left _ (map ?f batch) ?x) with (replay (releases batch) x).
  now rewrite IH.
Qed.

Lemma nextURL_replay_releases batch m :
  nextURL (replay (releases batch) m) = nextURL m.
Proof.
  revert m; induction batch as [| u batch IH]; intros m; [reflexivity |].
  cbn [releases map replay fold_left].
  change (fold_left _ (map ?f batch) ?x) with (replay (releases batch) x).
  now rewrite IH.
Qed.

Lemma state_started st m :
  state (replay (startEvents st) m)
  = applyCmd (SetLoadingMessage (js "Initializing video generation..."))
      (applyCmd (SetGeneratedVideos [])
         (applyCmd (SetIsLoading true) (state m))).
Proof.
  unfold startEvents. rewrite (replay_app [_; _]), replay_app.
  cbn [replay fold_left record state]. now rewrite state_replay_releases.
Qed.

Lemma nextURL_started st m : nextURL (replay (startEvents st) m) = nextURL m.
Proof.
  unfold startEvents. rewrite (replay_app [_; _]), replay_app.
  cbn [replay fold_left record nextURL]. now rewrite nextURL_replay_releases.
Qed.

Lemma state_closing payload o st evs m :
  state m = applyCmd (SetLoadingMessage (js "Initializing video generation..."))
              (applyCmd (SetGeneratedVideos [])
                 (applyCmd (SetIsLoading true) st)) ->
  match o with
  | Returned _ =>
      forall evs0 urls,
        evs = evs0 ++ [Ev (SetGeneratedVideos urls) tt] -> quiet evs0 ->
        state (replay (closing payload o) (replay evs m)) = afterSuccess st urls
  | Thrown e =>
      quiet evs ->
      state (replay (closing payload o) (replay evs m))
      = afterFailure st (shownFor payload e)
  | Exhausted => True
  end.
Proof.
  intros Hm. destruct o as [[] | e |]; [| | exact I].
  - intros evs0 urls -> Hq. rewrite replay_app.
    pose proof (state_replay_quiet evs0 m [] Hq) as H.
    rewrite Hm in H. cbn [closing finallyEvents replay fold_left record state].
    destruct (state (replay evs0 m)); destruct st; cbn in *.
    injection H as -> -> -> -> -> -> -> -> ->. reflexivity.
  - intros Hq.
    pose proof (state_replay_quiet evs m [] Hq) as H.
    rewrite Hm in H.
    cbn [closing errorEvents finallyEvents app replay fold_left record state].
    fold (shownFor payload e).
    destruct (state (replay evs m)); destruct st; cbn in *.
    injection H as -> -> -> -> -> -> -> -> ->. reflexivity.
Qed.

Lemma installed_app tr1 tr2 : installed (tr1 ++ tr2) = installed tr1 ++ installed tr2.
Proof. apply flat_map_app. Qed.

Lemma revoked_app tr1 tr2 : revoked (tr1 ++ tr2) = revoked tr1 ++ revoked tr2.
Proof. apply flat_map_app. Qed.

Lemma revoked_releases batch : revoked (releases batch) = batch.
Proof.
  induction batch as [| u batch IH]; [reflexivity |].
  cbn [releases map revoked flat_map ev_cmd app]. f_equal. exact IH.
Qed.

Lemma releases_observed batch :
  reports (releases batch) = [] /\ downloads (releases batch) = []
  /\ created (releases batch) = [] /\ installed (releases batch) = []
  /\ waited (releases batch) = 0%N.
Proof.
  induction batch as [| u batch [H1 [H2 [H3 [H4 H5]]]]]; repeat split; auto.
Qed.

Lemma quiet_observed evs :
  quiet evs -> installed evs = [] /\ revoked evs = [].
Proof.
  intros H; split; apply flat_map_nil; revert H; apply Forall_impl;
    intros [c r]; destruct c; simpl; congruence.
Qed.

(** What the events of a whole run tell, from those of its [try] block. *)
Lemma run_observed st payload tryEvs o :
  let evs := startEvents st ++ tryEvs ++ closing payload o in
  reports evs = reports tryEvs
  /\ downloads evs = downloads tryEvs
  /\ created evs = created tryEvs
  /\ installed evs = installed tryEvs
  /\ revoked evs = generatedVideos st ++ revoked tryEvs
  /\ waited evs = waited tryEvs.
Proof.
  intros evs. subst evs. unfold startEvents.
  destruct (releases_observed (generatedVideos st)) as [H1 [H2 [H3 [H4 H5]]]].
  rewrite !reports_app, !downloads_app, !created_app, !installed_app,
    !revoked_app, !waited_app, H1, H2, H3, H4, H5, revoked_releases.
  destruct o as [[] | e |]; cbn; rewrite ?app_nil_r; repeat split; lia.
Qed.

Lemma undone_last statuses final :
  Forall undone (map Resolved (statuses ++ [final])) -> isDone final = false.
Proof.
  rewrite map_app. intros H. apply Forall_app in H. destruct H as [_ H].
  inversion H as [| ? ? [o [Ho Hd]] _]; subst. now injection Ho as ->.
Qed.

Lemma undone_rejected (l : list (Settled Operation)) e :
  Forall undone (l ++ [Rejected e]) -> False.
Proof.
  intros H. apply Forall_app in H. destruct H as [_ H].
  inversion H as [| ? ? [o [Ho _]] _]. discriminate.
Qed.

Lemma in_map_Resolved {T} (x : T) l : In (Resolved x) (map Resolved l) -> In x l.
Proof.
  intros H. apply in_map_iff in H. destruct H as [y [Hy Hin]].
  now injection Hy as ->.
Qed.

Lemma no_waits (P : Cmd -> bool) evs :
  (forall ms, P (SetTimeout ms) = false) ->
  Forall (fun e => P (ev_cmd e) = true) evs -> waited evs = 0%N.
Proof.
  intros HP H. induction H as [| [c r] evs Hc _ IH]; [reflexivity |].
  cbn [waited fold_right ev_cmd] in *. change (fold_right _ 0%N evs) with (waited evs).
  rewrite IH. destruct c; try reflexivity. now rewrite HP in Hc.
Qed.

(** No run of the [try] block waits longer than [maxPolls] intervals. *)
Lemma generate_waited R API_KEY payload m :
  (waited (events R (generate API_KEY payload) m) <= 10000 * N.of_nat maxPolls)%N.
Proof.
  pose proof (generate_step R API_KEY payload m) as Hs. cbv zeta in Hs.
  destruct (generateVideos R (trace m) payload) as [op0 | e].
  2:{ destruct Hs as [_ Hv]. rewrite Hv. cbn. lia. }
  destruct Hs as [_ Hv]. rewrite Hv.
  set (m1 := record _ (SetLoadingMessage generatingMessage) tt).
  pose proof (pollLoop_waited R maxPolls op0 0 m1) as Hw.
  rewrite Nat.sub_0_r in Hw.
  cbn [waited fold_right ev_cmd]. change (fold_right _ 0%N ?l) with (waited l).
  rewrite waited_app.
  enough (Hd : waited match exec R (pollLoop maxPolls op0 0) m1 with
                      | (Returned res, m2) => events R (deliver API_KEY (fst res)) m2
                      | _ => []
                      end = 0%N) by lia.
  destruct (exec R (pollLoop maxPolls op0 0) m1) as [[[op' n'] | err |] m2];
    try reflexivity.
  pose proof (deliver_step R API_KEY op' m2) as Hd. cbv zeta in Hd. cbn [fst].
  destruct (isDone op'); [| now destruct Hd as [_ ->]].
  destruct (producedVideos op') as [videos |]; [| now destruct Hd as [_ ->]].
  destruct Hd as [_ ->].
  cbn [waited fold_right ev_cmd]. change (fold_right _ 0%N ?l) with (waited l).
  rewrite waited_app.
  rewrite (no_waits fetchingCmd _ (fun _ => eq_refl)
             (Only_events fetchingCmd R _ _ (fetchVideos_Only API_KEY videos []))).
  now destruct (exec R (fetchVideos API_KEY videos []) _) as [[urls | err |] m3].
Qed.

Lemma shown_timeout payload :
  shownFor payload (newError timeoutMessage) = NText timeoutMessage.
Proof. reflexivity. Qed.

Lemma shown_noResult payload :
  shownFor payload (newError noResultMessage) = NText noResultMessage.
Proof. reflexivity. Qed.

Lemma shown_download payload r :
  shownFor payload (newError (downloadMessage r))
  = classify (Some payload) (downloadMessage r).
Proof. reflexivity. Qed.

(** Every run of [handleSubmit] on a state that passes validation: the
    events before the [try] block, those of the block, those of [catch] and
    [finally]; the handler returns, and the state it leaves. *)
Lemma handleSubmit_run R API_KEY m :
  canSubmit (state m) = true ->
  let st := state m in
  let payload := buildPayload st in
  let p := handleSubmit API_KEY st in
  exists tryEvs outcome,
    events R p m = startEvents st ++ tryEvs ++ closing payload outcome
    /\ TryResult payload (nextURL m) tryEvs outcome
    /\ (waited tryEvs <= 10000 * N.of_nat maxPolls)%N
    /\ fst (exec R p m) = Returned tt
    /\ state (snd (exec R p m)) =
       match outcome with
       | Returned _ => afterSuccess st (created tryEvs)
       | Thrown e => afterFailure st (shownFor payload e)
       | Exhausted => st
       end.
Proof.
  intros Hc st payload p. subst p.
  rewrite (events_handleSubmit_valid R API_KEY st m Hc),
    (exec_handleSubmit_valid R API_KEY st m Hc), events_guarded, exec_guarded.
  fold payload.
  set (m1 := replay (startEvents st) m).
  pose proof (generate_result R API_KEY payload m1) as Hres.
  pose proof (generate_waited R API_KEY payload m1) as Hwait.
  pose proof (exec_replay R (generate API_KEY payload) m1) as Hrep.
  unfold m1 in Hres at 1. rewrite nextURL_started in Hres.
  pose proof (state_closing payload (fst (exec R (generate API_KEY payload) m1))
                st (events R (generate API_KEY payload) m1) m1
                (state_started st m)) as Hst.
  set (tryEvs := events R (generate API_KEY payload) m1) in *.
  exists tryEvs, (fst (exec R (generate API_KEY payload) m1)).
  destruct (exec R (generate API_KEY payload) m1) as [o m2].
  cbn [fst snd] in *. subst m2.
  split; [reflexivity |]. split; [exact Hres |]. split; [exact Hwait |].
  clearbody tryEvs.
  inversion Hres; subst; cbn [fst snd].
  - split; [reflexivity |]. now apply Hst.
  - split; [reflexivity |]. apply Hst.
    repeat constructor. apply (class_weaken _ _ _ polling_quiet), rounds_polling.
  - split; [reflexivity |]. now apply Hst.
  - split; [reflexivity |]. now apply Hst.
  - split; [reflexivity |].
    match goal with
    | H : created _ = seq _ _ |- _ => rewrite H
    end.
    eapply Hst; eauto.
Qed.

(** C4: no run waits longer than [maxPolls] intervals of 10000 ms; and in a
    run where the submission and every poll answer with a status that is
    not done, the loop makes exactly [maxPolls] = 60 rounds, each one a wait
    of 10000 ms, a poll with the handle the previous answer returned and a
    progress message with the incremented counter; then the run fails with
    the timeout error, which is shown as such, and nothing is retrieved. *)
Theorem C4_polling_times_out :
  forall API_KEY R m,
    canSubmit (state m) = true ->
    let st := state m in
    let p := handleSubmit API_KEY st in
    let evs := events R p m in
    (waited evs <= 600000)%N
    /\ (Forall undone (reports evs) ->
        exists op0 answers,
          List.length answers = 60
          /\ evs = startEvents st
                   ++ ([Ev (GenerateVideos (buildPayload st)) (Resolved op0);
                        Ev (SetLoadingMessage generatingMessage) tt]
                       ++ rounds 0 op0 answers)
                   ++ errorEvents (Some (buildPayload st)) (newError timeoutMessage)
                   ++ finallyEvents
          /\ state (snd (exec R p m)) = afterFailure st (NText timeoutMessage)
          /\ downloads evs = [] /\ created evs = [] /\ installed evs = []
          /\ waited evs = 600000%N).
Proof.
  intros K R m Hc st p evs.
  destruct (handleSubmit_run R K m Hc) as [tryEvs [o [Hevs [Hres [Hwait [_ Hst]]]]]].
  fold st p in Hevs, Hst. fold evs in Hevs.
  destruct (run_observed st (buildPayload st) tryEvs o)
    as [Hr [Hd [Hcr [Hi [_ Hw]]]]].
  cbv zeta in Hr, Hd, Hcr, Hi, Hw. rewrite <- Hevs in Hr, Hd, Hcr, Hi, Hw.
  split; [now rewrite Hw |].
  rewrite Hr, Hd, Hcr, Hi, Hw. intros Hu.
  inversion Hres as [e statuses Hrep | op0 answers Htry Hlen Hall
                     | statuses final Hrep _ Hdone
                     | e statuses final videos fanswers k Hrep _ Hdone
                     | statuses final videos fanswers evs0 Hrep _ Hdone];
    subst o.
  - rewrite Hrep in Hu. now apply undone_rejected in Hu.
  - exists op0, answers. split; [exact Hlen |]. subst tryEvs.
    split; [exact Hevs |]. split; [exact Hst |].
    pose proof (rounds_polling 0 op0 answers) as Hp.
    destruct (polling_no_downloads _ Hp) as [Hnd Hnc].
    destruct (quiet_observed _ (class_weaken _ _ _ polling_quiet Hp)) as [Hni _].
    rewrite downloads_app, created_app, installed_app, waited_app,
      Hnd, Hnc, Hni, rounds_length_waited, Hlen.
    repeat split; reflexivity.
  - rewrite Hrep in Hu. apply undone_last in Hu. congruence.
  - rewrite Hrep in Hu. apply undone_last in Hu. congruence.
  - rewrite Hrep in Hu. apply undone_last in Hu. congruence.
Qed.

Lemma C4_times_out_witness :
  let st := state catMachine in
  let p := handleSubmit None st in
  let evs := events neverDone p catMachine in
  (waited evs <= 600000)%N
  /\ exists op0 answers,
       List.length answers = 60
       /\ evs = startEvents st
                ++ ([Ev (GenerateVideos (buildPayload st)) (Resolved op0);
                     Ev (SetLoadingMessage generatingMessage) tt]
                    ++ rounds 0 op0 answers)
                ++ errorEvents (Some (buildPayload st)) (newError timeoutMessage)
                ++ finallyEvents
       /\ state (snd (exec neverDone p catMachine)) = afterFailure st (NText timeoutMessage)
       /\ downloads evs = [] /\ created evs = [] /\ installed evs = []
       /\ waited evs = 600000%N.
Proof.
  destruct (C4_polling_times_out None neverDone catMachine eq_refl) as [Hw Hx].
  split; [exact Hw |]. apply Hx.
  vm_compute. repeat (constructor; [eexists; split; reflexivity |]). constructor.
Defined.

(** C6: in a run where the submission or a poll answers with a status that
    is done and has no video, the run fails with the no-result error, which
    is shown as it is (no known kind); no video is retrieved, no URL is
    created and the batch stays empty. *)
Theorem C6_done_without_videos :
  forall API_KEY R m,
    canSubmit (state m) = true ->
    let st := state m in
    let p := handleSubmit API_KEY st in
    let evs := events R p m in
    (exists o, In (Resolved o) (reports evs)
               /\ isDone o = true /\ producedVideos o = None) ->
    fst (exec R p m) = Returned tt
    /\ In (Ev (ConsoleError (js "Error generating video:")
                (newError noResultMessage)) tt) evs
    /\ classify (Some (buildPayload st)) noResultMessage = NText noResultMessage
    /\ parseError noResultMessage = NText noResultMessage
    /\ state (snd (exec R p m)) = afterFailure st (NText noResultMessage)
    /\ downloads evs = [] /\ created evs = [] /\ installed evs = [].
Proof.
  intros K R m Hc st p evs [o [Hin [Hod Hov]]].
  destruct (handleSubmit_run R K m Hc) as [tryEvs [out [Hevs [Hres [_ [Hret Hst]]]]]].
  fold st p in Hevs, Hst, Hret. fold evs in Hevs.
  destruct (run_observed st (buildPayload st) tryEvs out)
    as [Hr [Hd [Hcr [Hi _]]]].
  cbv zeta in Hr, Hd, Hcr, Hi. rewrite <- Hevs in Hr, Hd, Hcr, Hi.
  rewrite Hr in Hin. rewrite Hd, Hcr, Hi.
  assert (Hno : forall statuses, Forall notDone statuses -> ~ In o statuses).
  { intros statuses Hall Ho. rewrite Forall_forall in Hall.
    specialize (Hall o Ho). unfold notDone in Hall. congruence. }
  inversion Hres as [e statuses Hrep Hall
                     | op0 answers Htry Hlen Hall
                     | statuses final Hrep Hall Hdone Hnone Hnd Hnc Hq
                     | e statuses final videos fanswers k Hrep Hall Hdone Hsome
                     | statuses final videos fanswers evs0 Hrep Hall Hdone Hsome];
    subst out.
  - exfalso. rewrite Hrep in Hin. apply in_app_or in Hin.
    destruct Hin as [Hin | [Hin | []]]; [| discriminate].
    apply in_map_Resolved in Hin. exact (Hno _ Hall Hin).
  - exfalso. subst tryEvs.
    cbn [reports flat_map submitted polled app] in Hin.
    change (flat_map _ ?l) with (reports l) in Hin.
    rewrite rounds_reports in Hin.
    change (In (Resolved o) (map Resolved (op0 :: answers))) in Hin.
    apply in_map_Resolved in Hin. exact (Hno _ Hall Hin).
  - split; [exact Hret |]. split.
    { rewrite Hevs. apply in_or_app. right. apply in_or_app. right. left.
      reflexivity. }
    split; [reflexivity |]. split; [reflexivity |]. split; [exact Hst |].
    destruct (quiet_observed _ Hq) as [Hni _]. auto.
  - exfalso. rewrite Hrep in Hin. apply in_map_Resolved in Hin.
    apply in_app_or in Hin. destruct Hin as [Hin | [<- | []]].
    + exact (Hno _ Hall Hin).
    + congruence.
  - exfalso. rewrite Hrep in Hin. apply in_map_Resolved in Hin.
    apply in_app_or in Hin. destruct Hin as [Hin | [<- | []]].
    + exact (Hno _ Hall Hin).
    + congruence.
Qed.

Lemma C6_no_result_witness :
  let st := state catMachine in
  let p := handleSubmit None st in
  let evs := events emptyResult p catMachine in
  fst (exec emptyResult p catMachine) = Returned tt
  /\ In (Ev (ConsoleError (js "Error generating video:")
              (newError noResultMessage)) tt) evs
  /\ classify (Some (buildPayload st)) noResultMessage = NText noResultMessage
  /\ parseError noResultMessage = NText noResultMessage
  /\ state (snd (exec emptyResult p catMachine)) = afterFailure st (NText noResultMessage)
  /\ downloads evs = [] /\ created evs = [] /\ installed evs = [].
Proof.
  apply (C6_done_without_videos None emptyResult catMachine eq_refl).
  exists (finishedOperation []). split; [| split; reflexivity].
  left. reflexivity.
Defined.

(** C5: in a run where a retrieval answers with a response that is not ok,
    the run fails with the download error made from that response, the
    [catch] block classifies its message, and the batch stays empty: none of
    the videos is installed.  A batch is installed only by a run in which
    the last status had videos and every one of them was retrieved with an
    ok response; the batch then has one URL per video. *)
Theorem C5_download_all_or_nothing :
  forall API_KEY R m,
    canSubmit (state m) = true ->
    let st := state m in
    let p := handleSubmit API_KEY st in
    let evs := events R p m in
    (forall r, In (Resolved r) (downloads evs) -> ok r = false ->
       In (Ev (ConsoleError (js "Error generating video:")
                (newError (downloadMessage r))) tt) evs
       /\ state (snd (exec R p m))
          = afterFailure st (classify (Some (buildPayload st)) (downloadMessage r))
       /\ generatedVideos (state (snd (exec R p m))) = []
       /\ installed evs = [])
    /\ (generatedVideos (state (snd (exec R p m))) <> [] ->
        exists final videos answers,
          In (Resolved final) (reports evs)
          /\ isDone final = true
          /\ producedVideos final = Some videos
          /\ downloads evs = map Resolved answers
          /\ Forall succeeded answers
          /\ List.length answers = List.length videos
          /\ generatedVideos (state (snd (exec R p m)))
             = seq (nextURL m) (List.length videos)
          /\ installed evs = seq (nextURL m) (List.length videos)).
Proof.
  intros K R m Hc st p evs.
  destruct (handleSubmit_run R K m Hc) as [tryEvs [out [Hevs [Hres [_ [Hret Hst]]]]]].
  fold st p in Hevs, Hst, Hret. fold evs in Hevs.
  destruct (run_observed st (buildPayload st) tryEvs out)
    as [Hr [Hd [Hcr [Hi _]]]].
  cbv zeta in Hr, Hd, Hcr, Hi. rewrite <- Hevs in Hr, Hd, Hcr, Hi.
  rewrite Hr, Hd, Hi.
  inversion Hres as [e statuses Hrep Hall Hnd Hnc Hq
                     | op0 answers Htry Hlen Hall
                     | statuses final Hrep Hall Hdone Hnone Hnd Hnc Hq
                     | e statuses final videos fanswers k Hrep Hall Hdone Hsome
                         Hok Hk Hcre Hq Hdl
                     | statuses final videos fanswers evs0 Hrep Hall Hdone Hsome
                         Hdl Hok Hlen Hcre Htry Hq];
    subst out.
  - split; [rewrite Hnd; intros r [] |].
    rewrite Hst. intros H. now contradiction H.
  - split.
    + subst tryEvs. intros r Hin. exfalso.
      pose proof (rounds_polling 0 op0 answers) as Hp.
      destruct (polling_no_downloads _ Hp) as [Hnd _].
      rewrite downloads_app, Hnd in Hin. exact Hin.
    + rewrite Hst. intros H. now contradiction H.
  - split; [rewrite Hnd; intros r [] |].
    rewrite Hst. intros H. now contradiction H.
  - split; [| rewrite Hst; intros H; now contradiction H].
    intros r Hin Hbad.
    assert (He : e = newError (downloadMessage r)).
    { assert (Hgood : ~ In (Resolved r) (map Resolved fanswers)).
      { intros H. apply in_map_Resolved in H. rewrite Forall_forall in Hok.
        specialize (Hok r H). unfold succeeded in Hok. congruence. }
      destruct Hdl as [Hdl | [Hdl | [r' [Hdl [Hr' He]]]]]; rewrite Hdl in Hin.
      - contradiction.
      - apply in_app_or in Hin. destruct Hin as [Hin | [Hin | []]];
          [contradiction | discriminate].
      - apply in_app_or in Hin. destruct Hin as [Hin | [Hin | []]];
          [contradiction |]. now injection Hin as ->. }
    subst e. rewrite Hst.
    split.
    { rewrite Hevs. apply in_or_app. right. apply in_or_app. right. left.
      reflexivity. }
    split; [reflexivity |]. split; [reflexivity |].
    destruct (quiet_observed _ Hq) as [Hni _]. exact Hni.
  - split.
    + intros r Hin Hbad. exfalso. rewrite Hdl in Hin.
      apply in_map_Resolved in Hin. rewrite Forall_forall in Hok.
      specialize (Hok r Hin). unfold succeeded in Hok. congruence.
    + intros _. exists final, videos, fanswers.
      split; [rewrite Hrep; apply in_map, in_or_app; right; now left |].
      split; [exact Hdone |]. split; [exact Hsome |]. split; [exact Hdl |].
      split; [exact Hok |]. split; [exact Hlen |].
      rewrite Hst, Hcre. split; [reflexivity |].
      rewrite Htry, installed_app. destruct (quiet_observed _ Hq) as [-> _].
      cbn. now rewrite app_nil_r.
Qed.

Lemma C5_all_or_nothing_witness :
  let st := state catMachine in
  let p := handleSubmit None st in
  (let evs := events secondFails p catMachine in
   In (Ev (ConsoleError (js "Error generating video:")
            (newError (downloadMessage forbidden))) tt) evs
   /\ state (snd (exec secondFails p catMachine))
      = afterFailure st (classify (Some (buildPayload st)) (downloadMessage forbidden))
   /\ generatedVideos (state (snd (exec secondFails p catMachine))) = []
   /\ installed evs = [])
  /\ (let evs := events serving p catMachine in
      exists final videos answers,
        In (Resolved final) (reports evs)
        /\ isDone final = true
        /\ producedVideos final = Some videos
        /\ downloads evs = map Resolved answers
        /\ Forall succeeded answers
        /\ List.length answers = List.length videos
        /\ generatedVideos (state (snd (exec serving p catMachine)))
           = seq (nextURL catMachine) (List.length videos)
        /\ installed evs = seq (nextURL catMachine) (List.length videos)).
Proof.
  split.
  - apply (proj1 (C5_download_all_or_nothing None secondFails catMachine eq_refl)
             forbidden).
    + right. left. reflexivity.
    + reflexivity.
  - apply (proj2 (C5_download_all_or_nothing None serving catMachine eq_refl)).
    vm_compute. discriminate.
Defined.

Example download_error_shown :
  classify (Some (buildPayload (state catMachine))) (downloadMessage forbidden)
  = NText (js "Failed to download video: Forbidden").
Proof. reflexivity. Qed.

(** ** At most one run in flight, and the ledger of URLs *)

Lemma Pending_bind_calm {A} (p : Prog A) (f : A -> Prog unit) acc :
  Only calmCmd p -> Total p -> (forall a, Pending acc (f a)) ->
  Pending acc (bind p f).
Proof.
  induction p as [a | e | | c k IH]; simpl; intros Ho Ht Hf; auto.
  - constructor.
  - contradiction.
  - destruct Ho as [Hc Hk]. apply pending_calm; auto.
Qed.

Lemma polling_calm c : pollingCmd c = true -> calmCmd c = true.
Proof. destruct c; simpl; auto. Qed.

Lemma Only_weaken {A} (P Q : Cmd -> bool) (p : Prog A) :
  (forall c, P c = true -> Q c = true) -> Only P p -> Only Q p.
Proof.
  intros H. induction p as [a | e | | c k IH]; simpl; auto.
  intros [Hc Hk]. split; auto.
Qed.

Lemma fetchVideos_Pending API_KEY videos acc :
  Pending acc (videoUrls <- fetchVideos API_KEY videos acc ;;
               perform (SetGeneratedVideos videoUrls)).
Proof.
  revert acc; induction videos as [| v videos IH]; intros acc.
  - apply pending_install. reflexivity.
  - cbn [fetchVideos]. destruct (video v) as [vd |]; [| constructor].
    cbn [bind perform]. apply pending_calm; [reflexivity |].
    intros [resp | e]; cbn [settle bind]; [| constructor].
    destruct (ok resp); cbn [negb bind perform]; [| constructor].
    apply pending_calm; [reflexivity |].
    intros [bytes | e]; cbn [settle bind]; [| constructor].
    apply pending_create. intros u. apply IH.
Qed.

Lemma deliver_Pending API_KEY operation : Pending [] (deliver API_KEY operation).
Proof.
  unfold deliver. destruct (negb (isDone operation)); [constructor |].
  destruct (producedVideos operation) as [videos |]; [| constructor].
  cbn [bind perform]. apply pending_calm; [reflexivity |]. intros _.
  apply fetchVideos_Pending.
Qed.

Lemma generate_suspended API_KEY payload :
  generate API_KEY payload = Vis (GenerateVideos payload) (afterSubmission API_KEY).
Proof. reflexivity. Qed.

Lemma afterSubmission_Pending API_KEY r : Pending [] (afterSubmission API_KEY r).
Proof.
  unfold afterSubmission. destruct r as [op0 | e]; cbn [settle bind]; [| constructor].
  cbn [perform bind]. apply pending_calm; [reflexivity |]. intros _.
  apply Pending_bind_calm.
  - apply (Only_weaken pollingCmd calmCmd _ polling_calm), pollLoop_Only.
  - apply pollLoop_Total. lia.
  - intros res. apply deliver_Pending.
Qed.

Lemma record_neutral m c r :
  neutralCmd c = true ->
  revoked (trace (record m c r)) = revoked (trace m)
  /\ installed (trace (record m c r)) = installed (trace m)
  /\ nextURL (record m c r) = nextURL m
  /\ generatedVideos (state (record m c r)) = generatedVideos (state m)
  /\ isLoading (state (record m c r)) = isLoading (state m).
Proof.
  intros H. cbn [record trace nextURL state].
  rewrite revoked_app, installed_app.
  destruct c; try discriminate; cbn; rewrite ?app_nil_r; auto.
Qed.

Lemma Ledger_transport m m' :
  revoked (trace m') = revoked (trace m) ->
  installed (trace m') = installed (trace m) ->
  nextURL m <= nextURL m' ->
  generatedVideos (state m') = generatedVideos (state m) ->
  Ledger m -> Ledger m'.
Proof.
  intros Hr Hi Hn Hg [L1 L2 L3 L4 L5 L6].
  constructor; rewrite ?Hr, ?Hi, ?Hg; auto.
  intros u Hu. specialize (L4 u Hu). lia.
Qed.

Lemma Owned_transport acc m m' :
  installed (trace m') = installed (trace m) ->
  nextURL m <= nextURL m' ->
  Owned acc m -> Owned acc m'.
Proof.
  intros Hi Hn [Hd Ha]. split; [exact Hd |].
  intros u Hu. destruct (Ha u Hu) as [H1 H2]. rewrite Hi. split; [lia | exact H2].
Qed.

Lemma record_setLoading m v :
  revoked (trace (record m (SetIsLoading v) tt)) = revoked (trace m)
  /\ installed (trace (record m (SetIsLoading v) tt)) = installed (trace m)
  /\ nextURL (record m (SetIsLoading v) tt) = nextURL m
  /\ generatedVideos (state (record m (SetIsLoading v) tt)) = generatedVideos (state m)
  /\ isLoading (state (record m (SetIsLoading v) tt)) = v.
Proof.
  cbn [record trace nextURL state]. rewrite revoked_app, installed_app.
  cbn; rewrite ?app_nil_r; auto.
Qed.

(** Releasing the whole current batch and emptying it keeps the ledger. *)
Lemma Ledger_release_all m :
  Ledger m ->
  let m' := record (replay (releases (generatedVideos (state m))) m)
                   (SetGeneratedVideos []) tt in
  Ledger m'
  /\ generatedVideos (state m') = []
  /\ nextURL m' = nextURL m
  /\ installed (trace m') = installed (trace m)
  /\ isLoading (state m') = isLoading (state m)
  /\ revoked (trace m') = revoked (trace m) ++ generatedVideos (state m).
Proof.
  intros [L1 L2 L3 L4 L5 L6] m'.
  destruct (releases_observed (generatedVideos (state m))) as [_ [_ [_ [Hi _]]]].
  assert (Hrev : revoked (trace m') = revoked (trace m) ++ generatedVideos (state m)).
  { subst m'. cbn [record trace]. rewrite trace_replay, !revoked_app, revoked_releases.
    cbn. now rewrite app_nil_r. }
  assert (Hins : installed (trace m') = installed (trace m)).
  { subst m'. cbn [record trace]. rewrite trace_replay, !installed_app, Hi.
    cbn. now rewrite !app_nil_r. }
  assert (Hnext : nextURL m' = nextURL m).
  { subst m'. cbn [record nextURL]. apply nextURL_replay_releases. }
  assert (Hgen : generatedVideos (state m') = []) by reflexivity.
  assert (Hload : isLoading (state m') = isLoading (state m)).
  { subst m'. cbn [record state applyCmd isLoading].
    now rewrite state_replay_releases. }
  split; [| auto].
  constructor; rewrite ?Hrev, ?Hins, ?Hnext, ?Hgen; auto.
  - apply NoDup_app; auto. intros u Hu Hc. apply L5 in Hc. tauto.
  - apply incl_app; auto. intros u Hu. apply L5 in Hu. tauto.
  - intros u. split; [intros [] |]. intros [Hin Hnot].
    apply Hnot, in_or_app. right. apply L5. split; auto.
    intros Hr. apply Hnot, in_or_app. now left.
  - constructor.
Qed.

Lemma Ledger_create m b :
  Ledger m -> Ledger (record m (CreateObjectURL b) (nextURL m)).
Proof.
  apply Ledger_transport; cbn [record trace nextURL state applyCmd];
    rewrite ?revoked_app, ?installed_app; cbn; rewrite ?app_nil_r; auto.
Qed.

Lemma Owned_create acc m b :
  Ledger m -> Owned acc m ->
  Owned (acc ++ [nextURL m]) (record m (CreateObjectURL b) (nextURL m)).
Proof.
  intros L [Hd Ha]. split.
  - apply NoDup_app; auto.
    + repeat constructor. intros [].
    + intros u Hu [<- | []]. destruct (Ha _ Hu). lia.
  - cbn [record trace nextURL]. rewrite installed_app. cbn. rewrite app_nil_r.
    intros u Hu. apply in_app_or in Hu. destruct Hu as [Hu | [<- | []]].
    + destruct (Ha u Hu). split; [lia | auto].
    + split; [lia |]. intros Hi. apply (installed_were_created _ L) in Hi. lia.
Qed.

(** Installing the URLs a run owns, when the batch is empty, keeps the
    ledger. *)
Lemma Ledger_install acc m :
  Ledger m -> Owned acc m -> generatedVideos (state m) = [] ->
  Ledger (record m (SetGeneratedVideos acc) tt).
Proof.
  intros [L1 L2 L3 L4 L5 L6] [Hd Ha] Hempty.
  constructor; cbn [record trace nextURL state applyCmd generatedVideos];
    rewrite ?revoked_app, ?installed_app; cbn [installed revoked flat_map ev_cmd app];
    rewrite ?app_nil_r; auto.
  - intros u Hu. apply in_or_app. left. auto.
  - apply NoDup_app; auto. intros u Hu Hc. destruct (Ha u Hc). contradiction.
  - intros u Hu. apply in_app_or in Hu. destruct Hu as [Hu | Hu]; auto.
    now destruct (Ha u Hu).
  - intros u. split.
    + intros Hu. split; [apply in_or_app; now right |].
      intros Hr. apply L2 in Hr. destruct (Ha u Hu). contradiction.
    + intros [Hu Hnr]. apply in_app_or in Hu. destruct Hu as [Hu | Hu]; auto.
      exfalso. assert (Hc : In u (generatedVideos (state m))) by (apply L5; auto).
      rewrite Hempty in Hc. exact Hc.
Qed.

Lemma Ledger_neutral m c r :
  neutralCmd c = true -> Ledger m -> Ledger (record m c r).
Proof.
  intros H. destruct (record_neutral m c r H) as [H1 [H2 [H3 [H4 _]]]].
  apply Ledger_transport; auto; lia.
Qed.

Lemma Owned_neutral acc m c r :
  neutralCmd c = true -> Owned acc m -> Owned acc (record m c r).
Proof.
  intros H. destruct (record_neutral m c r H) as [_ [H2 [H3 _]]].
  apply Owned_transport; auto; lia.
Qed.

Lemma Ledger_setLoading m v : Ledger m -> Ledger (record m (SetIsLoading v) tt).
Proof.
  destruct (record_setLoading m v) as [H1 [H2 [H3 [H4 _]]]].
  apply Ledger_transport; auto; lia.
Qed.

Lemma calm_neutral c : calmCmd c = true -> neutralCmd c = true.
Proof. destruct c; simpl; auto. Qed.

(** Resuming a run in flight keeps the ledger; the run either ends, with the
    loading flag cleared, or is suspended again, still a run in flight. *)
Lemma advance_guard R payload acc body :
  Pending acc body ->
  forall m,
    Ledger m -> Owned acc m ->
    isLoading (state m) = true -> generatedVideos (state m) = [] ->
    Ledger (fst (advance R (guard payload body) m))
    /\ match snd (advance R (guard payload body) m) with
       | None => isLoading (state (fst (advance R (guard payload body) m))) = false
       | Some s =>
           isLoading (state (fst (advance R (guard payload body) m))) = true
           /\ generatedVideos (state (fst (advance R (guard payload body) m))) = []
           /\ exists acc', Running s acc'
                           /\ Owned acc' (fst (advance R (guard payload body) m))
       end.
Proof.
  induction 1 as [acc | acc e | acc c k Hc Hk IH | acc b k Hk IH | acc k Hk];
    intros m L O Hl Hg.
  - cbn. split; [| reflexivity].
    apply Ledger_neutral; [reflexivity |]. now apply Ledger_setLoading.
  - cbn. split; [| reflexivity].
    apply Ledger_neutral; [reflexivity |]. apply Ledger_setLoading.
    repeat (apply Ledger_neutral; [reflexivity |]). exact L.
  - unfold guard. cbn [tryCatch tryFinally advance].
    destruct (isAwaited c) eqn:Ha.
    + cbn [fst snd]. split; [exact L |]. split; [exact Hl |]. split; [exact Hg |].
      exists acc. split; [| exact O]. split; [exact Ha |].
      exists payload, k. split; [reflexivity | exact Hk].
    + destruct (record_neutral m c (respond R m c) (calm_neutral c Hc))
        as [_ [_ [_ [H4 H5]]]].
      apply IH.
      * now apply Ledger_neutral; [apply calm_neutral |].
      * now apply Owned_neutral; [apply calm_neutral |].
      * now rewrite H5.
      * now rewrite H4.
  - unfold guard. cbn [tryCatch tryFinally advance isAwaited respond].
    apply IH.
    + now apply Ledger_create.
    + now apply Owned_create.
    + exact Hl.
    + exact Hg.
  - unfold guard. cbn [tryCatch tryFinally advance isAwaited respond].
    rewrite Hk. cbn. split; [| reflexivity].
    apply Ledger_neutral; [reflexivity |]. apply Ledger_setLoading.
    now apply Ledger_install.
Qed.

Lemma advance_plain R (p : Prog unit) m :
  Only plainCmd p ->
  snd (advance R p m) = None
  /\ revoked (trace (fst (advance R p m))) = revoked (trace m)
  /\ installed (trace (fst (advance R p m))) = installed (trace m)
  /\ nextURL (fst (advance R p m)) = nextURL m
  /\ generatedVideos (state (fst (advance R p m))) = generatedVideos (state m)
  /\ isLoading (state (fst (advance R p m))) = isLoading (state m).
Proof.
  revert m; induction p as [a | e | | c k IH]; intros m Hp;
    try (cbn; repeat split; reflexivity).
  destruct Hp as [Hc Hk]. unfold plainCmd in Hc. apply andb_prop in Hc.
  destruct Hc as [Hn Ha]. apply negb_true_iff in Ha.
  cbn [advance]. rewrite Ha.
  destruct (IH (respond R m c) (record m c (respond R m c)) (Hk (respond R m c)))
    as [H1 [H2 [H3 [H4 [H5 H6]]]]].
  destruct (record_neutral m c (respond R m c) Hn) as [G2 [G3 [G4 [G5 G6]]]].
  repeat split; congruence.
Qed.

Lemma dispatch_plain R handler pg :
  Only plainCmd (handler (state (machine pg))) ->
  PageInv pg -> PageInv (dispatch R handler pg).
Proof.
  intros Hp [L Hin]. unfold dispatch.
  destruct (advance_plain R _ (machine pg) Hp) as [H1 [H2 [H3 [H4 [H5 H6]]]]].
  destruct (advance R (handler (state (machine pg))) (machine pg)) as [m' s].
  cbn [fst snd] in *. subst s. split; cbn [machine inflight].
  - revert L. apply Ledger_transport; auto; lia.
  - destruct (inflight pg) as [| s [| s' rest]]; auto.
    + congruence.
    + destruct Hin as [Hl [Hg [acc [Hr Ho]]]].
      split; [congruence |]. split; [congruence |].
      exists acc. split; [exact Hr |].
      revert Ho. apply Owned_transport; auto; lia.
Qed.

Lemma advance_releases R batch (k : Prog unit) m :
  advance R (forEach batch (fun u => perform (RevokeObjectURL u)) ;; k) m
  = advance R k (replay (releases batch) m).
Proof.
  revert m; induction batch as [| u batch IH]; intros m; [reflexivity |].
  cbn [forEach perform bind advance isAwaited respond]. apply IH.
Qed.

Lemma advance_handleClear R st m :
  advance R (handleClear st) m = (replay (clearEvents st) m, None).
Proof.
  unfold handleClear, clearEvents. rewrite advance_releases, replay_app.
  reflexivity.
Qed.

(** A valid submission runs up to the call of the service and is suspended
    there. *)
Lemma advance_handleSubmit_valid R API_KEY st m :
  canSubmit st = true ->
  advance R (handleSubmit API_KEY st) m
  = (replay (startEvents st) m,
     Some (Awaiting (GenerateVideos (buildPayload st))
                    (fun r => guard (buildPayload st) (afterSubmission API_KEY r)))).
Proof.
  intros H. rewrite (handleSubmit_valid API_KEY st H).
  cbn [perform bind advance isAwaited respond].
  rewrite advance_releases. unfold startEvents.
  rewrite (replay_app [_; _]), replay_app. reflexivity.
Qed.

Lemma handleSubmit_invalid_plain API_KEY st :
  canSubmit st = false -> Only plainCmd (handleSubmit API_KEY st).
Proof.
  unfold canSubmit, handleSubmit. intros H. apply orb_false_elim in H.
  destruct H as [-> ->]. cbn. repeat split.
Qed.

Lemma PageInv_initial : PageInv initialPage.
Proof.
  split; [| reflexivity].
  constructor; cbn; try constructor; try (intros u []); try tauto.
Qed.

Lemma PageInv_clear R pg : PageInv pg -> PageInv (dispatch R handleClear pg).
Proof.
  intros [L Hin]. unfold dispatch. rewrite advance_handleClear.
  unfold clearEvents. rewrite replay_app. cbn [replay fold_left].
  destruct (Ledger_release_all (machine pg) L) as [L' [Hg [Hn [Hi [Hl _]]]]].
  set (m' := record (replay (releases (generatedVideos (state (machine pg))))
                            (machine pg)) (SetGeneratedVideos []) tt) in *.
  split; cbn [machine inflight].
  - repeat (apply Ledger_neutral; [reflexivity |]). exact L'.
  - destruct (inflight pg) as [| s [| s' rest]]; auto.
    + cbn. cbn in Hl. congruence.
    + destruct Hin as [Hl' [Hg' [acc [Hr Ho]]]].
      split; [cbn; cbn in Hl; congruence |]. split; [reflexivity |].
      exists acc. split; [exact Hr |].
      repeat (apply Owned_neutral; [reflexivity |]).
      revert Ho. apply Owned_transport; auto; lia.
Qed.

Lemma PageInv_submit R API_KEY pg :
  PageInv pg -> PageInv (step API_KEY R pg Submit).
Proof.
  intros Hinv. cbn [step]. unfold submitDisabled.
  destruct (isLoading (state (machine pg))) eqn:Hload; [exact Hinv |].
  destruct (canSubmit (state (machine pg))) eqn:Hc.
  - destruct Hinv as [L Hin]. unfold dispatch.
    rewrite (advance_handleSubmit_valid R API_KEY _ _ Hc).
    destruct (inflight pg) as [| s [| s' rest]];
      [| destruct Hin; congruence | contradiction].
    unfold startEvents. rewrite (replay_app [_; _]), replay_app.
    cbn [replay fold_left app].
    set (m0 := record (record (machine pg) PreventDefault tt) (SetIsLoading true) tt).
    assert (L0 : Ledger m0).
    { apply Ledger_setLoading. now apply Ledger_neutral. }
    assert (Hg0 : generatedVideos (state m0) = generatedVideos (state (machine pg)))
      by reflexivity.
    rewrite <- Hg0.
    destruct (Ledger_release_all m0 L0) as [L' [Hg [Hn [Hi [Hl _]]]]].
    set (m' := record (replay (releases (generatedVideos (state m0))) m0)
                      (SetGeneratedVideos []) tt) in *.
    split; cbn [machine inflight app].
    + now apply Ledger_neutral.
    + split; [exact Hl |]. split; [exact Hg |].
      exists []. split.
      * split; [reflexivity |].
        exists (buildPayload (state (machine pg))), (afterSubmission API_KEY).
        split; [reflexivity |]. apply afterSubmission_Pending.
      * split; [constructor | intros u []].
  - apply dispatch_plain; [| exact Hinv].
    now apply handleSubmit_invalid_plain.
Qed.

Lemma PageInv_resume R i pg : PageInv pg -> PageInv (resume R i pg).
Proof.
  intros Hinv. unfold resume.
  destruct (nth_error (inflight pg) i) as [[c k] |] eqn:Hnth; [| exact Hinv].
  destruct Hinv as [L Hin].
  destruct (inflight pg) as [| s [| s' rest]] eqn:Hfl;
    [destruct i; discriminate | | contradiction].
  destruct i as [| i]; [| destruct i; discriminate].
  cbn in Hnth. injection Hnth as ->.
  destruct Hin as [Hl [Hg [acc [[Ha [payload [body [-> Hp]]]] Ho]]]].
  set (r := respond R (machine pg) c).
  assert (Hn : neutralCmd c = true) by (destruct c; try discriminate; reflexivity).
  destruct (record_neutral (machine pg) c r Hn) as [_ [_ [_ [H4 H5]]]].
  destruct (advance_guard R payload acc (body r) (Hp r) (record (machine pg) c r))
    as [L' Hs].
  - now apply Ledger_neutral.
  - now apply Owned_neutral.
  - congruence.
  - congruence.
  - destruct (advance R (guard payload (body r)) (record (machine pg) c r))
      as [m' s']. cbn [fst snd] in *.
    split; cbn [machine inflight firstn skipn app].
    + exact L'.
    + destruct s' as [s' |]; cbn [app]; exact Hs.
Qed.

Lemma PageInv_step R API_KEY pg i :
  PageInv pg -> PageInv (step API_KEY R pg i).
Proof.
  intros Hinv. destruct i; cbn [step].
  - now apply PageInv_submit.
  - now apply PageInv_clear.
  - apply dispatch_plain; [cbn; auto | exact Hinv].
  - apply dispatch_plain; [cbn; auto | exact Hinv].
  - apply dispatch_plain; [cbn; auto | exact Hinv].
  - apply dispatch_plain; [cbn; auto | exact Hinv].
  - apply dispatch_plain; [cbn; auto | exact Hinv].
  - apply dispatch_plain; [cbn; auto | exact Hinv].
  - destruct (nth_error aspectRatios i) as [ratio |]; [| exact Hinv].
    apply dispatch_plain; [cbn; auto | exact Hinv].
  - apply dispatch_plain; [cbn; auto | exact Hinv].
  - now apply PageInv_resume.
Qed.

(** Every page reached from the initial one satisfies the invariant. *)
Lemma PageInv_run R API_KEY inputs pg :
  PageInv pg -> PageInv (run API_KEY R inputs pg).
Proof.
  revert pg; induction inputs as [| i inputs IH]; intros pg H; [exact H |].
  cbn [run fold_left]. apply IH. now apply PageInv_step.
Qed.

Lemma released_count m :
  Ledger m ->
  forall u, In u (installed (trace m)) ->
    (In u (generatedVideos (state m))
     /\ count_occ Nat.eq_dec (revoked (trace m)) u = 0)
    \/ (~ In u (generatedVideos (state m))
        /\ count_occ Nat.eq_dec (revoked (trace m)) u = 1).
Proof.
  intros [L1 L2 L3 L4 L5 L6] u Hu.
  destruct (in_dec Nat.eq_dec u (revoked (trace m))) as [Hr | Hr].
  - right. split.
    + intros Hc. apply L5 in Hc. tauto.
    + now apply NoDup_count_occ'.
  - left. split.
    + apply L5. tauto.
    + now apply count_occ_not_In.
Qed.

Lemma released_all m :
  Ledger m -> generatedVideos (state m) = [] ->
  forall u, In u (installed (trace m)) ->
            count_occ Nat.eq_dec (revoked (trace m)) u = 1.
Proof.
  intros L Hg u Hu. destruct (released_count m L u Hu) as [[Hc _] | [_ Hc]]; auto.
  rewrite Hg in Hc. contradiction.
Qed.

(** C1: while the loading flag is set, a submission of the form changes
    nothing: the page (state, trace of commands, handlers in flight) stays
    as it is, so no call is sent and the batch is untouched.  On every page
    reached from the initial one at most one run is in flight, the flag is
    set exactly while one is, and once none is a submission starts
    [handleSubmit] again.  A run that passes validation always ends, with
    the flag cleared, whether it succeeded or failed. *)
Theorem C1_submit_while_busy :
  forall API_KEY R,
    (forall pg, isLoading (state (machine pg)) = true ->
                step API_KEY R pg Submit = pg)
    /\ (forall inputs,
          let pg := run API_KEY R inputs initialPage in
          List.length (inflight pg) <= 1
          /\ (inflight pg = [] <-> isLoading (state (machine pg)) = false)
          /\ (inflight pg = [] ->
              step API_KEY R pg Submit = dispatch R (handleSubmit API_KEY) pg))
    /\ (forall m, canSubmit (state m) = true ->
          fst (exec R (handleSubmit API_KEY (state m)) m) = Returned tt
          /\ isLoading (state (snd (exec R (handleSubmit API_KEY (state m)) m)))
             = false).
Proof.
  intros K R. split; [| split].
  - intros pg H. cbn [step]. unfold submitDisabled. now rewrite H.
  - intros inputs pg.
    destruct (PageInv_run R K inputs initialPage PageInv_initial) as [_ Hin].
    fold pg in Hin.
    assert (Hiff : inflight pg = [] <-> isLoading (state (machine pg)) = false).
    { destruct (inflight pg) as [| s [| s' rest]]; [tauto | | contradiction].
      destruct Hin as [Hl _]. split; [discriminate | congruence]. }
    split; [| split; [exact Hiff |]].
    + destruct (inflight pg) as [| s [| s' rest]]; cbn; try lia; contradiction.
    + intros He. apply Hiff in He. cbn [step]. unfold submitDisabled.
      now rewrite He.
  - intros m Hc.
    destruct (handleSubmit_run R K m Hc) as [tryEvs [o [_ [Hres [_ [Hret Hst]]]]]].
    split; [exact Hret |]. rewrite Hst.
    inversion Hres; reflexivity.
Qed.

Lemma C1_busy_witness :
  step None neverDone busyPage Submit = busyPage
  /\ (let pg := run None (rejecting (js "unavailable"))
                    [ChangePrompt (js "a cat"); Submit; Settles 0] initialPage in
      step None (rejecting (js "unavailable")) pg Submit
      = dispatch (rejecting (js "unavailable")) (handleSubmit None) pg)
  /\ (fst (exec serving (handleSubmit None (state catMachine)) catMachine) = Returned tt
      /\ isLoading (state (snd (exec serving (handleSubmit None (state catMachine))
                                     catMachine))) = false).
Proof.
  split; [| split].
  - apply (proj1 (C1_submit_while_busy None neverDone) busyPage). reflexivity.
  - apply (proj1 (proj2 (C1_submit_while_busy None (rejecting (js "unavailable"))))
             [ChangePrompt (js "a cat"); Submit; Settles 0]).
    reflexivity.
  - apply (proj2 (proj2 (C1_submit_while_busy None serving)) catMachine).
    reflexivity.
Defined.

(** C3: on every page reached from the initial one no URL has been released
    twice, no URL has been installed twice, only installed URLs have been
    released, and every URL ever installed is either in the current batch
    and not released, or out of it and released exactly once.  Clearing
    releases every URL of the current batch and empties it, after which
    every URL ever installed has been released exactly once.  A submission
    that starts a run releases the whole current batch and empties it before
    it calls the service, so before the run can install anything. *)
Theorem C3_urls_released_exactly_once :
  forall API_KEY R inputs,
    let pg := run API_KEY R inputs initialPage in
    let tr := trace (machine pg) in
    let batch := generatedVideos (state (machine pg)) in
    NoDup (revoked tr)
    /\ NoDup (installed tr)
    /\ (forall u, In u (revoked tr) -> In u (installed tr))
    /\ (forall u, In u (installed tr) ->
          (In u batch /\ count_occ Nat.eq_dec (revoked tr) u = 0)
          \/ (~ In u batch /\ count_occ Nat.eq_dec (revoked tr) u = 1))
    /\ (forall u, In u batch -> In u (installed tr))
    /\ (let pg' := step API_KEY R pg ClickClear in
        trace (machine pg') = tr ++ clearEvents (state (machine pg))
        /\ revoked (trace (machine pg')) = revoked tr ++ batch
        /\ generatedVideos (state (machine pg')) = []
        /\ forall u, In u (installed (trace (machine pg'))) ->
                     count_occ Nat.eq_dec (revoked (trace (machine pg'))) u = 1)
    /\ (isLoading (state (machine pg)) = false ->
        canSubmit (state (machine pg)) = true ->
        let pg' := step API_KEY R pg Submit in
        trace (machine pg') = tr ++ startEvents (state (machine pg))
        /\ revoked (trace (machine pg')) = revoked tr ++ batch
        /\ generatedVideos (state (machine pg')) = []
        /\ forall u, In u (installed (trace (machine pg'))) ->
                     count_occ Nat.eq_dec (revoked (trace (machine pg'))) u = 1).
Proof.
  intros K R inputs pg tr batch.
  pose proof (PageInv_run R K inputs initialPage PageInv_initial) as Hinv.
  fold pg in Hinv. destruct Hinv as [L Hin].
  split; [exact (released_once _ L) |].
  split; [exact (installed_once _ L) |].
  split; [exact (released_were_installed _ L) |].
  split; [exact (released_count _ L) |].
  split; [intros u Hu; now apply (current_batch _ L) in Hu |].
  split.
  - intros pg'.
    pose proof (PageInv_step R K pg ClickClear (conj L Hin)) as [L' _].
    fold pg' in L'.
    assert (Ht : trace (machine pg') = tr ++ clearEvents (state (machine pg))).
    { subst pg'. cbn [step]. unfold dispatch. rewrite advance_handleClear.
      cbn [machine]. apply trace_replay. }
    assert (Hg : generatedVideos (state (machine pg')) = []).
    { subst pg'. cbn [step]. unfold dispatch. rewrite advance_handleClear.
      cbn [machine]. unfold clearEvents. rewrite replay_app. reflexivity. }
    split; [exact Ht |]. split; [| split; [exact Hg |]].
    + rewrite Ht, revoked_app. unfold clearEvents.
      rewrite revoked_app, revoked_releases. cbn. now rewrite app_nil_r.
    + now apply released_all.
  - intros Hl Hc pg'.
    pose proof (PageInv_step R K pg Submit (conj L Hin)) as [L' _].
    fold pg' in L'.
    assert (He : pg' = dispatch R (handleSubmit K) pg).
    { subst pg'. cbn [step]. unfold submitDisabled. now rewrite Hl. }
    assert (Ht : trace (machine pg') = tr ++ startEvents (state (machine pg))).
    { rewrite He. unfold dispatch. rewrite (advance_handleSubmit_valid R K _ _ Hc).
      cbn [machine]. apply trace_replay. }
    assert (Hg : generatedVideos (state (machine pg')) = []).
    { rewrite He. unfold dispatch. rewrite (advance_handleSubmit_valid R K _ _ Hc).
      cbn [machine]. now rewrite state_started. }
    split; [exact Ht |]. split; [| split; [exact Hg |]].
    + rewrite Ht, revoked_app. unfold startEvents.
      rewrite !revoked_app, revoked_releases. cbn. now rewrite app_nil_r.
    + now apply released_all.
Qed.

Lemma C3_release_witness :
  let pg := run None serving servedInputs initialPage in
  let tr := trace (machine pg) in
  generatedVideos (state (machine pg)) = [0; 1]
  /\ (let pg' := step None serving pg Submit in
      trace (machine pg') = tr ++ startEvents (state (machine pg))
      /\ revoked (trace (machine pg')) = revoked tr ++ [0; 1]
      /\ generatedVideos (state (machine pg')) = []
      /\ forall u, In u (installed (trace (machine pg'))) ->
                   count_occ Nat.eq_dec (revoked (trace (machine pg'))) u = 1).
Proof.
  split; [reflexivity |].
  destruct (C3_urls_released_exactly_once None serving servedInputs)
    as [_ [_ [_ [_ [_ [_ H]]]]]].
  apply H; reflexivity.
Defined.

(** ** The number of videos on every page *)

Lemma InRange_clamp value : InRange (clamp value).
Proof.
  destruct (clamp_range value) as [[H _] | H]; [now left | now right].
Qed.

Lemma InRange_one : InRange (ofNat 1).
Proof.
  right. exists 1%Q. split; [reflexivity |]. split; [apply Qle_refl | discriminate].
Qed.

Lemma numberOfVideos_advance_guard R payload acc body :
  Pending acc body ->
  forall m,
    numberOfVideos (state (fst (advance R (guard payload body) m)))
    = numberOfVideos (state m).
Proof.
  induction 1 as [acc | acc e | acc c k Hc Hk IH | acc b k Hk IH | acc k Hk];
    intros m; try reflexivity.
  - unfold guard. cbn [tryCatch tryFinally advance].
    destruct (isAwaited c); [reflexivity |].
    change (numberOfVideos
              (state (fst (advance R (guard payload (k (respond R m c)))
                                   (record m c (respond R m c)))))
            = numberOfVideos (state m)).
    rewrite IH. destruct c; try discriminate; reflexivity.
  - unfold guard. cbn [tryCatch tryFinally advance isAwaited respond].
    change (numberOfVideos
              (state (fst (advance R (guard payload (k (nextURL m)))
                                   (record m (CreateObjectURL b) (nextURL m)))))
            = numberOfVideos (state m)).
    now rewrite IH.
  - unfold guard. cbn [tryCatch tryFinally advance isAwaited respond].
    rewrite Hk. reflexivity.
Qed.

Lemma numberOfVideos_step R API_KEY pg i :
  PageInv pg ->
  InRange (numberOfVideos (state (machine pg))) ->
  InRange (numberOfVideos (state (machine (step API_KEY R pg i)))).
Proof.
  intros [L Hin] Hr. destruct i; cbn [step]; try exact Hr.
  - unfold submitDisabled. destruct (isLoading (state (machine pg))); [exact Hr |].
    destruct (canSubmit (state (machine pg))) eqn:Hc.
    + unfold dispatch. rewrite (advance_handleSubmit_valid R API_KEY _ _ Hc).
      cbn [machine]. now rewrite state_started.
    + unfold canSubmit in Hc. apply orb_false_elim in Hc. destruct Hc as [H1 H2].
      unfold dispatch, handleSubmit. rewrite H1, H2. exact Hr.
  - unfold dispatch. rewrite advance_handleClear. cbn [machine].
    unfold clearEvents. rewrite replay_app. exact InRange_one.
  - apply InRange_clamp.
  - destruct (nth_error aspectRatios i); exact Hr.
  - unfold resume.
    destruct (nth_error (inflight pg) i) as [[c k] |] eqn:Hnth; [| exact Hr].
    destruct (inflight pg) as [| s [| s' rest]];
      [destruct i; discriminate | | contradiction].
    destruct i as [| i]; [| destruct i; discriminate].
    cbn in Hnth. injection Hnth as ->.
    destruct Hin as [_ [_ [acc [[Ha [payload [body [-> Hp]]]] _]]]].
    pose proof (numberOfVideos_advance_guard R payload acc
                  (body (respond R (machine pg) c)) (Hp _)
                  (record (machine pg) c (respond R (machine pg) c))) as Hn.
    destruct (advance R (guard payload (body (respond R (machine pg) c))) _)
      as [m' s']. cbn [fst machine] in *. rewrite Hn.
    destruct c; try discriminate; exact Hr.
Qed.

(** X20: on every page reached from the initial one the number of videos
    is [NaN] or lies between 1 and 4; [handleSubmit] sends it as it is. *)
Lemma numberOfVideos_in_range R API_KEY inputs :
  InRange (numberOfVideos (state (machine (run API_KEY R inputs initialPage))))
  /\ forall st, cfg_numberOfVideos (config (buildPayload st)) = numberOfVideos st.
Proof.
  split; [| reflexivity].
  assert (H : forall pg, PageInv pg -> InRange (numberOfVideos (state (machine pg))) ->
                         InRange (numberOfVideos
                                    (state (machine (run API_KEY R inputs pg))))).
  { induction inputs as [| i inputs IH]; intros pg Hinv Hr; [exact Hr |].
    cbn [run fold_left]. apply IH.
    - now apply PageInv_step.
    - now apply numberOfVideos_step. }
  apply H; [exact PageInv_initial | exact InRange_one].
Qed.

(** C8, evaluated at the text [2.5]: the number input stores 2.5, which
    lies between 1 and 4 but is not an integer, and the next submission
    sends it as [numberOfVideos] in the request configuration. *)
Theorem C8_fractional_count_is_sent :
  let pg := run None (rejecting [])
                [ChangeNumberOfVideos (js "2.5"); ChangePrompt (js "a cat");
                 Submit; Settles 0]
                initialPage in
  map (fun p => cfg_numberOfVideos (config p)) (requests (trace (machine pg)))
  = [Fin (5 # 2)]
  /\ isInteger (Fin (5 # 2)) = false
  /\ numberOfVideos (state (machine pg)) = Fin (5 # 2).
Proof.
  repeat split; reflexivity.
Qed.

(** * Further properties *)

(** ** Strings *)

Lemma startsWith_spec s pre :
  startsWith s pre = true <-> exists post, s = pre ++ post.
Proof.
  revert s; induction pre as [| p pre IH]; intros s; simpl.
  - split; [intros _; exists s; reflexivity | intros _; destruct s; reflexivity].
  - destruct s as [| c s]; simpl.
    + split; [discriminate | intros [post H]; discriminate].
    + rewrite andb_true_iff, N.eqb_eq, IH. split.
      * intros [-> [post ->]]. now exists post.
      * intros [post H]. injection H as -> ->. split; [reflexivity | now exists post].
Qed.

Lemma includes_spec s sub :
  includes s sub = true <-> exists pre post, s = pre ++ sub ++ post.
Proof.
  induction s as [| c s IH]; cbn [includes].
  - rewrite orb_false_r, startsWith_spec. split.
    + intros [post H]. now exists [], post.
    + intros [pre [post H]]. destruct pre; [now exists post | discriminate].
  - rewrite orb_true_iff, startsWith_spec, IH. split.
    + intros [[post H] | [pre [post H]]].
      * now exists [], post.
      * exists (c :: pre), post. now rewrite H.
    + intros [pre [post H]]. destruct pre as [| c' pre].
      * left. now exists post.
      * right. injection H as _ H. now exists pre, post.
Qed.


Lemma eatLiteral_spec s pre r :
  eatLiteral s pre = Some r <-> s = pre ++ r.
Proof.
  revert s; induction pre as [| p pre IH]; intros s; simpl.
  - destruct s; simpl; (split; [now intros [= ->] | now intros ->]).
  - destruct s as [| c s]; simpl.
    + split; discriminate.
    + destruct (N.eqb_spec p c) as [-> | Hne].
      * rewrite IH. split; [now intros -> | now intros [= ->]].
      * split; [discriminate | intros [= H _]; congruence].
Qed.

Lemma eatLiteral_none s pre :
  eatLiteral s pre = None <-> startsWith s pre = false.
Proof.
  revert s; induction pre as [| p pre IH]; intros s; simpl.
  - destruct s; simpl; split; discriminate.
  - destruct s as [| c s]; simpl; [tauto |].
    destruct (p =? c)%N; simpl; [apply IH | tauto].
Qed.

Lemma eatWhiteSpace_spec s :
  exists ws, s = ws ++ snd (eatWhiteSpace s)
             /\ allWhiteSpace ws /\ fst (eatWhiteSpace s) = List.length ws
             /\ match snd (eatWhiteSpace s) with
                | c :: _ => isWhiteSpace c = false
                | [] => True
                end.
Proof.
  induction s as [| c s IH]; simpl.
  - exists []. repeat split; constructor.
  - destruct (isWhiteSpace c) eqn:Hc.
    + destruct IH as [ws [H1 [H2 [H3 H4]]]].
      destruct (eatWhiteSpace s) as [n r]. simpl in *.
      exists (c :: ws). repeat split; simpl; try congruence; try exact H4.
      now constructor.
    + exists []. simpl. repeat split; [constructor | exact Hc].
Qed.

Lemma eatWhiteSpace_app ws c r :
  allWhiteSpace ws -> isWhiteSpace c = false ->
  eatWhiteSpace (ws ++ c :: r) = (List.length ws, c :: r).
Proof.
  intros Hws Hc. induction Hws as [| w ws Hw _ IH]; simpl.
  - now rewrite Hc.
  - now rewrite Hw, IH.
Qed.

Lemma lazyUntilQuote_spec s cap :
  lazyUntilQuote s = Some cap <->
  quoteFree cap /\ exists post, s = cap ++ dquote :: post.
Proof.
  revert cap; induction s as [| c s IH]; intros cap; simpl.
  - split; [discriminate | intros [_ [post H]]; destruct cap; discriminate].
  - destruct (N.eqb_spec c dquote) as [-> | Hne].
    + split.
      * intros [= <-]. split; [constructor | now exists s].
      * intros [Hq [post H]]. destruct cap as [| d cap]; [reflexivity |].
        injection H as <- _. inversion Hq as [| ? ? [Hd _] _]; subst.
        now rewrite N.eqb_refl in Hd.
    + destruct (isLineTerminator c) eqn:Hlt.
      * split; [discriminate |].
        intros [Hq [post H]]. destruct cap as [| d cap].
        -- injection H as -> _. congruence.
        -- injection H as <- _. inversion Hq as [| ? ? [_ Hd] _]; subst. congruence.
      * destruct (lazyUntilQuote s) as [cap' |] eqn:Hl; simpl.
        -- destruct (proj1 (IH cap') eq_refl) as [Hq [post Hs]]. split.
           ++ intros [= <-]. split.
              ** constructor; [split; [now apply N.eqb_neq | exact Hlt] | exact Hq].
              ** exists post. now rewrite Hs.
           ++ intros [Hq' [post' H]]. destruct cap as [| d cap].
              ** injection H as -> _. congruence.
              ** injection H as <- H. inversion Hq' as [| ? ? _ Hq''].
                 f_equal. f_equal.
                 assert (Some cap' = Some cap) as [= ->]; [| reflexivity].
                 apply IH. split; [exact Hq'' | now exists post'].
        -- split; [discriminate |].
           intros [Hq' [post' H]]. destruct cap as [| d cap].
           ++ injection H as -> _. congruence.
           ++ injection H as <- H. inversion Hq' as [| ? ? _ Hq'']; subst.
              assert (None = Some cap) as E; [| discriminate E].
              apply IH. split; [exact Hq'' | now exists post'].
Qed.

Lemma dquote_not_space : isWhiteSpace dquote = false.
Proof. reflexivity. Qed.

(** What a match of the pattern at the head of [s] is. *)
Lemma matchHere_spec s cap len :
  matchHere s = Some (cap, len) <->
  exists ws post,
    s = messageKey ++ ws ++ dquote :: cap ++ dquote :: post
    /\ allWhiteSpace ws /\ quoteFree cap
    /\ len = List.length messageKey + List.length ws + 1 + List.length cap + 1.
Proof.
  unfold matchHere. split.
  - destruct (eatLiteral s messageKey) as [r |] eqn:Hlit; [| discriminate].
    apply eatLiteral_spec in Hlit.
    destruct (eatWhiteSpace_spec r) as [ws [Hr [Hws [Hn _]]]].
    destruct (eatWhiteSpace r) as [n r']. simpl in Hr, Hn.
    destruct r' as [| c r'']; [discriminate |].
    destruct (N.eqb_spec c dquote) as [-> | _]; [| discriminate].
    destruct (lazyUntilQuote r'') as [cap' |] eqn:Hl; [| discriminate].
    intros [= <- <-]. apply lazyUntilQuote_spec in Hl. destruct Hl as [Hq [post Hp]].
    exists ws, post. subst. repeat split; auto.
  - intros [ws [post [-> [Hws [Hq ->]]]]].
    assert (Hlit : eatLiteral (messageKey ++ ws ++ dquote :: cap ++ dquote :: post)
                              messageKey
                   = Some (ws ++ dquote :: cap ++ dquote :: post))
      by now apply eatLiteral_spec.
    rewrite Hlit, (eatWhiteSpace_app ws dquote _ Hws dquote_not_space).
    rewrite N.eqb_refl.
    assert (Hl : lazyUntilQuote (cap ++ dquote :: post) = Some cap).
    { apply lazyUntilQuote_spec. split; [exact Hq | now exists post]. }
    now rewrite Hl.
Qed.

Lemma matchHere_startsWith s :
  startsWith s messageKey = false -> matchHere s = None.
Proof.
  intros H. unfold matchHere. apply eatLiteral_none in H. now rewrite H.
Qed.

Lemma search_no_key s pos :
  includes s messageKey = false -> search s pos = None.
Proof.
  revert pos; induction s as [| c s IH]; intros pos H; cbn [includes] in H;
    apply orb_false_elim in H; destruct H as [H1 H2].
  - cbn [search]. now rewrite (matchHere_startsWith _ H1).
  - cbn [search]. rewrite (matchHere_startsWith _ H1). now apply IH.
Qed.

(** The leftmost match: where it is and what it captures. *)
Lemma search_spec s pos cap e :
  search s pos = Some (cap, e) ->
  exists pre ws post,
    s = pre ++ messageKey ++ ws ++ dquote :: cap ++ dquote :: post
    /\ allWhiteSpace ws /\ quoteFree cap
    /\ (forall i, i < List.length pre -> matchHere (skipn i s) = None).
Proof.
  revert pos; induction s as [| c s IH]; intros pos; cbn [search].
  - destruct (matchHere []) as [[cap' len] |] eqn:Hm; [| discriminate].
    intros [= <- _]. apply matchHere_spec in Hm.
    destruct Hm as [ws [post [Hs [Hws [Hq _]]]]].
    exists [], ws, post. repeat split; auto. simpl; intros; lia.
  - destruct (matchHere (c :: s)) as [[cap' len] |] eqn:Hm.
    + intros [= <- _]. apply matchHere_spec in Hm.
      destruct Hm as [ws [post [Hs [Hws [Hq _]]]]].
      exists [], ws, post. repeat split; auto. simpl; intros; lia.
    + intros H. apply IH in H. destruct H as [pre [ws [post [Hs [Hws [Hq Hleft]]]]]].
      exists (c :: pre), ws, post. repeat split; auto.
      * now rewrite Hs.
      * intros [| i] Hi; [exact Hm |]. simpl in Hi. simpl. apply Hleft. lia.
Qed.

Lemma search_leftmost pre s pos :
  (forall i, i < List.length pre -> matchHere (skipn i (pre ++ s)) = None) ->
  search (pre ++ s) pos = search s (pos + List.length pre).
Proof.
  revert pos; induction pre as [| c pre IH]; intros pos H; simpl.
  - now rewrite Nat.add_0_r.
  - change (matchHere (c :: pre ++ s)) with (matchHere (skipn 0 ((c :: pre) ++ s))).
    rewrite H by (simpl; lia).
    rewrite IH.
    + f_equal. lia.
    + intros i Hi. apply (H (S i)). simpl. lia.
Qed.

Lemma parseError_unfold raw :
  parseError raw =
  if includes raw (js "429") && includes raw (js "RESOURCE_EXHAUSTED")
  then rateLimitNotice
  else match search raw 0 with
       | Some (cap, _) => NText (orElse cap raw)
       | None => NText raw
       end.
Proof.
  unfold parseError, RegExp_exec, newRegExp, orElse. cbn [lastIndex skipn].
  destruct (includes raw (js "429") && includes raw (js "RESOURCE_EXHAUSTED")); [reflexivity |].
  replace (List.length raw <? 0) with false by (symmetry; apply Nat.ltb_ge; lia).
  destruct (search raw 0) as [[cap e] |]; [destruct cap |]; reflexivity.
Qed.

(** X1: a message that does not carry both quota markers and does not
    contain the quoted key [message] with its colon is returned by
    [parseError] as it is. *)
Theorem parseError_without_key :
  forall raw,
    includes raw (js "429") && includes raw (js "RESOURCE_EXHAUSTED") = false ->
    includes raw messageKey = false ->
    parseError raw = NText raw.
Proof.
  intros raw Hq Hk. rewrite parseError_unfold, Hq.
  now rewrite (search_no_key raw 0 Hk).
Qed.

Lemma parseError_without_key_witness :
  parseError (js "429 Too Many Requests") = NText (js "429 Too Many Requests").
Proof. apply parseError_without_key; reflexivity. Defined.

(** X2: [parseError] returns the quota notice, or the message as it is, or
    a text [cap] that is not empty, holds no double quote and no line
    terminator, and stands in the message between double quotes right after
    the quoted key, its colon and optional white space. *)
Theorem parseError_result :
  forall raw,
    parseError raw = rateLimitNotice
    \/ parseError raw = NText raw
    \/ exists pre ws cap post,
         parseError raw = NText cap
         /\ raw = pre ++ messageKey ++ ws ++ dquote :: cap ++ dquote :: post
         /\ allWhiteSpace ws /\ quoteFree cap /\ cap <> [].
Proof.
  intros raw. rewrite parseError_unfold.
  destruct (includes raw (js "429") && includes raw (js "RESOURCE_EXHAUSTED"));
    [now left | right].
  destruct (search raw 0) as [[cap e] |] eqn:Hs; [| now left].
  destruct cap as [| c cap]; [now left | right].
  apply search_spec in Hs. destruct Hs as [pre [ws [post [Hraw [Hws [Hq _]]]]]].
  exists pre, ws, (c :: cap), post. repeat split; auto. discriminate.
Qed.

Lemma startsWith_app_long s t pre :
  List.length pre <= List.length s -> startsWith (s ++ t) pre = startsWith s pre.
Proof.
  revert s; induction pre as [| p pre IH]; intros s H.
  - destruct s; destruct t; reflexivity.
  - destruct s as [| c s]; simpl in H; [lia |].
    simpl. rewrite IH by lia. reflexivity.
Qed.

Lemma includes_skipn s sub i :
  includes s sub = false -> startsWith (skipn i s) sub = false.
Proof.
  revert i; induction s as [| c s IH]; intros i H; cbn [includes] in H;
    apply orb_false_elim in H; destruct H as [H1 H2].
  - now destruct i.
  - destruct i as [| i]; [exact H1 | simpl; now apply IH].
Qed.

(** The key has no border: it cannot start inside a copy of itself. *)
Lemma messageKey_no_border s t :
  s <> [] -> List.length s < List.length messageKey ->
  startsWith (s ++ messageKey ++ t) messageKey = false.
Proof.
  intros Hne Hlen.
  destruct s as [| ? s]; [congruence | clear Hne].
  do 9 (destruct s as [| ? s];
        [ clear Hlen;
          cbv [messageKey js list_ascii_of_string map N_of_ascii N_of_digits app
               dquote startsWith];
          repeat match goal with
                 | |- context [(?a =? ?b)%N] =>
                     destruct (N.eqb_spec a b); try subst; try discriminate;
                     cbn [andb]; try reflexivity
                 end
        | ]).
  simpl in Hlen. lia.
Qed.

Lemma no_match_before_key pre rest i :
  includes pre messageKey = false -> i < List.length pre ->
  matchHere (skipn i (pre ++ messageKey ++ rest)) = None.
Proof.
  intros Hk Hi. apply matchHere_startsWith.
  rewrite skipn_app. replace (i - List.length pre) with 0 by lia. cbn [skipn].
  destruct (Nat.le_gt_cases (List.length messageKey) (List.length (skipn i pre)))
    as [Hlong | Hshort].
  - rewrite startsWith_app_long by exact Hlong. now apply includes_skipn.
  - apply messageKey_no_border; [| exact Hshort].
    intros E. apply (f_equal (@List.length N)) in E.
    rewrite length_skipn in E. simpl in E. lia.
Qed.

(** X3: the first occurrence of the key decides.  When the message lacks a
    quota marker and the key first occurs followed by white space and a
    quoted text without quote or line terminator, [parseError] returns that
    text if it is not empty, and the whole message if it is, whatever
    follows: a later, non-empty occurrence is not looked for. *)
Theorem parseError_first_message :
  forall pre ws cap post,
    let raw := pre ++ messageKey ++ ws ++ dquote :: cap ++ dquote :: post in
    includes raw (js "429") && includes raw (js "RESOURCE_EXHAUSTED") = false ->
    includes pre messageKey = false ->
    allWhiteSpace ws -> quoteFree cap ->
    parseError raw = NText (orElse cap raw).
Proof.
  intros pre ws cap post raw Hq Hk Hws Hcap.
  rewrite parseError_unfold, Hq. unfold raw.
  rewrite search_leftmost
    by (intros i Hi; now apply no_match_before_key).
  set (rest := messageKey ++ ws ++ dquote :: cap ++ dquote :: post).
  assert (Hm : matchHere rest
               = Some (cap, List.length messageKey + List.length ws + 1
                            + List.length cap + 1)).
  { apply matchHere_spec. exists ws, post. repeat split; auto. }
  destruct rest as [| c rest']; cbn [search]; rewrite Hm; reflexivity.
Qed.

Lemma parseError_first_message_witness :
  parseError (js "{" ++ messageKey ++ js " " ++ dquote :: js "Bad request"
              ++ dquote :: js ", code: 400}")
  = NText (orElse (js "Bad request")
             (js "{" ++ messageKey ++ js " " ++ dquote :: js "Bad request"
              ++ dquote :: js ", code: 400}")).
Proof.
  apply (parseError_first_message (js "{") (js " ") (js "Bad request")
           (js ", code: 400}"));
    try reflexivity; repeat constructor.
Defined.

(** ** The anatomy of a validated run *)

Lemma handleSubmit_anatomy R API_KEY m :
  canSubmit (state m) = true ->
  let st := state m in
  let payload := buildPayload st in
  let m1 := replay (startEvents st) m in
  let tryEvs := events R (generate API_KEY payload) m1 in
  let outcome := fst (exec R (generate API_KEY payload) m1) in
  events R (handleSubmit API_KEY st) m
  = startEvents st ++ tryEvs ++ closing payload outcome
  /\ TryResult payload (nextURL m) tryEvs outcome
  /\ state (snd (exec R (handleSubmit API_KEY st) m)) =
     match outcome with
     | Returned _ => afterSuccess st (created tryEvs)
     | Thrown e => afterFailure st (shownFor payload e)
     | Exhausted => st
     end.
Proof.
  intros Hc st payload m1 tryEvs outcome. subst tryEvs outcome.
  rewrite (events_handleSubmit_valid R API_KEY st m Hc),
    (exec_handleSubmit_valid R API_KEY st m Hc), events_guarded, exec_guarded.
  fold payload. fold m1.
  pose proof (generate_result R API_KEY payload m1) as Hres.
  pose proof (exec_replay R (generate API_KEY payload) m1) as Hrep.
  unfold m1 in Hres at 1. rewrite nextURL_started in Hres.
  pose proof (state_closing payload (fst (exec R (generate API_KEY payload) m1))
                st (events R (generate API_KEY payload) m1) m1
                (state_started st m)) as Hst.
  set (tryEvs := events R (generate API_KEY payload) m1) in *.
  destruct (exec R (generate API_KEY payload) m1) as [o m2].
  cbn [fst snd] in *. subst m2.
  split; [reflexivity |]. split; [exact Hres |].
  clearbody tryEvs.
  inversion Hres; subst; cbn [fst snd].
  - now apply Hst.
  - apply Hst.
    repeat constructor. apply (class_weaken _ _ _ polling_quiet), rounds_polling.
  - now apply Hst.
  - now apply Hst.
  - match goal with
    | H : created _ = seq _ _ |- _ => rewrite H
    end.
    eapply Hst; eauto.
Qed.

Lemma logged_app tr1 tr2 : logged (tr1 ++ tr2) = logged tr1 ++ logged tr2.
Proof. apply flat_map_app. Qed.

Lemma polls_app tr1 tr2 : polls (tr1 ++ tr2) = polls tr1 ++ polls tr2.
Proof. apply flat_map_app. Qed.

Lemma requests_app tr1 tr2 : requests (tr1 ++ tr2) = requests tr1 ++ requests tr2.
Proof. apply flat_map_app. Qed.

Lemma networkCalls_app tr1 tr2 :
  networkCalls (tr1 ++ tr2) = networkCalls tr1 ++ networkCalls tr2.
Proof. apply filter_app. Qed.

Lemma releases_plain batch :
  logged (releases batch) = [] /\ polls (releases batch) = []
  /\ requests (releases batch) = [] /\ networkCalls (releases batch) = [].
Proof. induction batch; simpl; auto. Qed.

Lemma startEvents_plain st :
  logged (startEvents st) = [] /\ polls (startEvents st) = []
  /\ requests (startEvents st) = [] /\ networkCalls (startEvents st) = [].
Proof.
  unfold startEvents.
  destruct (releases_plain (generatedVideos st)) as [H1 [H2 [H3 H4]]].
  rewrite !logged_app, !polls_app, !requests_app, !networkCalls_app, H1, H2, H3, H4.
  repeat split.
Qed.

Lemma closing_plain payload o :
  polls (closing payload o) = [] /\ requests (closing payload o) = []
  /\ networkCalls (closing payload o) = []
  /\ logged (closing payload o) = match o with Thrown e => [e] | _ => [] end.
Proof. destruct o; repeat split. Qed.

Lemma followUp_plain evs :
  Forall (fun e => followUpCmd (ev_cmd e) = true) evs ->
  logged evs = [] /\ requests evs = [].
Proof.
  intros H; split; apply flat_map_nil; eapply Forall_impl; [| exact H | | exact H];
    intros [c r]; cbn [ev_cmd]; clear r; destruct c; simpl; congruence.
Qed.

Lemma polling_followUp c : pollingCmd c = true -> followUpCmd c = true.
Proof. destruct c; simpl; auto. Qed.

Lemma fetching_delivery c : fetchingCmd c = true -> deliveryCmd c = true.
Proof. destruct c; simpl; auto. Qed.

Lemma delivery_followUp c : deliveryCmd c = true -> followUpCmd c = true.
Proof. destruct c; simpl; auto. Qed.

Lemma deliver_Only API_KEY operation : Only deliveryCmd (deliver API_KEY operation).
Proof.
  unfold deliver. destruct (negb (isDone operation)); [exact I |].
  destruct (producedVideos operation) as [videos |]; [| exact I].
  split; [reflexivity | intros ?; cbn [bind]].
  apply Only_bind.
  - apply (Only_weaken fetchingCmd); [exact fetching_delivery | apply fetchVideos_Only].
  - intros urls. split; [reflexivity | intros; exact I].
Qed.

Lemma afterSubmission_Only API_KEY r : Only followUpCmd (afterSubmission API_KEY r).
Proof.
  unfold afterSubmission. destruct r as [op | e]; [| exact I].
  cbn [settle bind]. split; [reflexivity | intros ?; cbn [bind]].
  apply Only_bind.
  - apply (Only_weaken pollingCmd); [exact polling_followUp | apply pollLoop_Only].
  - intros res. apply (Only_weaken deliveryCmd); [exact delivery_followUp |].
    apply deliver_Only.
Qed.

(** The [try] block: the call of the service, then follow-up commands. *)
Lemma generate_events R API_KEY payload m :
  exists r rest,
    events R (generate API_KEY payload) m = Ev (GenerateVideos payload) r :: rest
    /\ r = generateVideos R (trace m) payload
    /\ Forall (fun e => followUpCmd (ev_cmd e) = true) rest.
Proof.
  rewrite generate_suspended. cbn [events respond].
  eexists _, _. split; [reflexivity |]. split; [reflexivity |].
  apply Only_events, afterSubmission_Only.
Qed.

(** ** What a failed run shows *)

Lemma shownFor_dialogFor st e : shownFor (buildPayload st) e = dialogFor e.
Proof.
  unfold shownFor, dialogFor, classify, orElse. cbn [buildPayload model].
  destruct (truthy (message e)) eqn:Ht.
  - reflexivity.
  - destruct (message e); [reflexivity | discriminate].
Qed.

Lemma TryResult_logged payload next evs o :
  TryResult payload next evs o -> logged evs = [].
Proof.
  assert (Hq : forall l, quiet l -> logged l = []).
  { intros l H. apply flat_map_nil. eapply Forall_impl; [| exact H].
    intros [c r]; cbn [ev_cmd]; clear r; destruct c; simpl; congruence. }
  intros H; inversion H; subst; auto.
  - apply Hq. repeat constructor.
    apply (class_weaken _ _ _ polling_quiet), rounds_polling.
  - rewrite logged_app, (Hq evs0) by assumption. reflexivity.
Qed.

Lemma TryResult_thrown_quiet payload next evs e :
  TryResult payload next evs (Thrown e) -> quiet evs.
Proof.
  intros H; inversion H; subst; auto.
  repeat constructor. apply (class_weaken _ _ _ polling_quiet), rounds_polling.
Qed.

Lemma run_logged R API_KEY m :
  canSubmit (state m) = true ->
  let st := state m in
  let m1 := replay (startEvents st) m in
  logged (events R (handleSubmit API_KEY st) m)
  = match fst (exec R (generate API_KEY (buildPayload st)) m1) with
    | Thrown e => [e]
    | _ => []
    end.
Proof.
  intros Hc st m1.
  destruct (handleSubmit_anatomy R API_KEY m Hc) as [Hev [Hres _]].
  fold st in Hev, Hres. fold m1 in Hev, Hres.
  rewrite Hev, !logged_app, (TryResult_logged _ _ _ _ Hres).
  destruct (startEvents_plain st) as [-> _].
  destruct (closing_plain (buildPayload st)
              (fst (exec R (generate API_KEY (buildPayload st)) m1)))
    as [_ [_ [_ ->]]].
  reflexivity.
Qed.

(** X4: in a run that passed validation the [catch] block runs at most
    once.  When it logs the error [e], no batch was installed and the run
    ends in the state of a failed run whose dialog shows [dialogFor e]: the
    not-found text with the model veo-2.0-generate-001 when the message
    carries the not-found marker (tested before anything else), else what
    [parseError] makes of the message, and the fallback text for an empty
    message. *)
Theorem failed_run_dialog :
  forall API_KEY R m e,
    canSubmit (state m) = true ->
    let st := state m in
    let p := handleSubmit API_KEY st in
    In e (logged (events R p m)) ->
    logged (events R p m) = [e]
    /\ state (snd (exec R p m)) = afterFailure st (dialogFor e)
    /\ installed (events R p m) = [].
Proof.
  intros API_KEY R m e Hc st p Hin. subst p.
  pose proof (run_logged R API_KEY m Hc) as Hlog. cbv zeta in Hlog. fold st in Hlog.
  destruct (handleSubmit_anatomy R API_KEY m Hc) as [Hev [Hres Hst]].
  fold st in Hev, Hres, Hst.
  rewrite Hlog in Hin |- *.
  destruct (run_observed st (buildPayload st)
              (events R (generate API_KEY (buildPayload st))
                 (replay (startEvents st) m))
              (fst (exec R (generate API_KEY (buildPayload st))
                      (replay (startEvents st) m))))
    as [_ [_ [_ [Hinst _]]]].
  rewrite <- Hev in Hinst.
  destruct (fst (exec R (generate API_KEY (buildPayload st))
                   (replay (startEvents st) m))) as [[] | e' |];
    cbn [In] in Hin; try contradiction.
  destruct Hin as [-> | []].
  split; [reflexivity |]. split.
  - rewrite Hst. now rewrite shownFor_dialogFor.
  - rewrite Hinst. apply TryResult_thrown_quiet in Hres.
    now apply quiet_observed in Hres.
Qed.

Lemma failed_run_dialog_witness :
  let st := state catMachine in
  let p := handleSubmit None st in
  let e := newError (js "404 Requested entity was not found") in
  logged (events (rejecting (message e)) p catMachine) = [e]
  /\ state (snd (exec (rejecting (message e)) p catMachine))
     = afterFailure st (dialogFor e)
  /\ installed (events (rejecting (message e)) p catMachine) = [].
Proof.
  apply (failed_run_dialog None
           (rejecting (js "404 Requested entity was not found")) catMachine
           (newError (js "404 Requested entity was not found")));
    [reflexivity | left; reflexivity].
Defined.

(** X5: a run that passed validation calls [generateVideos] exactly once,
    before any other call to the network, with the payload built from the
    state at submission: the prompt as it is (it is not trimmed) and the
    image exactly when one is uploaded. *)
Theorem one_request_per_run :
  forall API_KEY R m,
    canSubmit (state m) = true ->
    let st := state m in
    let evs := events R (handleSubmit API_KEY st) m in
    requests evs = [buildPayload st]
    /\ (exists r rest,
          networkCalls evs = Ev (GenerateVideos (buildPayload st)) r :: rest)
    /\ pl_prompt (buildPayload st) = prompt st
    /\ image (buildPayload st)
       = option_map (fun img => {| imageBytes := data img;
                                   img_mimeType := mimeType img |})
                    (uploadedImage st).
Proof.
  intros API_KEY R m Hc st evs. subst evs.
  destruct (handleSubmit_anatomy R API_KEY m Hc) as [Hev _]. fold st in Hev.
  destruct (generate_events R API_KEY (buildPayload st) (replay (startEvents st) m))
    as [r [rest [Hg [_ Hrest]]]].
  rewrite Hev, Hg.
  destruct (startEvents_plain st) as [_ [_ [Hr Hn]]].
  destruct (closing_plain (buildPayload st)
              (fst (exec R (generate API_KEY (buildPayload st))
                      (replay (startEvents st) m)))) as [_ [Hcr _]].
  split; [| split; [| split]].
  - rewrite !requests_app, Hr, Hcr. cbn [requests flat_map ev_cmd app].
    fold (requests rest). rewrite (proj2 (followUp_plain rest Hrest)). reflexivity.
  - rewrite networkCalls_app, Hn. cbn [app]. eexists _, _. reflexivity.
  - reflexivity.
  - unfold buildPayload. cbn [image]. now destruct (uploadedImage st).
Qed.

Lemma one_request_per_run_witness :
  let st := state catMachine in
  let evs := events serving (handleSubmit None st) catMachine in
  requests evs = [buildPayload st]
  /\ (exists r rest,
        networkCalls evs = Ev (GenerateVideos (buildPayload st)) r :: rest)
  /\ pl_prompt (buildPayload st) = prompt st
  /\ image (buildPayload st)
     = option_map (fun img => {| imageBytes := data img;
                                 img_mimeType := mimeType img |})
                  (uploadedImage st).
Proof. apply (one_request_per_run None serving catMachine). reflexivity. Defined.

(** ** The exact trace of the polling loop *)

Lemma pollLoop_shape R fuel op n m :
  maxPolls <= fuel + n ->
  exists answers,
    Forall notDone (removelast (op :: answers))
    /\ match fst (exec R (pollLoop fuel op n) m) with
       | Returned (op', n') =>
           events R (pollLoop fuel op n) m = rounds n op answers
           /\ op' = last answers op /\ n' = n + List.length answers
           /\ (isDone op' = true \/ maxPolls <= n')
           /\ (answers <> [] -> n + List.length answers <= maxPolls)
       | Thrown e =>
           events R (pollLoop fuel op n) m
           = rounds n op answers ++ brokenRound (last answers op) e
           /\ notDone (last answers op)
           /\ n + List.length answers < maxPolls
       | Exhausted => False
       end.
Proof.
  revert op n m.
  induction fuel as [| fuel IH]; intros op n m Hf.
  - destruct (exec_pollLoop_exit R 0 op n m) as [He Hv].
    { replace (n <? maxPolls) with false by (symmetry; apply Nat.ltb_ge; lia).
      apply andb_false_r. }
    exists []. rewrite He, Hv. cbn [fst removelast rounds last List.length].
    split; [constructor |]. split; [reflexivity |]. split; [reflexivity |].
    split; [lia |]. split; [right; lia | congruence].
  - destruct (negb (isDone op) && (n <? maxPolls)) eqn:Hc.
    + apply andb_prop in Hc. destruct Hc as [Hd Hn].
      apply negb_true_iff in Hd. apply Nat.ltb_lt in Hn.
      destruct (exec_pollLoop_step R fuel op n m Hd Hn) as [He Hv].
      cbv zeta in He, Hv.
      set (r := getVideosOperation R _ op) in *. clearbody r.
      rewrite He, Hv. destruct r as [op' | e].
      * destruct (IH op' (S n)
                    (record (record (record m (SetTimeout 10000) tt)
                                    (GetVideosOperation op) (Resolved op'))
                            (SetLoadingMessage (pollingMessage (S n))) tt)
                    ltac:(lia)) as [answers [Hall Hm]].
        exists (op' :: answers). split.
        { change (removelast (op :: op' :: answers))
            with (op :: removelast (op' :: answers)).
          constructor; [exact Hd | exact Hall]. }
        destruct (fst (exec R (pollLoop fuel op' (S n)) _)) as [[op'' n''] | e |];
          [| | contradiction].
        -- destruct Hm as [Hevs [Hop [Hn' [Hx Hb]]]].
           split; [cbn [rounds round app]; now rewrite Hevs |].
           split; [now rewrite last_cons_self |].
           split; [cbn [List.length]; lia |]. split; [exact Hx |].
           intros _. cbn [List.length].
           destruct answers as [| a answers']; [cbn [List.length]; lia |].
           assert (a :: answers' <> []) as Hne by congruence.
           specialize (Hb Hne). lia.
        -- destruct Hm as [Hevs [Hnd Hlt]].
           split; [cbn [rounds round app]; rewrite Hevs; now rewrite last_cons_self |].
           split; [now rewrite last_cons_self |].
           cbn [List.length]. lia.
      * exists []. cbn [fst removelast rounds last List.length app].
        split; [constructor |]. split; [reflexivity |]. split; [exact Hd | lia].
    + destruct (exec_pollLoop_exit R (S fuel) op n m Hc) as [He Hv].
      exists []. rewrite He, Hv. cbn [fst removelast rounds last List.length].
      split; [constructor |]. split; [reflexivity |]. split; [reflexivity |].
      split; [lia |]. split; [| congruence].
      apply andb_false_iff in Hc. destruct Hc as [Hc | Hc].
      * left. now apply negb_false_iff in Hc.
      * right. apply Nat.ltb_ge in Hc. lia.
Qed.

(** ** The exact trace of the download loop *)


Lemma fetchVideos_shape R API_KEY videos acc m :
  let p := fetchVideos API_KEY videos acc in
  exists xs,
    Forall (fun x => ok (got_response x) = true) xs /\
    match fst (exec R p m) with
    | Returned urls =>
        events R p m = retrievals API_KEY (nextURL m) xs
        /\ map video videos = map (fun x => Some (got_video x)) xs
        /\ urls = acc ++ seq (nextURL m) (List.length xs)
    | Thrown e =>
        exists videoData tail,
          events R p m = retrievals API_KEY (nextURL m) xs ++ tail
          /\ firstn (List.length xs) (map video videos)
             = map (fun x => Some (got_video x)) xs
          /\ nth_error videos (List.length xs) = Some videoData
          /\ FailedRetrieval API_KEY videoData tail e
    | Exhausted => False
    end.
Proof.
  cbv zeta. revert acc m.
  induction videos as [| v videos IH]; intros acc m.
  - exists []. split; [constructor |]. cbn. now rewrite app_nil_r.
  - pose proof (fetchVideos_step R API_KEY v videos acc m) as Hs. cbv zeta in Hs.
    destruct (video v) as [vd |] eqn:Hv.
    2:{ destruct Hs as [He Hev]. rewrite He, Hev. exists []. split; [constructor |].
        cbn [fst retrievals app List.length firstn map nth_error].
        exists v, []. repeat split. now constructor. }
    set (r := fetch R (trace m) (videoAddress API_KEY vd)) in *. clearbody r.
    destruct r as [resp | e].
    2:{ destruct Hs as [He Hev]. rewrite He, Hev. exists []. split; [constructor |].
        cbn [fst retrievals app List.length firstn map nth_error].
        exists v, [Ev (Fetch (videoAddress API_KEY vd)) (Rejected e)].
        repeat split. now constructor. }
    destruct (ok resp) eqn:Hok.
    2:{ destruct Hs as [He Hev]. rewrite He, Hev. exists []. split; [constructor |].
        cbn [fst retrievals app List.length firstn map nth_error].
        exists v, [Ev (Fetch (videoAddress API_KEY vd)) (Resolved resp)].
        repeat split. now constructor. }
    set (b := blob R _ resp) in *. clearbody b.
    destruct b as [bytes | e].
    2:{ destruct Hs as [He Hev]. rewrite He, Hev. exists []. split; [constructor |].
        cbn [fst retrievals app List.length firstn map nth_error].
        exists v, [Ev (Fetch (videoAddress API_KEY vd)) (Resolved resp);
                   Ev (ResponseBlob resp) (Rejected e)].
        repeat split. now constructor. }
    destruct Hs as [He Hev]. rewrite He, Hev.
    set (m3 := record _ (CreateObjectURL bytes) (nextURL m)).
    assert (Hn3 : nextURL m3 = S (nextURL m)) by reflexivity.
    destruct (IH (acc ++ [nextURL m]) m3) as [xs [Hall Hm]].
    exists ({| got_video := vd; got_response := resp; got_bytes := bytes |} :: xs).
    split; [now constructor |].
    destruct (fst (exec R (fetchVideos API_KEY videos (acc ++ [nextURL m])) m3))
      as [urls | e |]; [| | contradiction].
    + destruct Hm as [Hevs [Hvs Hurls]]. rewrite Hn3 in Hevs, Hurls.
      split; [cbn [retrievals retrieval app got_video got_response got_bytes];
              now rewrite Hevs |].
      split; [cbn [map got_video]; now rewrite Hv, Hvs |].
      rewrite Hurls, <- app_assoc. reflexivity.
    + destruct Hm as [vdata [tail [Hevs [Hvs [Hnth Hfail]]]]]. rewrite Hn3 in Hevs.
      exists vdata, tail.
      split; [cbn [retrievals retrieval app got_video got_response got_bytes];
              now rewrite Hevs |].
      split; [cbn [List.length firstn map got_video]; now rewrite Hv, Hvs |].
      split; [exact Hnth | exact Hfail].
Qed.

(** ** The exact trace of the [try] block *)

Lemma generate_trace R API_KEY payload m :
  TryTrace API_KEY payload (nextURL m)
    (events R (generate API_KEY payload) m)
    (fst (exec R (generate API_KEY payload) m)).
Proof.
  pose proof (generate_step R API_KEY payload m) as Hs. cbv zeta in Hs.
  set (r := generateVideos R (trace m) payload) in *. clearbody r.
  destruct r as [op0 | e].
  2:{ destruct Hs as [He Hv]. rewrite He, Hv. constructor. }
  destruct Hs as [He Hv].
  set (m1 := record (record m (GenerateVideos payload) (Resolved op0))
                    (SetLoadingMessage generatingMessage) tt) in *.
  assert (Hn1 : nextURL m1 = nextURL m) by reflexivity.
  pose proof (pollLoop_shape R maxPolls op0 0 m1 ltac:(lia)) as [answers [Hall Hp]].
  pose proof (Only_events pollingCmd R _ m1 (pollLoop_Only maxPolls op0 0)) as Hclass.
  pose proof (polling_no_downloads _ Hclass) as [_ Hnc].
  pose proof (exec_replay R (pollLoop maxPolls op0 0) m1) as Hm2.
  rewrite He, Hv.
  destruct (exec R (pollLoop maxPolls op0 0) m1) as [[[op' n'] | err |] m2];
    cbn [fst snd] in *; [| | contradiction].
  - destruct Hp as [Hevs [Hop [Hn' [Hx Hb]]]]. cbn [Nat.add] in Hn', Hb.
    assert (Hlen : List.length answers <= maxPolls).
    { destruct answers as [| a answers']; [cbn [List.length]; lia |].
      apply Hb. congruence. }
    assert (Hn2 : nextURL m2 = nextURL m).
    { rewrite Hm2, nextURL_replay, Hnc, Hn1. simpl. lia. }
    pose proof (deliver_step R API_KEY op' m2) as Hd. cbv zeta in Hd.
    destruct (isDone op') eqn:Hdone.
    + destruct (producedVideos op') as [videos |] eqn:Hvideos.
      * destruct Hd as [He' Hv']. rewrite He', Hv'.
        set (m3 := record m2 (SetLoadingMessage fetchingMessage) tt) in *.
        assert (Hn3 : nextURL m3 = nextURL m) by exact Hn2.
        pose proof (fetchVideos_shape R API_KEY videos [] m3) as [xs [Hok Hf]].
        cbv zeta in Hf. rewrite Hn3 in Hf.
        destruct (exec R (fetchVideos API_KEY videos []) m3) as [[urls | err |] m4];
          cbn [fst snd] in *; [| | contradiction].
        -- destruct Hf as [Hfe [Hvs Hurls]]. cbn [app] in Hurls. subst urls op'.
           rewrite Hevs, Hfe.
           change (TryTrace API_KEY payload (nextURL m)
                     (pollingPhase payload op0 answers
                      ++ [Ev (SetLoadingMessage fetchingMessage) tt]
                      ++ retrievals API_KEY (nextURL m) xs
                      ++ [Ev (SetGeneratedVideos (seq (nextURL m) (List.length xs))) tt])
                     (Returned tt)).
           now apply delivered with (videos := videos).
        -- destruct Hf as [vdata [tail [Hfe [Hvs [Hnth Hfail]]]]]. subst op'.
           rewrite Hevs, Hfe, app_nil_r.
           change (TryTrace API_KEY payload (nextURL m)
                     (pollingPhase payload op0 answers
                      ++ [Ev (SetLoadingMessage fetchingMessage) tt]
                      ++ retrievals API_KEY (nextURL m) xs ++ tail)
                     (Thrown err)).
           now apply download_failed with (videos := videos) (videoData := vdata).
      * destruct Hd as [He' Hv']. rewrite He', Hv', app_nil_r, Hevs. subst op'.
        now apply no_result.
    + destruct Hd as [He' Hv']. rewrite He', Hv', app_nil_r, Hevs. subst op'.
      destruct Hx as [Hx | Hx]; [congruence |].
      apply timed_out; [| lia].
      rewrite (removelast_last_cons op0 answers). apply Forall_app.
      split; [exact Hall |]. constructor; [exact Hdone | constructor].
  - destruct Hp as [Hevs [Hnd Hlt]]. rewrite Hevs, app_nil_r.
    change (TryTrace API_KEY payload (nextURL m)
              (pollingPhase payload op0 answers ++ brokenRound (last answers op0) err)
              (Thrown err)).
    apply poll_rejected; [| exact Hlt].
    rewrite (removelast_last_cons op0 answers). apply Forall_app.
    split; [exact Hall |]. constructor; [exact Hnd | constructor].
Qed.

(** Every validated run: what [handleSubmit] does before the [try] block,
    one of the traces of the block, then the [catch] and [finally] blocks. *)
Lemma handleSubmit_trace R API_KEY m :
  canSubmit (state m) = true ->
  let st := state m in
  let payload := buildPayload st in
  let p := handleSubmit API_KEY st in
  exists tryEvs outcome,
    events R p m = startEvents st ++ tryEvs ++ closing payload outcome
    /\ TryTrace API_KEY payload (nextURL m) tryEvs outcome
    /\ logged tryEvs = []
    /\ state (snd (exec R p m)) =
       match outcome with
       | Returned _ => afterSuccess st (created tryEvs)
       | Thrown e => afterFailure st (dialogFor e)
       | Exhausted => st
       end.
Proof.
  intros Hc st payload p. subst p.
  destruct (handleSubmit_anatomy R API_KEY m Hc) as [Hev [Hres Hst]].
  fold st in Hev, Hst, Hres. fold payload in Hev, Hst, Hres.
  pose proof (generate_trace R API_KEY payload (replay (startEvents st) m)) as Ht.
  rewrite nextURL_started in Ht.
  eexists _, _. split; [exact Hev |]. split; [exact Ht |].
  split; [exact (TryResult_logged _ _ _ _ Hres) |].
  rewrite Hst.
  destruct (fst (exec R (generate API_KEY payload) (replay (startEvents st) m)));
    try reflexivity.
  unfold payload. now rewrite shownFor_dialogFor.
Qed.

(** ** What the phases of a run add to the observations *)

Lemma polls_rounds n op answers :
  polls (rounds n op answers) = removelast (op :: answers).
Proof.
  revert n op; induction answers as [| a answers IH]; intros n op; [reflexivity |].
  cbn [rounds round app polls flat_map ev_cmd].
  change (flat_map _ ?l) with (polls l). rewrite IH. reflexivity.
Qed.

Lemma pollingPhase_observed payload op0 answers :
  reports (pollingPhase payload op0 answers) = map Resolved (op0 :: answers)
  /\ polls (pollingPhase payload op0 answers) = removelast (op0 :: answers)
  /\ waited (pollingPhase payload op0 answers)
     = (10000 * N.of_nat (List.length answers))%N
  /\ downloads (pollingPhase payload op0 answers) = []
  /\ created (pollingPhase payload op0 answers) = []
  /\ installed (pollingPhase payload op0 answers) = []
  /\ revoked (pollingPhase payload op0 answers) = [].
Proof.
  unfold pollingPhase.
  pose proof (rounds_polling 0 op0 answers) as Hc.
  destruct (polling_no_downloads _ Hc) as [Hd Hcr].
  destruct (quiet_observed _ (class_weaken _ _ _ polling_quiet Hc)) as [Hi Hr].
  rewrite reports_app, polls_app, waited_app, downloads_app, created_app,
    installed_app, revoked_app, rounds_reports, polls_rounds, rounds_length_waited,
    Hd, Hcr, Hi, Hr.
  repeat split.
Qed.

Lemma retrievals_fetching API_KEY next xs :
  Forall (fun e => fetchingCmd (ev_cmd e) = true) (retrievals API_KEY next xs).
Proof.
  revert next; induction xs as [| x xs IH]; intros next; [constructor |].
  cbn [retrievals retrieval app]. repeat constructor. apply IH.
Qed.

Lemma FailedRetrieval_fetching API_KEY videoData tail e :
  FailedRetrieval API_KEY videoData tail e ->
  Forall (fun e => fetchingCmd (ev_cmd e) = true) tail /\ created tail = [].
Proof. intros H; inversion H; subst; split; repeat constructor. Qed.

Lemma fetching_observed evs :
  Forall (fun e => fetchingCmd (ev_cmd e) = true) evs ->
  reports evs = [] /\ polls evs = [] /\ waited evs = 0%N
  /\ installed evs = [] /\ revoked evs = [].
Proof.
  intros H. split; [now apply fetching_no_reports |].
  split.
  { apply flat_map_nil. eapply Forall_impl; [| exact H].
    intros [c r]; cbn [ev_cmd]; clear r; destruct c; simpl; congruence. }
  split; [apply (no_waits fetchingCmd); [reflexivity | exact H] |].
  apply quiet_observed, (class_weaken _ _ _ fetching_quiet), H.
Qed.

Lemma created_retrievals API_KEY next xs :
  created (retrievals API_KEY next xs) = seq next (List.length xs).
Proof.
  revert next; induction xs as [| x xs IH]; intros next; [reflexivity |].
  cbn [retrievals retrieval app created flat_map List.length seq].
  change (flat_map _ ?l) with (created l). now rewrite IH.
Qed.


Lemma removelast_map {A B} (f : A -> B) l :
  removelast (map f l) = map f (removelast l).
Proof.
  induction l as [| a l IH]; [reflexivity |].
  destruct l as [| b l]; [reflexivity |].
  change (removelast (map f (a :: b :: l))) with (f a :: removelast (map f (b :: l))).
  now rewrite IH.
Qed.

Lemma delivery_observed evs :
  Forall (fun e => deliveryCmd (ev_cmd e) = true) evs ->
  reports evs = [] /\ polls evs = [] /\ waited evs = 0%N.
Proof.
  intros H. split; [| split].
  - apply flat_map_nil. eapply Forall_impl; [| exact H].
    intros [c r]; cbn [ev_cmd]; destruct c; simpl; congruence.
  - apply flat_map_nil. eapply Forall_impl; [| exact H].
    intros [c r]; cbn [ev_cmd]; clear r; destruct c; simpl; congruence.
  - apply (no_waits deliveryCmd); [reflexivity | exact H].
Qed.

Lemma pollingPhase_then payload op0 answers rest :
  Forall (fun e => deliveryCmd (ev_cmd e) = true) rest ->
  reports (pollingPhase payload op0 answers ++ rest) = map Resolved (op0 :: answers)
  /\ polls (pollingPhase payload op0 answers ++ rest) = removelast (op0 :: answers)
  /\ waited (pollingPhase payload op0 answers ++ rest)
     = (10000 * N.of_nat (List.length answers))%N.
Proof.
  intros H. destruct (delivery_observed rest H) as [Hr [Hp Hw]].
  destruct (pollingPhase_observed payload op0 answers) as [Hr' [Hp' [Hw' _]]].
  rewrite reports_app, polls_app, waited_app, Hr, Hp, Hw, Hr', Hp', Hw', !app_nil_r,
    N.add_0_r.
  repeat split.
Qed.

Lemma failing_delivery API_KEY next xs videoData tail e :
  FailedRetrieval API_KEY videoData tail e ->
  Forall (fun e => deliveryCmd (ev_cmd e) = true)
    ([Ev (SetLoadingMessage fetchingMessage) tt]
     ++ retrievals API_KEY next xs ++ tail).
Proof.
  intros H. constructor; [reflexivity |].
  apply (class_weaken _ _ _ fetching_delivery), Forall_app.
  split; [apply retrievals_fetching |].
  now apply (FailedRetrieval_fetching API_KEY videoData tail e).
Qed.

Lemma complete_delivery API_KEY next xs urls :
  Forall (fun e => deliveryCmd (ev_cmd e) = true)
    ([Ev (SetLoadingMessage fetchingMessage) tt]
     ++ retrievals API_KEY next xs ++ [Ev (SetGeneratedVideos urls) tt]).
Proof.
  constructor; [reflexivity |]. apply Forall_app. split.
  - apply (class_weaken _ _ _ fetching_delivery), retrievals_fetching.
  - repeat constructor.
Qed.

(** What a run observes, by the trace of its [try] block. *)
Lemma TryTrace_polls API_KEY payload next evs o :
  TryTrace API_KEY payload next evs o ->
  map Resolved (polls evs) = removelast (reports evs)
  /\ Forall notDone (polls evs)
  /\ List.length (polls evs) <= maxPolls
  /\ waited evs = (10000 * N.of_nat (List.length (polls evs)))%N.
Proof.
  assert (Hlen : forall (op0 : Operation) answers,
             List.length (removelast (op0 :: answers)) = List.length answers).
  { intros op0 answers.
    pose proof (f_equal (@List.length _) (removelast_last_cons op0 answers)) as H.
    rewrite length_app in H. cbn [List.length] in H. lia. }
  intros H; inversion H; subst; unfold maxPolls in *.
  - split; [reflexivity |]. split; [constructor |].
    split; [cbn; lia | reflexivity].
  - destruct (pollingPhase_observed payload op0 answers) as [Hr [Hp [Hw _]]].
    rewrite reports_app, polls_app, waited_app, Hr, Hp, Hw.
    cbn [brokenRound reports polls waited flat_map fold_right ev_cmd submitted polled app].
    rewrite <- removelast_last_cons.
    split.
    { change (map Resolved (op0 :: answers) ++ [Rejected e])
        with (map Resolved (op0 :: answers) ++ [@Rejected Operation e]).
      now rewrite removelast_last. }
    split; [assumption |]. cbn [List.length]. split; lia.
  - destruct (pollingPhase_observed payload op0 answers) as [Hr [Hp [Hw _]]].
    rewrite Hr, Hp, Hw, removelast_map, Hlen.
    split; [reflexivity |]. split; [| split; [lia | reflexivity]].
    match goal with
    | Hn : Forall notDone (op0 :: answers) |- _ =>
        rewrite (removelast_last_cons op0 answers) in Hn;
        apply Forall_app in Hn; tauto
    end.
  - destruct (pollingPhase_observed payload op0 answers) as [Hr [Hp [Hw _]]].
    rewrite Hr, Hp, Hw, removelast_map, Hlen.
    split; [reflexivity |]. split; [assumption | split; [lia | reflexivity]].
  - match goal with
    | Hf : FailedRetrieval _ _ _ _ |- _ =>
        destruct (pollingPhase_then payload op0 answers _
                    (failing_delivery API_KEY next xs videoData tail e Hf))
          as [Hr [Hp Hw]]
    end.
    rewrite Hr, Hp, Hw, removelast_map, Hlen.
    split; [reflexivity |]. split; [assumption | split; [lia | reflexivity]].
  - destruct (pollingPhase_then payload op0 answers _
                (complete_delivery API_KEY next xs (seq next (List.length xs))))
      as [Hr [Hp Hw]].
    rewrite Hr, Hp, Hw, removelast_map, Hlen.
    split; [reflexivity |]. split; [assumption | split; [lia | reflexivity]].
Qed.

Lemma run_polls st payload tryEvs o :
  let evs := startEvents st ++ tryEvs ++ closing payload o in
  polls evs = polls tryEvs.
Proof.
  cbv zeta. rewrite !polls_app.
  destruct (startEvents_plain st) as [_ [-> _]].
  destruct (closing_plain payload o) as [-> _].
  now rewrite app_nil_r.
Qed.

(** X6: the polling discipline of every run that passed validation.  Each
    poll asks for the status with the operation the previous answer
    returned (the first one with the operation [generateVideos] returned);
    only a status that is not done is polled again; there are at most 60
    polls; and each poll comes after one wait of 10000 ms, so that the time
    waited is 10000 ms times the number of polls. *)
Theorem polling_discipline :
  forall API_KEY R m,
    canSubmit (state m) = true ->
    let evs := events R (handleSubmit API_KEY (state m)) m in
    map Resolved (polls evs) = removelast (reports evs)
    /\ Forall notDone (polls evs)
    /\ List.length (polls evs) <= 60
    /\ waited evs = (10000 * N.of_nat (List.length (polls evs)))%N.
Proof.
  intros API_KEY R m Hc evs. subst evs.
  destruct (handleSubmit_trace R API_KEY m Hc) as [tryEvs [o [Hev [Ht _]]]].
  rewrite Hev.
  destruct (run_observed (state m) (buildPayload (state m)) tryEvs o)
    as [Hr [_ [_ [_ [_ Hw]]]]].
  rewrite Hr, Hw, run_polls.
  exact (TryTrace_polls _ _ _ _ _ Ht).
Qed.

Lemma polling_discipline_witness :
  let evs := events neverDone (handleSubmit None (state catMachine)) catMachine in
  map Resolved (polls evs) = removelast (reports evs)
  /\ Forall notDone (polls evs)
  /\ List.length (polls evs) <= 60
  /\ waited evs = (10000 * N.of_nat (List.length (polls evs)))%N.
Proof. apply (polling_discipline None neverDone catMachine). reflexivity. Defined.

(** ** Runs by their outcome *)

Lemma in_resolved_rejected {T} (e : JSError) (l : list T) :
  ~ In (Rejected e) (map Resolved l).
Proof. intros H. apply in_map_iff in H. destruct H as [x [Hx _]]. discriminate. Qed.

Lemma done_is_last (op0 : Operation) answers final :
  Forall notDone (removelast (op0 :: answers)) ->
  In (Resolved final) (map Resolved (op0 :: answers)) ->
  isDone final = true ->
  final = last answers op0.
Proof.
  intros Hall Hin Hd. apply in_map_Resolved in Hin.
  rewrite (removelast_last_cons op0 answers) in Hin.
  apply in_app_or in Hin. destruct Hin as [Hin | [<- | []]]; [| reflexivity].
  rewrite Forall_forall in Hall. specialize (Hall _ Hin).
  unfold notDone in Hall. congruence.
Qed.

Lemma TryTrace_observed API_KEY payload next evs o :
  TryTrace API_KEY payload next evs o ->
  installed evs = match o with Returned _ => created evs | _ => [] end
  /\ revoked evs = []
  /\ exists k, created evs = seq next k.
Proof.
  intros H; inversion H; subst.
  - repeat split. now exists 0.
  - destruct (pollingPhase_observed payload op0 answers)
      as [_ [_ [_ [_ [Hc [Hi Hr]]]]]].
    rewrite installed_app, revoked_app, created_app, Hc, Hi, Hr.
    repeat split. now exists 0.
  - destruct (pollingPhase_observed payload op0 answers)
      as [_ [_ [_ [_ [Hc [Hi Hr]]]]]].
    rewrite Hc, Hi, Hr. repeat split. now exists 0.
  - destruct (pollingPhase_observed payload op0 answers)
      as [_ [_ [_ [_ [Hc [Hi Hr]]]]]].
    rewrite Hc, Hi, Hr. repeat split. now exists 0.
  - destruct (pollingPhase_observed payload op0 answers)
      as [_ [_ [_ [_ [Hc [Hi Hr]]]]]].
    match goal with
    | Hf : FailedRetrieval _ _ _ _ |- _ =>
        destruct (FailedRetrieval_fetching _ _ _ _ Hf) as [Hft Hct]
    end.
    destruct (fetching_observed _ (retrievals_fetching API_KEY next xs))
      as [_ [_ [_ [Hix Hrx]]]].
    destruct (fetching_observed _ Hft) as [_ [_ [_ [Hit Hrt]]]].
    rewrite !installed_app, !revoked_app, !created_app, Hc, Hi, Hr, Hix, Hrx,
      Hit, Hrt, Hct, created_retrievals.
    cbn [installed revoked created flat_map ev_cmd app]. rewrite app_nil_r.
    repeat split. now exists (List.length xs).
  - destruct (pollingPhase_observed payload op0 answers)
      as [_ [_ [_ [_ [Hc [Hi Hr]]]]]].
    destruct (fetching_observed _ (retrievals_fetching API_KEY next xs))
      as [_ [_ [_ [Hix Hrx]]]].
    rewrite !installed_app, !revoked_app, !created_app, Hc, Hi, Hr, Hix, Hrx,
      created_retrievals.
    cbn [installed revoked created flat_map ev_cmd app]. rewrite !app_nil_r.
    repeat split. now exists (List.length xs).
Qed.

(** X7: a rejection by the service ends the run at once.  When the
    submission or a poll is rejected with [e], the trace of the run is the
    start of [handleSubmit], then either the rejected submission alone or
    the rounds answered so far and the wait and the poll that was rejected,
    then the [catch] block for [e] and the [finally] block: no retry, no
    further poll, nothing retrieved, no URL created and no batch installed;
    the dialog shows [dialogFor e]. *)
Theorem rejection_ends_run :
  forall API_KEY R m e,
    canSubmit (state m) = true ->
    let st := state m in
    let payload := buildPayload st in
    let p := handleSubmit API_KEY st in
    let evs := events R p m in
    In (Rejected e) (reports evs) ->
    (exists pre,
       evs = startEvents st ++ pre ++ errorEvents (Some payload) e ++ finallyEvents
       /\ (pre = [Ev (GenerateVideos payload) (Rejected e)]
           \/ exists op0 answers,
                pre = pollingPhase payload op0 answers
                      ++ brokenRound (last answers op0) e
                /\ Forall notDone (op0 :: answers)
                /\ List.length answers < 60))
    /\ downloads evs = [] /\ created evs = [] /\ installed evs = []
    /\ state (snd (exec R p m)) = afterFailure st (dialogFor e).
Proof.
  intros API_KEY R m e Hc st payload p evs Hin. subst p evs.
  destruct (handleSubmit_trace R API_KEY m Hc) as [tryEvs [o [Hev [Ht [Htl Hst]]]]].
  fold st in Hev, Ht, Hst. fold payload in Hev, Ht.
  destruct (run_observed st payload tryEvs o) as [Hr [Hd [Hcr [Hi _]]]].
  cbv zeta in Hr, Hd, Hcr, Hi.
  rewrite Hev in Hin |- *. rewrite Hr in Hin. rewrite Hd, Hcr, Hi, Hst.
  clear Hev Hst Hr Hd Hcr Hi.
  inversion Ht; subst.
  - destruct Hin as [[= <-] | []].
    split; [eexists; split; [reflexivity | now left] |]. repeat split.
  - destruct (pollingPhase_observed payload op0 answers)
      as [Hr [_ [_ [Hd [Hcr [Hi _]]]]]].
    rewrite reports_app, Hr in Hin. apply in_app_or in Hin.
    destruct Hin as [Hin | [[= <-] | []]]; [now apply in_resolved_rejected in Hin |].
    split.
    { eexists; split; [reflexivity |]. right. exists op0, answers. auto. }
    rewrite downloads_app, created_app, installed_app, Hd, Hcr, Hi. repeat split.
  - destruct (pollingPhase_observed payload op0 answers) as [Hr _].
    rewrite Hr in Hin. now apply in_resolved_rejected in Hin.
  - destruct (pollingPhase_observed payload op0 answers) as [Hr _].
    rewrite Hr in Hin. now apply in_resolved_rejected in Hin.
  - match goal with
    | Hf : FailedRetrieval _ _ _ _ |- _ =>
        destruct (pollingPhase_then payload op0 answers _
                    (failing_delivery API_KEY (nextURL m) xs videoData tail e0 Hf))
          as [Hr _]
    end.
    rewrite Hr in Hin. now apply in_resolved_rejected in Hin.
  - destruct (pollingPhase_then payload op0 answers _
                (complete_delivery API_KEY (nextURL m) xs
                   (seq (nextURL m) (List.length xs)))) as [Hr _].
    rewrite Hr in Hin. now apply in_resolved_rejected in Hin.
Qed.

Lemma rejection_ends_run_witness :
  let e := newError (js "503 Service Unavailable") in
  let st := state catMachine in
  let payload := buildPayload st in
  let p := handleSubmit None st in
  let evs := events secondPollFails p catMachine in
  (exists pre,
     evs = startEvents st ++ pre ++ errorEvents (Some payload) e ++ finallyEvents
     /\ (pre = [Ev (GenerateVideos payload) (Rejected e)]
         \/ exists op0 answers,
              pre = pollingPhase payload op0 answers
                    ++ brokenRound (last answers op0) e
              /\ Forall notDone (op0 :: answers)
              /\ List.length answers < 60))
  /\ downloads evs = [] /\ created evs = [] /\ installed evs = []
  /\ state (snd (exec secondPollFails p catMachine)) = afterFailure st (dialogFor e).
Proof.
  apply (rejection_ends_run None secondPollFails catMachine
           (newError (js "503 Service Unavailable")));
    [reflexivity | vm_compute; auto].
Defined.

(** X8: the exact trace of a run that logs no error.  The submission is
    accepted, the polls are answered by statuses of which only the last is
    done, that status carries at least one video, the videos are retrieved
    one after the other in the order of the result, each from the address
    made of its [uri] and the key, each body is given the next URL of the
    store, the URLs are installed as the batch in that order, and the
    [finally] block ends the run. *)
Theorem successful_run_trace :
  forall API_KEY R m,
    canSubmit (state m) = true ->
    let st := state m in
    let payload := buildPayload st in
    let p := handleSubmit API_KEY st in
    let evs := events R p m in
    logged evs = [] ->
    exists op0 answers videos xs,
      evs = startEvents st
            ++ (pollingPhase payload op0 answers
                ++ [Ev (SetLoadingMessage fetchingMessage) tt]
                ++ retrievals API_KEY (nextURL m) xs
                ++ [Ev (SetGeneratedVideos (seq (nextURL m) (List.length xs))) tt])
            ++ finallyEvents
      /\ Forall notDone (removelast (op0 :: answers))
      /\ List.length answers <= 60
      /\ isDone (last answers op0) = true
      /\ producedVideos (last answers op0) = Some videos
      /\ map video videos = map (fun x => Some (got_video x)) xs
      /\ Forall (fun x => ok (got_response x) = true) xs
      /\ xs <> []
      /\ state (snd (exec R p m)) = afterSuccess st (seq (nextURL m) (List.length xs)).
Proof.
  intros API_KEY R m Hc st payload p evs Hlog. subst p evs.
  destruct (handleSubmit_trace R API_KEY m Hc) as [tryEvs [o [Hev [Ht [Htl Hst]]]]].
  fold st in Hev, Ht, Hst. fold payload in Hev, Ht.
  rewrite Hev, !logged_app, Htl in Hlog.
  destruct (closing_plain payload o) as [_ [_ [_ Hcl]]]. rewrite Hcl in Hlog.
  destruct (startEvents_plain st) as [Hsl _]. rewrite Hsl in Hlog.
  cbn [app] in Hlog.
  destruct (TryTrace_observed _ _ _ _ _ Ht) as [Hi _].
  inversion Ht; subst; try discriminate Hlog.
  exists op0, answers, videos, xs.
  split; [exact Hev |]. do 6 (split; [assumption |]).
  split.
  - intros ->. cbn [map] in *.
    match goal with
    | Hp : producedVideos _ = Some videos, Hm : map video videos = [] |- _ =>
        apply map_eq_nil in Hm; subst videos;
        unfold producedVideos in Hp;
        destruct (response (last answers op0)) as [rsp |]; [| discriminate];
        destruct (resp_generatedVideos rsp) as [[| ? ?] |]; discriminate
    end.
  - rewrite Hst, <- Hi.
    destruct (pollingPhase_observed payload op0 answers)
      as [_ [_ [_ [_ [_ [Hip _]]]]]].
    destruct (fetching_observed _ (retrievals_fetching API_KEY (nextURL m) xs))
      as [_ [_ [_ [Hix _]]]].
    rewrite !installed_app, Hip, Hix. cbn [installed flat_map ev_cmd app].
    now rewrite app_nil_r.
Qed.

Lemma successful_run_trace_witness :
  let st := state catMachine in
  let payload := buildPayload st in
  let p := handleSubmit None st in
  let evs := events doneAtSecondPoll p catMachine in
  exists op0 answers videos xs,
    evs = startEvents st
          ++ (pollingPhase payload op0 answers
              ++ [Ev (SetLoadingMessage fetchingMessage) tt]
              ++ retrievals None (nextURL catMachine) xs
              ++ [Ev (SetGeneratedVideos (seq (nextURL catMachine) (List.length xs))) tt])
          ++ finallyEvents
    /\ Forall notDone (removelast (op0 :: answers))
    /\ List.length answers <= 60
    /\ isDone (last answers op0) = true
    /\ producedVideos (last answers op0) = Some videos
    /\ map video videos = map (fun x => Some (got_video x)) xs
    /\ Forall (fun x => ok (got_response x) = true) xs
    /\ xs <> []
    /\ state (snd (exec doneAtSecondPoll p catMachine))
       = afterSuccess st (seq (nextURL catMachine) (List.length xs)).
Proof.
  apply (successful_run_trace None doneAtSecondPoll catMachine); reflexivity.
Defined.

(** X9: a run whose job ended with videos and that logs the error [e]
    failed in the download loop, on the first video that has no [video]
    entry, whose request is rejected or answered with [ok] false, or whose
    body cannot be read; the videos before it were retrieved and each got a
    URL.  These URLs are neither installed nor revoked by the run, which
    installs nothing and releases only the batch that was current when it
    started. *)
Theorem failed_download_trace :
  forall API_KEY R m final videos e,
    canSubmit (state m) = true ->
    let st := state m in
    let payload := buildPayload st in
    let p := handleSubmit API_KEY st in
    let evs := events R p m in
    In (Resolved final) (reports evs) ->
    isDone final = true ->
    producedVideos final = Some videos ->
    In e (logged evs) ->
    (exists op0 answers xs videoData tail,
       evs = startEvents st
             ++ (pollingPhase payload op0 answers
                 ++ [Ev (SetLoadingMessage fetchingMessage) tt]
                 ++ retrievals API_KEY (nextURL m) xs ++ tail)
             ++ errorEvents (Some payload) e ++ finallyEvents
       /\ final = last answers op0
       /\ Forall (fun x => ok (got_response x) = true) xs
       /\ firstn (List.length xs) (map video videos)
          = map (fun x => Some (got_video x)) xs
       /\ nth_error videos (List.length xs) = Some videoData
       /\ FailedRetrieval API_KEY videoData tail e
       /\ created evs = seq (nextURL m) (List.length xs))
    /\ installed evs = []
    /\ revoked evs = generatedVideos st
    /\ state (snd (exec R p m)) = afterFailure st (dialogFor e).
Proof.
  intros API_KEY R m final videos e Hc st payload p evs Hin Hdone Hvideos Hlog.
  subst p evs.
  destruct (handleSubmit_trace R API_KEY m Hc) as [tryEvs [o [Hev [Ht [Htl Hst]]]]].
  fold st in Hev, Ht, Hst. fold payload in Hev, Ht.
  destruct (run_observed st payload tryEvs o) as [Hr [_ [Hcr [Hi [Hrv _]]]]].
  cbv zeta in Hr, Hcr, Hi, Hrv.
  destruct (TryTrace_observed _ _ _ _ _ Ht) as [Hti [Htr _]].
  rewrite Hev in Hin, Hlog |- *. rewrite Hr in Hin. rewrite Hcr, Hi, Hrv, Hst, Htr, Hti.
  rewrite !logged_app, Htl in Hlog.
  destruct (startEvents_plain st) as [Hsl _]. rewrite Hsl in Hlog.
  destruct (closing_plain payload o) as [_ [_ [_ Hcl]]]. rewrite Hcl in Hlog.
  cbn [app] in Hlog.
  clear Hev Hst Hr Hcr Hi Hrv Hsl Hcl Hti Htr Htl.
  assert (Hnd : forall (op0 : Operation) answers,
             Forall notDone (op0 :: answers) ->
             ~ In (Resolved final) (map Resolved (op0 :: answers))).
  { intros op0 answers Hall H. apply in_map_Resolved in H.
    rewrite Forall_forall in Hall. specialize (Hall _ H).
    unfold notDone in Hall. congruence. }
  inversion Ht; subst.
  - destruct Hin as [[=] | []].
  - destruct (pollingPhase_observed payload op0 answers) as [Hr _].
    rewrite reports_app, Hr in Hin. apply in_app_or in Hin.
    destruct Hin as [Hin | [[=] | []]]. exfalso; eapply Hnd; eassumption.
  - destruct (pollingPhase_observed payload op0 answers) as [Hr _].
    rewrite Hr in Hin. exfalso; eapply Hnd; eassumption.
  - destruct (pollingPhase_observed payload op0 answers) as [Hr _].
    rewrite Hr in Hin.
    match goal with
    | Hall : Forall notDone (removelast _) |- _ =>
        pose proof (done_is_last op0 answers final Hall Hin Hdone) as ->
    end.
    congruence.
  - match goal with
    | Hf : FailedRetrieval _ _ _ _ |- _ =>
        destruct (pollingPhase_then payload op0 answers _
                    (failing_delivery API_KEY (nextURL m) xs videoData tail e0 Hf))
          as [Hr _];
        pose proof (FailedRetrieval_fetching _ _ _ _ Hf) as [_ Hct]
    end.
    rewrite Hr in Hin.
    match goal with
    | Hall : Forall notDone (removelast _) |- _ =>
        pose proof (done_is_last op0 answers final Hall Hin Hdone) as ->
    end.
    assert (videos0 = videos) as -> by congruence.
    destruct Hlog as [<- | []].
    split; [| split; [reflexivity | split; [apply app_nil_r | reflexivity]]].
    exists op0, answers, xs, videoData, tail.
    repeat (split; [first [reflexivity | assumption] |]).
    destruct (pollingPhase_observed payload op0 answers)
      as [_ [_ [_ [_ [Hc0 _]]]]].
    rewrite !created_app, Hc0, created_retrievals, Hct.
    cbn [created flat_map app]. now rewrite app_nil_r.
  - destruct Hlog.
Qed.

Lemma failed_download_trace_witness :
  let st := state catMachine in
  let payload := buildPayload st in
  let p := handleSubmit None st in
  let evs := events secondFails p catMachine in
  let e := newError (downloadMessage forbidden) in
  created evs = [0]
  /\ (exists op0 answers xs videoData tail,
        evs = startEvents st
              ++ (pollingPhase payload op0 answers
                  ++ [Ev (SetLoadingMessage fetchingMessage) tt]
                  ++ retrievals None (nextURL catMachine) xs ++ tail)
              ++ errorEvents (Some payload) e ++ finallyEvents
        /\ finishedOperation twoVideos = last answers op0
        /\ Forall (fun x => ok (got_response x) = true) xs
        /\ firstn (List.length xs) (map video twoVideos)
           = map (fun x => Some (got_video x)) xs
        /\ nth_error twoVideos (List.length xs) = Some videoData
        /\ FailedRetrieval None videoData tail e
        /\ created evs = seq (nextURL catMachine) (List.length xs))
  /\ installed evs = []
  /\ revoked evs = generatedVideos st
  /\ state (snd (exec secondFails p catMachine)) = afterFailure st (dialogFor e).
Proof.
  split; [reflexivity |].
  apply (failed_download_trace None secondFails catMachine
           (finishedOperation twoVideos) twoVideos
           (newError (downloadMessage forbidden)));
    [reflexivity | left; reflexivity | reflexivity | reflexivity | left; reflexivity].
Defined.

(** ** What a run leaves alone *)

Lemma formOf_advance_guard R payload acc body :
  Pending acc body ->
  forall m,
    formOf (state (fst (advance R (guard payload body) m))) = formOf (state m).
Proof.
  induction 1 as [acc | acc e | acc c k Hc Hk IH | acc b k Hk IH | acc k Hk];
    intros m; try reflexivity.
  - unfold guard. cbn [tryCatch tryFinally advance].
    destruct (isAwaited c); [reflexivity |].
    change (formOf (state (fst (advance R (guard payload (k (respond R m c)))
                                        (record m c (respond R m c)))))
            = formOf (state m)).
    rewrite IH. destruct c; try discriminate; reflexivity.
  - unfold guard. cbn [tryCatch tryFinally advance isAwaited respond].
    change (formOf (state (fst (advance R (guard payload (k (nextURL m)))
                                        (record m (CreateObjectURL b) (nextURL m)))))
            = formOf (state m)).
    now rewrite IH.
  - unfold guard. cbn [tryCatch tryFinally advance isAwaited respond].
    rewrite Hk. reflexivity.
Qed.

Lemma dialog_advance_guard R payload acc body :
  Pending acc body ->
  forall m,
    showErrorModal (state m) = true ->
    showErrorModal (state (fst (advance R (guard payload body) m))) = true.
Proof.
  induction 1 as [acc | acc e | acc c k Hc Hk IH | acc b k Hk IH | acc k Hk];
    intros m Hm; try (cbn; assumption); try reflexivity.
  - unfold guard. cbn [tryCatch tryFinally advance].
    destruct (isAwaited c); [exact Hm |].
    change (showErrorModal
              (state (fst (advance R (guard payload (k (respond R m c)))
                                   (record m c (respond R m c))))) = true).
    apply IH. destruct c; try discriminate; exact Hm.
  - unfold guard. cbn [tryCatch tryFinally advance isAwaited respond].
    change (showErrorModal
              (state (fst (advance R (guard payload (k (nextURL m)))
                                   (record m (CreateObjectURL b) (nextURL m))))) = true).
    now apply IH.
  - unfold guard. cbn [tryCatch tryFinally advance isAwaited respond].
    rewrite Hk. exact Hm.
Qed.

(** A settled call on a page that satisfies the invariant: nothing happens,
    or the run in flight goes on from the answer to its awaited command. *)
Lemma resume_cases R i pg :
  PageInv pg ->
  resume R i pg = pg
  \/ exists c payload acc body,
       isAwaited c = true /\ Pending acc body
       /\ machine (resume R i pg)
          = fst (advance R (guard payload body)
                   (record (machine pg) c (respond R (machine pg) c))).
Proof.
  intros [L Hin]. unfold resume.
  destruct (nth_error (inflight pg) i) as [[c k] |] eqn:Hnth; [| now left].
  destruct (inflight pg) as [| s [| s' rest]];
    [destruct i; discriminate | | contradiction].
  destruct i as [| i]; [| destruct i; discriminate].
  cbn in Hnth. injection Hnth as ->.
  destruct Hin as [_ [_ [acc [[Ha [payload [body [-> Hp]]]] _]]]].
  right. exists c, payload, acc, (body (respond R (machine pg) c)).
  split; [exact Ha |]. split; [apply Hp |].
  destruct (advance R (guard payload (body (respond R (machine pg) c))) _)
    as [m' s']. reflexivity.
Qed.

Lemma submit_state R API_KEY pg :
  let st := state (machine pg) in
  state (machine (step API_KEY R pg Submit))
  = if isLoading st then st
    else if canSubmit st
         then applyCmd (SetLoadingMessage (js "Initializing video generation..."))
                (applyCmd (SetGeneratedVideos []) (applyCmd (SetIsLoading true) st))
         else applyCmd (SetShowErrorModal true)
                (applyCmd (SetErrorMessage (NText validationMessage)) st).
Proof.
  cbv zeta. cbn [step]. unfold submitDisabled.
  destruct (isLoading (state (machine pg))); [reflexivity |].
  destruct (canSubmit (state (machine pg))) eqn:Hc.
  - unfold dispatch. rewrite (advance_handleSubmit_valid R API_KEY _ _ Hc).
    cbn [machine]. now rewrite state_started.
  - unfold canSubmit in Hc. apply orb_false_elim in Hc. destruct Hc as [H1 H2].
    unfold dispatch, handleSubmit. rewrite H1, H2. reflexivity.
Qed.

Lemma step_form R API_KEY pg :
  PageInv pg ->
  formOf (state (machine (step API_KEY R pg Submit))) = formOf (state (machine pg))
  /\ forall i, formOf (state (machine (step API_KEY R pg (Settles i))))
               = formOf (state (machine pg)).
Proof.
  intros Hinv. split.
  - rewrite submit_state.
    destruct (isLoading (state (machine pg))); [reflexivity |].
    destruct (canSubmit (state (machine pg))); reflexivity.
  - intros i. cbn [step].
    destruct (resume_cases R i pg Hinv)
      as [-> | [c [payload [acc [body [Ha [Hp ->]]]]]]]; [reflexivity |].
    rewrite (formOf_advance_guard R payload acc body Hp).
    destruct c; try discriminate; reflexivity.
Qed.

(** X10: on every page reached from the initial one, neither a submission
    nor the progress of a run (a settled call) writes the prompt, the
    uploaded image, the number of videos, the aspect ratio or the flag of
    the settings dialog: what the user edits while a run is in flight is
    still there when it ends. *)
Theorem run_keeps_the_form :
  forall API_KEY R inputs,
    let pg := run API_KEY R inputs initialPage in
    formOf (state (machine (step API_KEY R pg Submit))) = formOf (state (machine pg))
    /\ forall i, formOf (state (machine (step API_KEY R pg (Settles i))))
                 = formOf (state (machine pg)).
Proof.
  intros API_KEY R inputs pg. apply step_form, PageInv_run, PageInv_initial.
Qed.

Lemma step_dialog R API_KEY pg i :
  PageInv pg -> i <> ClickCloseError ->
  showErrorModal (state (machine pg)) = true ->
  showErrorModal (state (machine (step API_KEY R pg i))) = true.
Proof.
  intros Hinv Hi Hm. destruct i; try congruence; try exact Hm.
  - rewrite submit_state.
    destruct (isLoading (state (machine pg))); [exact Hm |].
    destruct (canSubmit (state (machine pg))); [exact Hm | reflexivity].
  - cbn [step]. unfold dispatch. rewrite advance_handleClear. cbn [machine].
    unfold clearEvents. rewrite replay_app. cbn [replay fold_left record state applyCmd
                                                  showErrorModal].
    now rewrite state_replay_releases.
  - cbn [step]. destruct (nth_error aspectRatios i); exact Hm.
  - cbn [step].
    destruct (resume_cases R i pg Hinv)
      as [-> | [c [payload [acc [body [Ha [Hp ->]]]]]]]; [exact Hm |].
    apply (dialog_advance_guard R payload acc body Hp).
    destruct c; try discriminate; exact Hm.
Qed.

(** X11: once the error dialog is shown it stays shown until the user
    closes it: no other input hides it, neither Clear nor a new submission
    nor a run that succeeds meanwhile. *)
Theorem error_dialog_stays_open :
  forall API_KEY R R' inputs more,
    let pg := run API_KEY R inputs initialPage in
    showErrorModal (state (machine pg)) = true ->
    ~ In ClickCloseError more ->
    showErrorModal (state (machine (run API_KEY R' more pg))) = true.
Proof.
  intros API_KEY R R' inputs more pg Hm Hnot.
  assert (Hinv : PageInv pg) by apply PageInv_run, PageInv_initial.
  clearbody pg. revert pg Hm Hinv.
  induction more as [| i more IH]; intros pg Hm Hinv; [exact Hm |].
  cbn [run fold_left]. apply IH.
  - intros H. apply Hnot. now right.
  - apply step_dialog; auto. intros ->. apply Hnot. now left.
  - now apply PageInv_step.
Qed.

Lemma error_dialog_stays_open_witness :
  showErrorModal
    (state (machine (run None serving
                       [ClickClear; ChangePrompt (js "a dog"); Submit;
                        Settles 0; Settles 0; Settles 0; Settles 0; Settles 0]
                       (run None (rejecting (js "unavailable"))
                          [ChangePrompt (js "a cat"); Submit; Settles 0]
                          initialPage)))) = true.
Proof.
  apply (error_dialog_stays_open None (rejecting (js "unavailable")) serving
           [ChangePrompt (js "a cat"); Submit; Settles 0]);
    [reflexivity | cbn; intuition discriminate].
Defined.

(** ** The aspect ratio *)

Lemma aspectRatio_step R API_KEY pg i :
  PageInv pg ->
  In (aspectRatio (state (machine pg))) aspectRatios ->
  In (aspectRatio (state (machine (step API_KEY R pg i)))) aspectRatios.
Proof.
  intros Hinv Hr.
  destruct (step_form R API_KEY pg Hinv) as [Hsub Hset].
  destruct i; try exact Hr.
  - apply (f_equal form_aspectRatio) in Hsub. cbn [formOf form_aspectRatio] in Hsub.
    now rewrite Hsub.
  - cbn [step]. unfold dispatch. rewrite advance_handleClear. cbn [machine].
    unfold clearEvents. rewrite replay_app. left. reflexivity.
  - cbn [step]. destruct (nth_error aspectRatios i) as [ratio |] eqn:Hn; [| exact Hr].
    apply nth_error_In in Hn. exact Hn.
  - specialize (Hset i).
    apply (f_equal form_aspectRatio) in Hset. cbn [formOf form_aspectRatio] in Hset.
    now rewrite Hset.
Qed.

Lemma aspectRatio_run R API_KEY inputs :
  In (aspectRatio (state (machine (run API_KEY R inputs initialPage)))) aspectRatios.
Proof.
  assert (H : forall pg, PageInv pg -> In (aspectRatio (state (machine pg))) aspectRatios ->
                         In (aspectRatio (state (machine (run API_KEY R inputs pg))))
                            aspectRatios).
  { induction inputs as [| i inputs IH]; intros pg Hinv Hr; [exact Hr |].
    cbn [run fold_left]. apply IH.
    - now apply PageInv_step.
    - now apply aspectRatio_step. }
  apply H; [exact PageInv_initial | left; reflexivity].
Qed.

(** X12: on every page reached from the initial one the aspect ratio is
    one of the five listed in [aspectRatios], and [handleSubmit] sends it as
    it is. *)
Theorem aspectRatio_is_listed :
  forall API_KEY R inputs,
    let st := state (machine (run API_KEY R inputs initialPage)) in
    In (aspectRatio st) aspectRatios
    /\ cfg_aspectRatio (config (buildPayload st)) = aspectRatio st.
Proof.
  intros API_KEY R inputs st. split; [apply aspectRatio_run | reflexivity].
Qed.

(** ** Clear *)

(** X13: Clear on any page empties the prompt and the batch, removes the
    image and resets the two settings to 1 and 16:9; it leaves the loading
    flag, the loading message, the error dialog and the settings dialog as
    they are and does not touch a run in flight; it releases the current
    batch, and a second Clear changes nothing and releases nothing more. *)
Theorem clear_resets_the_form :
  forall API_KEY R pg,
    let st := state (machine pg) in
    let pg' := step API_KEY R pg ClickClear in
    state (machine pg') = cleared st
    /\ inflight pg' = inflight pg
    /\ nextURL (machine pg') = nextURL (machine pg)
    /\ revoked (trace (machine pg')) = revoked (trace (machine pg)) ++ generatedVideos st
    /\ state (machine (step API_KEY R pg' ClickClear)) = cleared st
    /\ revoked (trace (machine (step API_KEY R pg' ClickClear)))
       = revoked (trace (machine pg')).
Proof.
  intros API_KEY R pg st pg'.
  assert (Hstep : forall q,
             state (machine (step API_KEY R q ClickClear)) = cleared (state (machine q))
             /\ inflight (step API_KEY R q ClickClear) = inflight q
             /\ nextURL (machine (step API_KEY R q ClickClear)) = nextURL (machine q)
             /\ revoked (trace (machine (step API_KEY R q ClickClear)))
                = revoked (trace (machine q)) ++ generatedVideos (state (machine q))).
  { intros q. cbn [step]. unfold dispatch. rewrite advance_handleClear.
    cbn [machine inflight]. unfold clearEvents. rewrite replay_app.
    cbn [replay fold_left record state nextURL trace].
    rewrite state_replay_releases, nextURL_replay_releases, trace_replay.
    split; [reflexivity |]. split; [reflexivity |]. split; [reflexivity |].
    rewrite !revoked_app, revoked_releases. cbn. now rewrite !app_nil_r. }
  destruct (Hstep pg) as [H1 [H2 [H3 H4]]].
  destruct (Hstep pg') as [G1 [_ [_ G4]]].
  fold pg' in H1, H2, H3, H4. fold st in H1, H4.
  split; [exact H1 |]. split; [exact H2 |]. split; [exact H3 |]. split; [exact H4 |].
  rewrite G1, G4, H1. split; [reflexivity |]. cbn [cleared generatedVideos].
  apply app_nil_r.
Qed.

(** ** Whole numbers typed in the number input *)














(** ** The image upload *)


Lemma split_commaFree s rest :
  commaFree s -> (rest = [] \/ exists rest', rest = comma :: rest') ->
  split comma (s ++ rest)
  = match rest with
    | [] => [s]
    | _ :: rest' => s :: split comma rest'
    end.
Proof.
  intros Hs Hrest. induction Hs as [| c s Hc _ IH]; cbn [app].
  - destruct Hrest as [-> | [rest' ->]]; [reflexivity |].
    cbn [split]. now rewrite N.eqb_refl.
  - cbn [split]. rewrite Hc, IH.
    destruct rest; reflexivity.
Qed.

Lemma base64Data_between pre base64 rest :
  commaFree pre -> commaFree base64 ->
  (rest = [] \/ exists rest', rest = comma :: rest') ->
  base64Data (pre ++ comma :: base64 ++ rest) = Some base64.
Proof.
  intros Hpre Hb Hrest. unfold base64Data.
  rewrite (split_commaFree pre (comma :: base64 ++ rest) Hpre)
    by (right; eexists; reflexivity).
  rewrite (split_commaFree base64 rest Hb Hrest).
  destruct rest; reflexivity.
Qed.

Lemma base64Data_none s : commaFree s -> base64Data s = None.
Proof.
  intros H. unfold base64Data.
  rewrite <- (app_nil_r s), (split_commaFree s [] H) by now left. reflexivity.
Qed.

Lemma base64Data_dataUrl type base64 :
  commaFree type -> commaFree base64 ->
  base64Data (js "data:" ++ type ++ js ";base64," ++ base64) = Some base64.
Proof.
  intros Ht Hb.
  replace (js "data:" ++ type ++ js ";base64," ++ base64)
    with ((js "data:" ++ type ++ js ";base64") ++ comma :: base64 ++ []).
  - apply base64Data_between; [| exact Hb | now left].
    apply Forall_app. split; [repeat constructor |].
    apply Forall_app. split; [exact Ht | repeat constructor].
  - rewrite app_nil_r, <- !app_assoc. reflexivity.
Qed.

(** X15: the round trip of an uploaded image.  For a file whose type holds
    no comma and a Base64 text (which holds none), the data URL made of the
    type and the text is taken apart by [onload] into an image whose [data]
    is the text and whose [mimeType] and [name] are those of the file, and
    the preview rebuilds the data URL from it. *)
Theorem upload_round_trip :
  forall file base64,
    commaFree (file_type file) -> commaFree base64 ->
    let dataUrl := js "data:" ++ file_type file ++ js ";base64," ++ base64 in
    exists img,
      onload file dataUrl = Some img
      /\ handleImageUpload [file] dataUrl = Some [ImageLoaded img]
      /\ data img = base64
      /\ mimeType img = file_type file
      /\ name img = file_name file
      /\ previewSrc img = dataUrl.
Proof.
  intros file base64 Ht Hb dataUrl.
  pose proof (base64Data_dataUrl (file_type file) base64 Ht Hb) as H.
  fold dataUrl in H.
  exists {| data := base64; mimeType := file_type file; name := file_name file |}.
  unfold handleImageUpload, onload. rewrite H.
  split; [reflexivity |]. split; [reflexivity |]. split; [reflexivity |].
  split; [reflexivity |]. split; reflexivity.
Qed.

Lemma upload_round_trip_witness :
  exists img,
    onload pngFile pngDataUrl = Some img
    /\ handleImageUpload [pngFile] pngDataUrl = Some [ImageLoaded img]
    /\ data img = js "iVBORw0KGgo="
    /\ mimeType img = file_type pngFile
    /\ name img = file_name pngFile
    /\ previewSrc img = pngDataUrl.
Proof.
  apply (upload_round_trip pngFile (js "iVBORw0KGgo=")); repeat constructor.
Defined.

(** X16: what [dataUrl.split(',')[1]] is: [undefined] when the URL holds
    no comma, else the text between the first comma and the second one, or
    the end when there is no second one; what follows a second comma is
    dropped. *)
Theorem base64Data_is_the_second_piece :
  forall pre piece rest,
    commaFree pre -> commaFree piece ->
    base64Data pre = None
    /\ base64Data (pre ++ comma :: piece) = Some piece
    /\ base64Data (pre ++ comma :: piece ++ comma :: rest) = Some piece.
Proof.
  intros pre piece rest Hpre Hp.
  split; [now apply base64Data_none |]. split.
  - rewrite <- (app_nil_r piece) at 1. apply base64Data_between; auto.
  - apply base64Data_between; auto. right. now exists rest.
Qed.

Lemma base64Data_is_the_second_piece_witness :
  base64Data (js "data:image/png;base64") = None
  /\ base64Data (js "data:image/png;base64" ++ comma :: js "iVBO") = Some (js "iVBO")
  /\ base64Data (js "data:image/png;base64" ++ comma :: js "iVBO" ++ comma :: js "Rw0K")
     = Some (js "iVBO").
Proof.
  apply (base64Data_is_the_second_piece (js "data:image/png;base64") (js "iVBO")
           (js "Rw0K")); repeat constructor.
Defined.

(** X17: an image uploaded on a page that is not loading and then
    submitted is sent: the handler is suspended on [generateVideos] called
    with a payload whose image carries the Base64 text and the type of the
    file, with the prompt and the settings of the page, also when the prompt
    is empty. *)
Theorem uploaded_image_is_submitted :
  forall API_KEY R pg file base64,
    commaFree (file_type file) -> commaFree base64 ->
    isLoading (state (machine pg)) = false ->
    let st := state (machine pg) in
    let dataUrl := js "data:" ++ file_type file ++ js ";base64," ++ base64 in
    let payload :=
      {| model := js "veo-2.0-generate-001";
         pl_prompt := prompt st;
         config := {| cfg_numberOfVideos := numberOfVideos st;
                      cfg_aspectRatio := aspectRatio st |};
         image := Some {| imageBytes := base64; img_mimeType := file_type file |} |} in
    exists inputs k,
      handleImageUpload [file] dataUrl = Some inputs
      /\ inflight (run API_KEY R (inputs ++ [Submit]) pg)
         = inflight pg ++ [Awaiting (GenerateVideos payload) k].
Proof.
  intros API_KEY R pg file base64 Ht Hb Hl st dataUrl payload.
  set (img := {| data := base64; mimeType := file_type file; name := file_name file |}).
  assert (Hup : handleImageUpload [file] dataUrl = Some [ImageLoaded img]).
  { unfold handleImageUpload, onload, dataUrl.
    now rewrite (base64Data_dataUrl (file_type file) base64 Ht Hb). }
  set (pg1 := dispatch R (fun _ => perform (SetUploadedImage (Some img))) pg).
  assert (H1 : state (machine pg1) = applyCmd (SetUploadedImage (Some img)) st)
    by reflexivity.
  assert (H2 : inflight pg1 = inflight pg) by reflexivity.
  assert (Hl1 : isLoading (state (machine pg1)) = false) by (rewrite H1; exact Hl).
  assert (Hc1 : canSubmit (state (machine pg1)) = true)
    by (rewrite H1; unfold canSubmit; cbn; apply orb_true_r).
  assert (Hp : buildPayload (state (machine pg1)) = payload).
  { rewrite H1. unfold buildPayload, payload.
    cbn [applyCmd prompt numberOfVideos aspectRatio uploadedImage]. reflexivity. }
  exists [ImageLoaded img], (fun r => guard payload (afterSubmission API_KEY r)).
  split; [exact Hup |].
  cbn [app run fold_left step]. fold pg1. unfold submitDisabled. rewrite Hl1.
  unfold dispatch.
  rewrite (advance_handleSubmit_valid R API_KEY (state (machine pg1)) (machine pg1) Hc1).
  cbn [inflight]. now rewrite H2, Hp.
Qed.

Lemma uploaded_image_is_submitted_witness :
  let st := state (machine initialPage) in
  let payload :=
    {| model := js "veo-2.0-generate-001";
       pl_prompt := prompt st;
       config := {| cfg_numberOfVideos := numberOfVideos st;
                    cfg_aspectRatio := aspectRatio st |};
       image := Some {| imageBytes := js "iVBORw0KGgo=";
                        img_mimeType := file_type pngFile |} |} in
  exists inputs k,
    handleImageUpload [pngFile] pngDataUrl = Some inputs
    /\ inflight (run None serving (inputs ++ [Submit]) initialPage)
       = inflight initialPage ++ [Awaiting (GenerateVideos payload) k].
Proof.
  apply (uploaded_image_is_submitted None serving initialPage pngFile
           (js "iVBORw0KGgo=")); [repeat constructor | repeat constructor | reflexivity].
Defined.

(** ** The download links *)

Lemma js_injective s t : js s = js t -> s = t.
Proof.
  unfold js. intros H.
  assert (Hl : list_ascii_of_string s = list_ascii_of_string t).
  { revert H. generalize (list_ascii_of_string s) (list_ascii_of_string t).
    induction l as [| a l IH]; intros [| b l'] H; try discriminate; [reflexivity |].
    cbn [map] in H. injection H as Hab Hl.
    f_equal; [| now apply IH].
    rewrite <- (ascii_N_embedding a), <- (ascii_N_embedding b). now rewrite Hab. }
  rewrite <- (string_of_list_ascii_of_string s), <- (string_of_list_ascii_of_string t).
  now rewrite Hl.
Qed.

Lemma decimal_injective n n' : decimal n = decimal n' -> n = n'.
Proof.
  unfold decimal. intros H. apply js_injective in H.
  apply Unsigned.to_uint_inj.
  assert (Hs : Some (Nat.to_uint n) = Some (Nat.to_uint n')).
  { rewrite <- !NilEmpty.usu. now rewrite H. }
  now injection Hs.
Qed.

Lemma download_injective src src' index index' :
  download (handleDownload src index) = download (handleDownload src' index') ->
  index = index'.
Proof.
  cbn [handleDownload download]. intros H.
  apply app_inv_head, app_inv_tail, decimal_injective in H. lia.
Qed.

Lemma mapIndexed_href l index :
  map href (mapIndexed handleDownload l index) = l.
Proof.
  revert index; induction l as [| x l IH]; intros index; [reflexivity |].
  cbn [mapIndexed map handleDownload href]. now rewrite IH.
Qed.

Lemma mapIndexed_nth l index i a :
  nth_error (mapIndexed handleDownload l index) i = Some a ->
  exists src, nth_error l i = Some src /\ a = handleDownload src (index + i).
Proof.
  revert index i; induction l as [| x l IH]; intros index i H.
  - destruct i; discriminate.
  - destruct i as [| i]; cbn [mapIndexed nth_error] in *.
    + injection H as <-. exists x. now rewrite Nat.add_0_r.
    + destruct (IH _ _ H) as [src [Hs Ha]]. exists src.
      split; [exact Hs |]. rewrite Ha. f_equal. lia.
Qed.

Lemma mapIndexed_download_NoDup l index :
  NoDup (map download (mapIndexed handleDownload l index)).
Proof.
  revert index; induction l as [| x l IH]; intros index; [constructor |].
  cbn [mapIndexed map]. constructor; [| apply IH].
  intros Hin. apply in_map_iff in Hin. destruct Hin as [a [Ha Hin]].
  apply In_nth_error in Hin. destruct Hin as [i Hi].
  apply mapIndexed_nth in Hi. destruct Hi as [src [_ ->]].
  apply download_injective in Ha. lia.
Qed.

(** X18: on every page reached from the initial one the download links of
    the grid point to the videos of the batch in order, no two links share
    a URL or a file name, the name of the link of index [i] is
    veo-studio-(i+1).mp4, and while the spinner is shown the batch is
    empty. *)
Theorem download_links_are_distinct :
  forall API_KEY R inputs,
    let st := state (machine (run API_KEY R inputs initialPage)) in
    map href (downloadLinks st) = generatedVideos st
    /\ NoDup (map href (downloadLinks st))
    /\ NoDup (map download (downloadLinks st))
    /\ (forall i a, nth_error (downloadLinks st) i = Some a ->
          download a = js "veo-studio-" ++ decimal (S i) ++ js ".mp4")
    /\ (forall message, mainPanel st = Spinner message -> generatedVideos st = []).
Proof.
  intros API_KEY R inputs st.
  assert (Hinv : PageInv (run API_KEY R inputs initialPage))
    by apply PageInv_run, PageInv_initial.
  destruct Hinv as [L Hin]. fold st in Hin.
  unfold downloadLinks.
  split; [apply mapIndexed_href |].
  split; [rewrite mapIndexed_href; apply (current_distinct _ L) |].
  split; [apply mapIndexed_download_NoDup |].
  split.
  - intros i a H. apply mapIndexed_nth in H. destruct H as [src [_ ->]].
    cbn [handleDownload download Nat.add]. now rewrite Nat.add_1_r.
  - intros message. unfold mainPanel.
    destruct (isLoading st) eqn:Hl.
    + intros _.
      destruct (inflight (run API_KEY R inputs initialPage)) as [| s [| s' rest]];
        [congruence | tauto | contradiction].
    + destruct (0 <? List.length (generatedVideos st)); discriminate.
Qed.

(** ** The buttons of the aspect ratio *)

(** X19: on every page reached from the initial one exactly one of the
    five buttons of the aspect ratio is drawn as the current one, and it is
    the button of the ratio in the state. *)
Theorem one_ratio_button_is_current :
  forall API_KEY R inputs,
    let st := state (machine (run API_KEY R inputs initialPage)) in
    filter isCurrent (ratioButtons st)
    = [{| value := aspectRatio st; isCurrent := true |}].
Proof.
  intros API_KEY R inputs st.
  pose proof (aspectRatio_run R API_KEY inputs) as Hin. fold st in Hin.
  unfold ratioButtons.
  destruct Hin as [H | [H | [H | [H | [H | []]]]]]; rewrite <- H; reflexivity.
Qed.

(** ** The page and the run to the end *)




(** ** Without a submission *)

Lemma advance_plain_trace R (p : Prog unit) m :
  Only plainCmd p ->
  exists evs,
    trace (fst (advance R p m)) = trace m ++ evs
    /\ Forall (fun e => plainCmd (ev_cmd e) = true) evs.
Proof.
  revert m; induction p as [a | e | | c k IH]; intros m Hp;
    try (exists []; cbn; rewrite app_nil_r; split; [reflexivity | constructor]).
  destruct Hp as [Hc Hk]. pose proof Hc as Hc'. unfold plainCmd in Hc'.
  apply andb_prop in Hc'. destruct Hc' as [_ Ha]. apply negb_true_iff in Ha.
  cbn [advance]. rewrite Ha.
  destruct (IH (respond R m c) (record m c (respond R m c)) (Hk _)) as [evs [Ht Hf]].
  exists (Ev c (respond R m c) :: evs). split.
  - rewrite Ht. cbn [record trace]. now rewrite <- app_assoc.
  - constructor; [exact Hc | exact Hf].
Qed.

Lemma plain_no_calls evs :
  Forall (fun e => plainCmd (ev_cmd e) = true) evs ->
  networkCalls evs = [] /\ created evs = [].
Proof.
  intros H. split.
  - unfold networkCalls. induction H as [| [c r] evs Hc _ IH]; [reflexivity |].
    cbn [filter ev_cmd] in *. rewrite IH.
    destruct c; try discriminate; reflexivity.
  - apply flat_map_nil. eapply Forall_impl; [| exact H].
    intros [c r] Hc. cbn [ev_cmd] in Hc. destruct c; try discriminate; reflexivity.
Qed.

Lemma clearEvents_no_calls st :
  networkCalls (clearEvents st) = [] /\ created (clearEvents st) = [].
Proof.
  unfold clearEvents. rewrite networkCalls_app, created_app.
  destruct (releases_plain (generatedVideos st)) as [_ [_ [_ ->]]].
  destruct (releases_observed (generatedVideos st)) as [_ [_ [-> _]]].
  split; reflexivity.
Qed.

Lemma editing_step R API_KEY pg i :
  editing i = true -> inflight pg = [] ->
  inflight (step API_KEY R pg i) = []
  /\ networkCalls (trace (machine (step API_KEY R pg i)))
     = networkCalls (trace (machine pg))
  /\ created (trace (machine (step API_KEY R pg i))) = created (trace (machine pg)).
Proof.
  intros He Hin.
  assert (Hplain : forall handler,
             Only plainCmd (handler (state (machine pg))) ->
             inflight (dispatch R handler pg) = []
             /\ networkCalls (trace (machine (dispatch R handler pg)))
                = networkCalls (trace (machine pg))
             /\ created (trace (machine (dispatch R handler pg)))
                = created (trace (machine pg))).
  { intros handler Hp. unfold dispatch.
    destruct (advance_plain R _ (machine pg) Hp) as [Hs _].
    destruct (advance_plain_trace R _ (machine pg) Hp) as [evs [Ht Hf]].
    destruct (advance R (handler (state (machine pg))) (machine pg)) as [m' s'].
    cbn [fst snd machine inflight] in *. subst s'. split; [exact Hin |].
    destruct (plain_no_calls evs Hf) as [Hn Hc].
    now rewrite Ht, networkCalls_app, created_app, Hn, Hc, !app_nil_r. }
  destruct i; try discriminate He; cbn [step]; try (apply Hplain; cbn; now auto).
  - unfold dispatch. rewrite advance_handleClear. cbn [machine inflight].
    split; [exact Hin |]. rewrite trace_replay, networkCalls_app, created_app.
    destruct (clearEvents_no_calls (state (machine pg))) as [-> ->].
    now rewrite !app_nil_r.
  - destruct (nth_error aspectRatios i) as [ratio |]; [| now auto].
    apply Hplain. cbn. now auto.
Qed.

(** X22: without a submission the page does nothing but write its own
    state: after any inputs that only edit the form, clear the page or open
    and close the dialogs, no call to the service or to the network was
    made, no object URL was created and no handler is in flight. *)
Theorem no_call_without_submission :
  forall API_KEY R inputs,
    forallb editing inputs = true ->
    let pg := run API_KEY R inputs initialPage in
    networkCalls (trace (machine pg)) = []
    /\ created (trace (machine pg)) = []
    /\ inflight pg = [].
Proof.
  intros API_KEY R inputs Hall pg. subst pg.
  assert (H : forall pg0,
             inflight pg0 = [] ->
             inflight (run API_KEY R inputs pg0) = []
             /\ networkCalls (trace (machine (run API_KEY R inputs pg0)))
                = networkCalls (trace (machine pg0))
             /\ created (trace (machine (run API_KEY R inputs pg0)))
                = created (trace (machine pg0))).
  { induction inputs as [| i inputs IH]; intros pg0 Hin; [now auto |].
    cbn [forallb] in Hall. apply andb_prop in Hall. destruct Hall as [Hi Hrest].
    destruct (editing_step R API_KEY pg0 i Hi Hin) as [H1 [H2 H3]].
    destruct (IH Hrest _ H1) as [G1 [G2 G3]].
    change (run API_KEY R (i :: inputs) pg0)
      with (run API_KEY R inputs (step API_KEY R pg0 i)).
    split; [exact G1 |]. split; congruence. }
  destruct (H initialPage eq_refl) as [H1 [H2 H3]].
  split; [exact H2 |]. split; [exact H3 | exact H1].
Qed.

Lemma no_call_without_submission_witness :
  let pg := run None serving
                [ChangePrompt (js "a cat"); ChangeNumberOfVideos (js "3");
                 ClickAspectRatio 1; ClickToggleSettings; ClickClear;
                 ClickCloseError; ClickRemoveImage]
                initialPage in
  networkCalls (trace (machine pg)) = []
  /\ created (trace (machine pg)) = []
  /\ inflight pg = [].
Proof.
  apply (no_call_without_submission None serving); reflexivity.
Defined.
